(** * QCPDataContainer: the sorted point store of QCustomPlot

    A shallow embedding of [src/datacontainer.h] (QCustomPlot 2.0.1) and the
    verification of its sort invariant, its insertion and removal operations,
    its key searches, its index access and its preallocation policy.

    Modelling conventions.
    - A [double] (a sort key, a coordinate) is a [qreal]: NaN or a number.
      The code compares doubles ([<], [>], [>=], [==]) and tests them for
      NaN; it never computes with them.  Every comparison with NaN is false,
      as in IEEE 754.  The numbers stand for the doubles that are not NaN,
      the two infinities among them, in their order: [-0.0] and [+0.0],
      which no comparison of the code tells apart, are the same number, so
      that the equality of the model is [==] on doubles that are not NaN,
      not the equality of bit patterns.
    - C++ [int] members and arguments are [Z].  QVector sizes are bounded by
      [INT_MAX]; sums and differences of sizes are written without
      wrap-around.  The two [int] products of [performAutoSqueeze] leave the
      range of [int] for sizes a QVector can have: they are written with
      their wrap-around.
    - An iterator into [mData] is the position ([nat]) it points to, so
      [mData.begin()] is [0] and [mData.end()] is the length of the vector.
    - The buffer holds real elements in its preallocation zone too (stale or
      default constructed points), exactly as the QVector does.
    - [std::sort] is any function with the contract of the standard: a
      rearrangement, sorted when no key is NaN, the order of equal keys left
      open.  The other algorithms of the standard library are written out
      ([std::lower_bound] and [std::upper_bound] as their bisection loops,
      [std::inplace_merge] as the stable merge).
    - A container or vector passed as argument is another object than the
      container it is passed to, so that it keeps its value during the call.
      What [add] and [set] do with the container itself is
      [add_container_self] and [set_container_self]. *)

From Stdlib Require Import ZArith List Bool Lia ZifyBool Permutation Sorted.
Import ListNotations.
Local Open Scope Z_scope.

Set Implicit Arguments.

(** ** Doubles *)
Inductive qreal := NaN | Num (z : Z).

Definition qIsNaN (x : qreal) : bool :=
  match x with NaN => true | Num _ => false end.

(** [a < b] *)
Definition qlt (a b : qreal) : bool :=
  match a, b with Num x, Num y => x <? y | _, _ => false end.

(** [a <= b] *)
Definition qle (a b : qreal) : bool :=
  match a, b with Num x, Num y => x <=? y | _, _ => false end.

(** [a == b] *)
Definition qeq (a b : qreal) : bool :=
  match a, b with Num x, Num y => x =? y | _, _ => false end.

(** ** The DataType template parameter

    The requirements the class documentation puts on [DataType]: a sort key,
    a constructor from a sort key whose result carries that key, and a default
    constructor (used by [QVector::resize]). *)
Class QCPDataType (DataType : Type) := {
  sortKey : DataType -> qreal;
  fromSortKey : qreal -> DataType;
  defaultConstructed : DataType;
  sortKey_fromSortKey : forall k, sortKey (fromSortKey k) = k
}.

(** [qcpLessThanSortKey(a, b)]: [a.sortKey() < b.sortKey()]. *)
Definition qcpLessThanSortKey {DataType} `{QCPDataType DataType}
  (a b : DataType) : bool :=
  qlt (sortKey a) (sortKey b).

(** Qt's [qBound(min, val, max)], which is [qMax(min, qMin(max, val))]. *)
Definition qBound (min val max : Z) : Z := Z.max min (Z.min max val).

(** The value of an [int] expression whose mathematical value is [z]: inside
    the range of [int] it is [z]; outside, where C++ leaves the result
    undefined, it is what the two's complement arithmetic of the usual
    targets gives. *)
Definition wrapInt (z : Z) : Z := (z + 2 ^ 31) mod 2 ^ 32 - 2 ^ 31.

(** ** The algorithms of the C++ standard library used by the container *)
Module Std.
Section Algorithms.
Variable A : Type.
Variable comp : A -> A -> bool.

(** The elements of [v] at the positions [[first, last)]. *)
Definition slice (v : list A) (first last : nat) : list A :=
  firstn (last - first) (skipn first v).

(** [std::copy(first, last, d_first)] with the source range given by its
    elements [src]: they overwrite [dst] from position [d_first] on.  The
    container only calls it with a destination that does not lie inside the
    source range, or that is its very start, so that the elements read are
    the original ones. *)
Definition copy (src dst : list A) (d_first : nat) : list A :=
  firstn d_first dst ++ src ++ skipn (d_first + length src) dst.

(** [std::copy_backward(first, last, d_last)]: the same elements, written so
    that they end at [d_last]; called with [d_last] past the source. *)
Definition copy_backward (src dst : list A) (d_last : nat) : list A :=
  copy src dst (d_last - length src).

(** [std::lower_bound(first, last, val, comp)], the bisection loop of the
    library: [len] is the length of the range still searched; an element is
    skipped when [comp(element, val)]. *)
Fixpoint lower_bound_loop (fuel : nat) (v : list A) (first len : nat)
  (val : A) : nat :=
  match fuel with
  | O => first
  | S fuel' =>
      if (len =? 0)%nat then first
      else
        let half := (len / 2)%nat in
        let middle := (first + half)%nat in
        match nth_error v middle with
        | Some m =>
            if comp m val
            then lower_bound_loop fuel' v (middle + 1) (len - half - 1) val
            else lower_bound_loop fuel' v first half val
        | None => first
        end
  end.

Definition lower_bound (v : list A) (first last : nat) (val : A) : nat :=
  lower_bound_loop (last - first) v first (last - first) val.

(** [std::upper_bound(first, last, val, comp)]: the same loop, an element is
    skipped unless [comp(val, element)]. *)
Fixpoint upper_bound_loop (fuel : nat) (v : list A) (first len : nat)
  (val : A) : nat :=
  match fuel with
  | O => first
  | S fuel' =>
      if (len =? 0)%nat then first
      else
        let half := (len / 2)%nat in
        let middle := (first + half)%nat in
        match nth_error v middle with
        | Some m =>
            if comp val m
            then upper_bound_loop fuel' v first half val
            else upper_bound_loop fuel' v (middle + 1) (len - half - 1) val
        | None => first
        end
  end.

Definition upper_bound (v : list A) (first last : nat) (val : A) : nat :=
  upper_bound_loop (last - first) v first (last - first) val.

(** The stable merge of two runs: the head of the second run is taken only
    when it compares less than the head of the first. *)
Fixpoint merge (l1 l2 : list A) {struct l1} : list A :=
  let fix merge_aux (l2 : list A) : list A :=
    match l1, l2 with
    | [], _ => l2
    | _, [] => l1
    | a1 :: l1', a2 :: l2' =>
        if comp a2 a1 then a2 :: merge_aux l2' else a1 :: merge l1' l2
    end
  in merge_aux l2.

(** [std::inplace_merge(first, middle, last, comp)] on the buffer [v]. *)
Definition inplace_merge (v : list A) (first middle last : nat) : list A :=
  firstn first v ++ merge (slice v first middle) (slice v middle last)
    ++ skipn last v.

(** Insertion of one element into a sorted run, after its equals. *)
Fixpoint insert_sorted (x : A) (l : list A) : list A :=
  match l with
  | [] => [x]
  | y :: l' => if comp x y then x :: l else y :: insert_sorted x l'
  end.

Definition insertion_sort (l : list A) : list A :=
  fold_right insert_sorted [] l.
End Algorithms.
End Std.


(** [std::sort] promises a sorted rearrangement of its range when the
    comparison is a strict weak ordering, and nothing on the order of equal
    keys.  [qcpLessThanSortKey] is a strict weak ordering on points whose
    keys are not NaN; with a NaN key in the range the result is a
    rearrangement on whose order nothing is promised.  The container is
    verified against any sorting function with that contract. *)
Class StdSort (DataType : Type) `{QCPDataType DataType} := {
  sort_range : list DataType -> list DataType;
  sort_range_perm : forall l, Permutation l (sort_range l);
  sort_range_sorted :
    forall l,
      Forall (fun a => qIsNaN (sortKey a) = false) l ->
      StronglySorted (fun a b => qle (sortKey a) (sortKey b) = true)
                     (sort_range l)
}.

(** ** QVector

    The part of Qt's [QVector] the container relies on: the elements and the
    allocated capacity.  How much QVector allocates when it has to grow, and
    what it keeps on [clear], is decided inside Qt; the policy is a
    parameter. *)
Class QVectorAlloc := {
  growCapacity : Z -> Z -> Z;
  clearCapacity : Z -> Z
}.

Record QVector (T : Type) := {
  items : list T;
  capacity : Z
}.

Module QVec.
Section Ops.
Context {T : Type} {alloc : QVectorAlloc}.

Definition size (v : QVector T) : Z := Z.of_nat (length (items v)).

Definition isEmpty (v : QVector T) : bool := size v =? 0.

Definition withItems (l : list T) (v : QVector T) : QVector T :=
  {| items := l; capacity := capacity v |}.

Definition capacityFor (n : Z) (v : QVector T) : Z :=
  if capacity v <? n then growCapacity (capacity v) n else capacity v.

(** [resize(n)]: truncates, or appends default constructed elements. *)
Definition resize (d : T) (n : Z) (v : QVector T) : QVector T :=
  {| items := if n <=? size v then firstn (Z.to_nat n) (items v)
              else items v ++ repeat d (Z.to_nat (n - size v));
     capacity := capacityFor n v |}.

Definition append (x : T) (v : QVector T) : QVector T :=
  {| items := items v ++ [x]; capacity := capacityFor (size v + 1) v |}.

(** [insert(before, x)] *)
Definition insert (before : nat) (x : T) (v : QVector T) : QVector T :=
  {| items := firstn before (items v) ++ x :: skipn before (items v);
     capacity := capacityFor (size v + 1) v |}.

(** [erase(begin, end)]: the capacity is kept. *)
Definition erase (abegin aend : nat) (v : QVector T) : QVector T :=
  withItems (firstn abegin (items v) ++ skipn aend (items v)) v.

Definition clear (v : QVector T) : QVector T :=
  {| items := []; capacity := clearCapacity (capacity v) |}.

Definition squeeze (v : QVector T) : QVector T :=
  {| items := items v; capacity := size v |}.

(** [*it = x] *)
Definition assign (it : nat) (x : T) (v : QVector T) : QVector T :=
  withItems (firstn it (items v) ++ x :: skipn (S it) (items v)) v.
End Ops.
End QVec.

(** ** The container *)
Section Container.
Context {DataType : Type} {DT : QCPDataType DataType}.
Context {alloc : QVectorAlloc} {sorter : @StdSort DataType DT}.

Record QCPDataContainer := {
  mAutoSqueeze : bool;
  mData : QVector DataType;
  mPreallocSize : Z;
  mPreallocIteration : Z
}.

Definition setData (v : QVector DataType) (s : QCPDataContainer) :=
  {| mAutoSqueeze := mAutoSqueeze s; mData := v;
     mPreallocSize := mPreallocSize s;
     mPreallocIteration := mPreallocIteration s |}.

Definition setItems (l : list DataType) (s : QCPDataContainer) :=
  setData (QVec.withItems l (mData s)) s.

Definition setPreallocSize (n : Z) (s : QCPDataContainer) :=
  {| mAutoSqueeze := mAutoSqueeze s; mData := mData s;
     mPreallocSize := n; mPreallocIteration := mPreallocIteration s |}.

Definition setPreallocIteration (n : Z) (s : QCPDataContainer) :=
  {| mAutoSqueeze := mAutoSqueeze s; mData := mData s;
     mPreallocSize := mPreallocSize s; mPreallocIteration := n |}.

(** The constructor: empty, auto squeeze enabled. *)
Definition newContainer : QCPDataContainer :=
  {| mAutoSqueeze := true; mData := {| items := []; capacity := 0 |};
     mPreallocSize := 0; mPreallocIteration := 0 |}.

(** [size()]: [mData.size()-mPreallocSize]. *)
Definition size (s : QCPDataContainer) : Z :=
  QVec.size (mData s) - mPreallocSize s.

Definition isEmpty (s : QCPDataContainer) : bool := size s =? 0.

(** [begin()], [constBegin()]: [mData.begin()+mPreallocSize]. *)
Definition begin_ (s : QCPDataContainer) : nat := Z.to_nat (mPreallocSize s).

(** [end()], [constEnd()]: [mData.end()]. *)
Definition end_ (s : QCPDataContainer) : nat := length (items (mData s)).

(** [*it]; dereferencing outside the vector is undefined in C++, the model
    answers with a default constructed point. *)
Definition deref (s : QCPDataContainer) (it : nat) : DataType :=
  nth it (items (mData s)) defaultConstructed.

(** The logical sequence: what an iteration from [begin()] to [end()] sees. *)
Definition live (s : QCPDataContainer) : list DataType :=
  skipn (begin_ s) (items (mData s)).

(** [at(index)]: [constBegin()+qBound(0, index, size())]. *)
Definition at_ (s : QCPDataContainer) (index : Z) : nat :=
  (begin_ s + Z.to_nat (qBound 0 index (size s)))%nat.

(** [std::sort(first, last, qcpLessThanSortKey)] on the buffer [v]. *)
Definition std_sort (v : list DataType) (first last : nat) : list DataType :=
  firstn first v ++ sort_range (Std.slice v first last) ++ skipn last v.

(** [sort()]: [std::sort(begin(), end(), qcpLessThanSortKey)]. *)
Definition sort (s : QCPDataContainer) : QCPDataContainer :=
  setItems (std_sort (items (mData s)) (begin_ s) (end_ s)) s.

(** [squeeze(preAllocation, postAllocation)] *)
Definition squeeze (preAllocation postAllocation : bool)
  (s : QCPDataContainer) : QCPDataContainer :=
  let s1 :=
    if preAllocation then
      let s' :=
        if 0 <? mPreallocSize s then
          let copied :=
            Std.copy (Std.slice (items (mData s)) (begin_ s) (end_ s))
                     (items (mData s)) 0 in
          let s'' := setItems copied s in
          setPreallocSize 0
            (setData (QVec.resize defaultConstructed (size s'') (mData s''))
                     s'')
        else s in
      setPreallocIteration 0 s'
    else s in
  if postAllocation then setData (QVec.squeeze (mData s1)) s1 else s1.

(** The increment of [preallocateGrow]:
    [(1u<<qBound(4, mPreallocIteration+4, 15)) - 12].  It lies between 4 and
    32768-12, so the unsigned arithmetic does not wrap. *)
Definition growthIncrement (preallocIteration : Z) : Z :=
  Z.shiftl 1 (qBound 4 (preallocIteration + 4) 15) - 12.

(** [preallocateGrow(minimumPreallocSize)] *)
Definition preallocateGrow (minimumPreallocSize : Z)
  (s : QCPDataContainer) : QCPDataContainer :=
  if minimumPreallocSize <=? mPreallocSize s then s
  else
    let newPreallocSize :=
      minimumPreallocSize + growthIncrement (mPreallocIteration s) in
    let sizeDifference := newPreallocSize - mPreallocSize s in
    let resized :=
      QVec.resize defaultConstructed (QVec.size (mData s) + sizeDifference)
                  (mData s) in
    let moved :=
      Std.copy_backward
        (Std.slice (items resized) (Z.to_nat (mPreallocSize s))
                   (length (items resized) - Z.to_nat sizeDifference))
        (items resized) (length (items resized)) in
    {| mAutoSqueeze := mAutoSqueeze s;
       mData := QVec.withItems moved resized;
       mPreallocSize := newPreallocSize;
       mPreallocIteration := mPreallocIteration s + 1 |}.

(** [performAutoSqueeze()].  The two comparisons against [usedSize*1.5] are
    made in [double]; both sides are integers below 2^33 (times one half), so
    they are exact and [x > usedSize*1.5] is [2*x > 3*usedSize].  The
    products [usedSize*5] and [mPreallocSize*10] are made in [int]. *)
Definition performAutoSqueeze (s : QCPDataContainer) : QCPDataContainer :=
  let totalAlloc := capacity (mData s) in
  let postAllocSize := totalAlloc - QVec.size (mData s) in
  let usedSize := size s in
  let shrinkPostAllocation :=
    if 650000 <? totalAlloc then 3 * usedSize <? 2 * postAllocSize
    else if 1000 <? totalAlloc then wrapInt (usedSize * 5) <? postAllocSize
    else false in
  let shrinkPreAllocation :=
    if 650000 <? totalAlloc then usedSize <? wrapInt (mPreallocSize s * 10)
    else if 1000 <? totalAlloc then 3 * usedSize <? 2 * mPreallocSize s
    else false in
  if shrinkPreAllocation || shrinkPostAllocation
  then squeeze shrinkPreAllocation shrinkPostAllocation s
  else s.

(** The tail of every removal: [if (mAutoSqueeze) performAutoSqueeze();]. *)
Definition autoSqueezeCheck (s : QCPDataContainer) : QCPDataContainer :=
  if mAutoSqueeze s then performAutoSqueeze s else s.

(** [setAutoSqueeze(enabled)] *)
Definition setAutoSqueeze (enabled : bool) (s : QCPDataContainer) :=
  if Bool.eqb (mAutoSqueeze s) enabled then s
  else
    let s1 := {| mAutoSqueeze := enabled; mData := mData s;
                 mPreallocSize := mPreallocSize s;
                 mPreallocIteration := mPreallocIteration s |} in
    if enabled then performAutoSqueeze s1 else s1.

(** [clear()] *)
Definition clear (s : QCPDataContainer) : QCPDataContainer :=
  {| mAutoSqueeze := mAutoSqueeze s; mData := QVec.clear (mData s);
     mPreallocSize := 0; mPreallocIteration := 0 |}.

(** [set(const QVector<DataType> &data, bool alreadySorted)] *)
Definition set (data : QVector DataType) (alreadySorted : bool)
  (s : QCPDataContainer) : QCPDataContainer :=
  let s1 := {| mAutoSqueeze := mAutoSqueeze s; mData := data;
               mPreallocSize := 0; mPreallocIteration := 0 |} in
  if negb alreadySorted then sort s1 else s1.

(** The prepend branch shared by the two bulk [add] overloads: grow the
    preallocation to [n] slots if needed, move [begin()] down by [n] and copy
    the new points there. *)
Definition prependRange (src : list DataType) (n : Z)
  (s : QCPDataContainer) : QCPDataContainer :=
  let s1 := if mPreallocSize s <? n then preallocateGrow n s else s in
  let s2 := setPreallocSize (mPreallocSize s1 - n) s1 in
  setItems (Std.copy src (items (mData s2)) (begin_ s2)) s2.

(** The start of the append branch: [mData.resize(mData.size()+n)] and
    [std::copy(..., end()-n)]. *)
Definition appendRange (src : list DataType) (n : Z)
  (s : QCPDataContainer) : QCPDataContainer :=
  let s1 :=
    setData (QVec.resize defaultConstructed (QVec.size (mData s) + n) (mData s))
            s in
  setItems (Std.copy src (items (mData s1)) (end_ s1 - Z.to_nat n)) s1.

(** The end of the append branch: merge the two runs when the last old key is
    not below the first new one. *)
Definition mergeAppended (oldSize n : Z)
  (s : QCPDataContainer) : QCPDataContainer :=
  if (0 <? oldSize)
     && negb (qcpLessThanSortKey (deref s (end_ s - Z.to_nat n - 1))
                                 (deref s (end_ s - Z.to_nat n)))
  then setItems (Std.inplace_merge qcpLessThanSortKey (items (mData s))
                   (begin_ s) (end_ s - Z.to_nat n) (end_ s)) s
  else s.

(** [add(const QCPDataContainer<DataType> &data)]; [data] is another
    container than this one, so that it is not changed by the call. *)
Definition add_container (data s : QCPDataContainer) : QCPDataContainer :=
  if isEmpty data then s
  else
    let n := size data in
    let oldSize := size s in
    if (0 <? oldSize)
       && negb (qcpLessThanSortKey (deref s (begin_ s))
                                   (deref data (end_ data - 1)))
    then prependRange (Std.slice (items (mData data)) (begin_ data) (end_ data))
                      n s
    else
      mergeAppended oldSize n
        (appendRange (Std.slice (items (mData data)) (begin_ data) (end_ data))
                     n s).

(** [set(const QCPDataContainer<DataType> &data)]: [clear(); add(data);] *)
Definition set_container (data s : QCPDataContainer) : QCPDataContainer :=
  add_container data (clear s).

(** [add(data)] where [data] is the container itself, [c.add(c)]: every
    read of [data] sees the container as the call has changed it so far.
    [n] and [oldSize] are both the size on entry.  In the prepend branch
    [data.constBegin()] is [begin()] after it was moved down by [n], so that
    the range from there to the end is copied onto itself.  In the other
    branch [data.constEnd()] is the end after the resize, and [std::copy]
    writes [n] elements past the end of the vector: no result. *)
Definition add_container_self (s : QCPDataContainer)
  : option QCPDataContainer :=
  if isEmpty s then Some s
  else
    let n := size s in
    let oldSize := size s in
    if (0 <? oldSize)
       && negb (qcpLessThanSortKey (deref s (begin_ s))
                                   (deref s (end_ s - 1)))
    then
      let s1 := if mPreallocSize s <? n then preallocateGrow n s else s in
      let s2 := setPreallocSize (mPreallocSize s1 - n) s1 in
      Some (setItems
              (Std.copy (Std.slice (items (mData s2)) (begin_ s2) (end_ s2))
                        (items (mData s2)) (begin_ s2)) s2)
    else None.

(** [set(data)] where [data] is the container itself, [c.set(c)]:
    [clear()] has emptied [data] when [add(data)] reads it. *)
Definition set_container_self (s : QCPDataContainer)
  : option QCPDataContainer :=
  add_container_self (clear s).

(** [add(const QVector<DataType> &data, bool alreadySorted)] *)
Definition add_vector (data : QVector DataType) (alreadySorted : bool)
  (s : QCPDataContainer) : QCPDataContainer :=
  if QVec.isEmpty data then s
  else if isEmpty s then set data alreadySorted s
  else
    let n := QVec.size data in
    let oldSize := size s in
    if alreadySorted && (0 <? oldSize)
       && negb (qcpLessThanSortKey
                  (deref s (begin_ s))
                  (nth (length (items data) - 1) (items data)
                       defaultConstructed))
    then prependRange (items data) n s
    else
      let s1 := appendRange (items data) n s in
      let s2 :=
        if negb alreadySorted
        then setItems (std_sort (items (mData s1)) (end_ s1 - Z.to_nat n)
                                (end_ s1)) s1
        else s1 in
      mergeAppended oldSize n s2.

(** [add(const DataType &data)] *)
Definition add (data : DataType) (s : QCPDataContainer) : QCPDataContainer :=
  if isEmpty s || negb (qcpLessThanSortKey data (deref s (end_ s - 1)))
  then setData (QVec.append data (mData s)) s
  else if qcpLessThanSortKey data (deref s (begin_ s))
  then
    let s1 := if mPreallocSize s <? 1 then preallocateGrow 1 s else s in
    let s2 := setPreallocSize (mPreallocSize s1 - 1) s1 in
    setData (QVec.assign (begin_ s2) data (mData s2)) s2
  else
    let insertionPoint :=
      Std.lower_bound qcpLessThanSortKey (items (mData s)) (begin_ s) (end_ s)
                      data in
    setData (QVec.insert insertionPoint data (mData s)) s.

(** [removeBefore(sortKey)] *)
Definition removeBefore (k : qreal) (s : QCPDataContainer) : QCPDataContainer :=
  let it := begin_ s in
  let itEnd :=
    Std.lower_bound qcpLessThanSortKey (items (mData s)) (begin_ s) (end_ s)
                    (fromSortKey k) in
  autoSqueezeCheck
    (setPreallocSize (mPreallocSize s + (Z.of_nat itEnd - Z.of_nat it)) s).

(** [removeAfter(sortKey)] *)
Definition removeAfter (k : qreal) (s : QCPDataContainer) : QCPDataContainer :=
  let it :=
    Std.upper_bound qcpLessThanSortKey (items (mData s)) (begin_ s) (end_ s)
                    (fromSortKey k) in
  let itEnd := end_ s in
  autoSqueezeCheck (setData (QVec.erase it itEnd (mData s)) s).

(** [remove(sortKeyFrom, sortKeyTo)]; the guard is
    [sortKeyFrom >= sortKeyTo || isEmpty()]. *)
Definition remove_range (sortKeyFrom sortKeyTo : qreal)
  (s : QCPDataContainer) : QCPDataContainer :=
  if qle sortKeyTo sortKeyFrom || isEmpty s then s
  else
    let it :=
      Std.lower_bound qcpLessThanSortKey (items (mData s)) (begin_ s) (end_ s)
                      (fromSortKey sortKeyFrom) in
    let itEnd :=
      Std.upper_bound qcpLessThanSortKey (items (mData s)) it (end_ s)
                      (fromSortKey sortKeyTo) in
    autoSqueezeCheck (setData (QVec.erase it itEnd (mData s)) s).

(** [remove(sortKey)]; the test on the point found is
    [it->sortKey() == sortKey]. *)
Definition remove (k : qreal) (s : QCPDataContainer) : QCPDataContainer :=
  let it :=
    Std.lower_bound qcpLessThanSortKey (items (mData s)) (begin_ s) (end_ s)
                    (fromSortKey k) in
  let s1 :=
    if negb (it =? end_ s)%nat && qeq (sortKey (deref s it)) k
    then
      if (it =? begin_ s)%nat
      then setPreallocSize (mPreallocSize s + 1) s
      else setData (QVec.erase it (S it) (mData s)) s
    else s in
  autoSqueezeCheck s1.

(** [findBegin(sortKey, expandedRange)] *)
Definition findBegin (k : qreal) (expandedRange : bool)
  (s : QCPDataContainer) : nat :=
  if isEmpty s then end_ s
  else
    let it :=
      Std.lower_bound qcpLessThanSortKey (items (mData s)) (begin_ s) (end_ s)
                      (fromSortKey k) in
    if expandedRange && negb (it =? begin_ s)%nat then (it - 1)%nat else it.

(** [findEnd(sortKey, expandedRange)] *)
Definition findEnd (k : qreal) (expandedRange : bool)
  (s : QCPDataContainer) : nat :=
  if isEmpty s then end_ s
  else
    let it :=
      Std.upper_bound qcpLessThanSortKey (items (mData s)) (begin_ s) (end_ s)
                      (fromSortKey k) in
    if expandedRange && negb (it =? end_ s)%nat then (it + 1)%nat else it.

(** *** The invariants of the data model *)

(** I3: the preallocation lies inside the buffer. *)
Definition wf (s : QCPDataContainer) : Prop :=
  0 <= mPreallocSize s <= QVec.size (mData s).

(** I1: the logical sequence is non-decreasing in the sort key: a point
    that comes before another one has a key [<=] the key of the other.  No
    NaN key is [<=] or [>=] another key, so that a sorted sequence with a
    NaN key has that one point only. *)
Definition KeySorted (l : list DataType) : Prop :=
  StronglySorted (fun a b => qle (sortKey a) (sortKey b) = true) l.

(** No point of the sequence has a NaN sort key. *)
Definition NoNaNKeys (l : list DataType) : Prop :=
  Forall (fun a => qIsNaN (sortKey a) = false) l.

Definition sortedStore (s : QCPDataContainer) : Prop :=
  wf s /\ KeySorted (live s).

(** *** The public mutating operations, as data *)
Inductive MutOp :=
| OpSetContainer (data : QCPDataContainer)
| OpSetVector (data : QVector DataType) (alreadySorted : bool)
| OpAddContainer (data : QCPDataContainer)
| OpAddVector (data : QVector DataType) (alreadySorted : bool)
| OpAddPoint (data : DataType)
| OpRemoveBefore (k : qreal)
| OpRemoveAfter (k : qreal)
| OpRemoveRange (sortKeyFrom sortKeyTo : qreal)
| OpRemoveKey (k : qreal)
| OpClear
| OpSort
| OpSqueeze (preAllocation postAllocation : bool)
| OpSetAutoSqueeze (enabled : bool).

Definition run (op : MutOp) (s : QCPDataContainer) : QCPDataContainer :=
  match op with
  | OpSetContainer data => set_container data s
  | OpSetVector data alreadySorted => set data alreadySorted s
  | OpAddContainer data => add_container data s
  | OpAddVector data alreadySorted => add_vector data alreadySorted s
  | OpAddPoint data => add data s
  | OpRemoveBefore k => removeBefore k s
  | OpRemoveAfter k => removeAfter k s
  | OpRemoveRange sortKeyFrom sortKeyTo => remove_range sortKeyFrom sortKeyTo s
  | OpRemoveKey k => remove k s
  | OpClear => clear s
  | OpSort => sort s
  | OpSqueeze preAllocation postAllocation =>
      squeeze preAllocation postAllocation s
  | OpSetAutoSqueeze enabled => setAutoSqueeze enabled s
  end.

(** What the operations need from the caller to keep the order: no sort key
    handed in is NaN, a container passed in (another container than the one
    operated on) is itself a sorted store, and a vector announced as
    [alreadySorted] is sorted.  The keys of the removals are free. *)
Definition callerContract (op : MutOp) : Prop :=
  match op with
  | OpSetContainer data | OpAddContainer data =>
      sortedStore data /\ NoNaNKeys (live data)
  | OpSetVector data alreadySorted | OpAddVector data alreadySorted =>
      NoNaNKeys (items data)
      /\ (alreadySorted = true -> KeySorted (items data))
  | OpAddPoint data => qIsNaN (sortKey data) = false
  | _ => True
  end.

(** *** Vocabulary of the specifications *)

(** The points of a sequence below, not below, not above and above a key,
    as [<] tells: [key < k], [!(key < k)], [!(k < key)], [k < key].  For
    keys that are numbers, not below [k] is [>= k] and not above [k] is
    [<= k]; nothing is below or above NaN, and a NaN key is neither below
    nor above anything. *)
Definition keysBelow (k : qreal) (l : list DataType) : list DataType :=
  filter (fun x => qlt (sortKey x) k) l.
Definition keysNotBelow (k : qreal) (l : list DataType) : list DataType :=
  filter (fun x => negb (qlt (sortKey x) k)) l.
Definition keysNotAbove (k : qreal) (l : list DataType) : list DataType :=
  filter (fun x => negb (qlt k (sortKey x))) l.
Definition keysAbove (k : qreal) (l : list DataType) : list DataType :=
  filter (fun x => qlt k (sortKey x)) l.


(** [Layout s pre l]: the buffer is the preallocation zone [pre] followed by
    the logical sequence [l]. *)
Definition Layout (s : QCPDataContainer) (pre l : list DataType) : Prop :=
  items (mData s) = pre ++ l /\ mPreallocSize s = Z.of_nat (length pre).


(** What [add(point)] makes of the logical sequence, path by path. *)
Definition add_result (p : DataType) (l : list DataType) : list DataType :=
  match l with
  | [] => [p]
  | first :: _ =>
      if negb (qlt (sortKey p)
                   (sortKey (nth (length l - 1) l defaultConstructed)))
      then l ++ [p]
      else if qlt (sortKey p) (sortKey first)
      then p :: l
      else keysBelow (sortKey p) l ++ p :: keysNotBelow (sortKey p) l
  end.


(** What the single key [remove] makes of the logical sequence: the first
    point not below the key is dropped when its key [==] the requested
    one. *)
Definition remove_result (k : qreal) (l : list DataType) : list DataType :=
  keysBelow k l
  ++ match keysNotBelow k l with
     | [] => []
     | x :: rest => if qeq (sortKey x) k then rest else x :: rest
     end.

(** [remove(sortKey)] before its auto squeeze. *)
Definition remove_core (k : qreal) (s : QCPDataContainer) : QCPDataContainer :=
  let it :=
    Std.lower_bound qcpLessThanSortKey (items (mData s)) (begin_ s) (end_ s)
                    (fromSortKey k) in
  if negb (it =? end_ s)%nat && qeq (sortKey (deref s it)) k
  then
    if (it =? begin_ s)%nat
    then setPreallocSize (mPreallocSize s + 1) s
    else setData (QVec.erase it (S it) (mData s)) s
  else s.


(** The growth schedule in the words of the specification: it doubles from a
    floor of 16 up to a ceiling of 32768-12, clamped. *)
Definition spec_schedule (growthIteration : Z) : Z :=
  Z.min (32768 - 12) (16 * 2 ^ growthIteration).

End Container.
(** ** Key and value ranges of the stored points

    [keyRange] and [valueRange] read the display coordinates of the points.
    These are [double]s that may be NaN (a NaN value marks a gap in the data);
    the code tests them for NaN and compares them with [<] and [>]. *)

(** [QCPRange]: a lower and an upper bound.  Its declaration is not part of
    the sources at hand; the default constructed range has both bounds zero,
    as the documentation of [valueRange] says. *)
Record QCPRange := { lower : qreal; upper : qreal }.

Definition defaultRange : QCPRange := {| lower := Num 0; upper := Num 0 |}.

(** [a != b] on ranges: some bound is not equal. *)
Definition rangeDiffers (a b : QCPRange) : bool :=
  negb (qeq (lower a) (lower b) && qeq (upper a) (upper b)).

(** [QCP::SignDomain] *)
Inductive SignDomain := sdNegative | sdBoth | sdPositive.

(** The remaining requirements of the class documentation on [DataType]:
    the main key, the main value, the value range of a point, and whether the
    sort key is the main key. *)
Class QCPPlotDataType (DataType : Type) `{QCPDataType DataType} := {
  sortKeyIsMainKey : bool;
  mainKey : DataType -> qreal;
  mainValue : DataType -> qreal;
  pointValueRange : DataType -> QCPRange;
  sortKeyIsMainKey_spec :
    sortKeyIsMainKey = true -> forall p, mainKey p = sortKey p
}.

Section Ranges.
Context {DataType : Type} {DT : QCPDataType DataType}.
Context {PT : @QCPPlotDataType DataType DT}.
Context {alloc : QVectorAlloc}.

(** The local variables of the two searches: [range], [haveLower],
    [haveUpper]. *)
Record RangeSearch := {
  range : QCPRange;
  haveLower : bool;
  haveUpper : bool
}.

Definition searchStart : RangeSearch :=
  {| range := defaultRange; haveLower := false; haveUpper := false |}.

(** [range.lower = current; haveLower = true;] *)
Definition setLower (current : qreal) (acc : RangeSearch) : RangeSearch :=
  {| range := {| lower := current; upper := upper (range acc) |};
     haveLower := true; haveUpper := haveUpper acc |}.

(** [range.upper = current; haveUpper = true;] *)
Definition setUpper (current : qreal) (acc : RangeSearch) : RangeSearch :=
  {| range := {| lower := lower (range acc); upper := current |};
     haveLower := haveLower acc; haveUpper := true |}.

(** The test on the sign of a coordinate that the loops of a sign domain
    add: none for [sdBoth], [current < 0], [current > 0]. *)
Definition inSignDomain (signDomain : SignDomain) (current : qreal) : bool :=
  match signDomain with
  | sdBoth => true
  | sdNegative => qlt current (Num 0)
  | sdPositive => qlt (Num 0) current
  end.

(** The body of the loops of [keyRange] that visit every point. *)
Definition keyStep (signDomain : SignDomain) (acc : RangeSearch)
  (p : DataType) : RangeSearch :=
  if negb (qIsNaN (mainValue p)) then
    let current := mainKey p in
    let acc1 :=
      if (qlt current (lower (range acc)) || negb (haveLower acc))
         && inSignDomain signDomain current
      then setLower current acc else acc in
    if (qlt (upper (range acc1)) current || negb (haveUpper acc1))
       && inSignDomain signDomain current
    then setUpper current acc1 else acc1
  else acc.

(** The first loop of the fast path: the first point from the left whose
    main value is not NaN gives the lower bound. *)
Fixpoint firstValid (l : list DataType) (acc : RangeSearch) : RangeSearch :=
  match l with
  | [] => acc
  | p :: l' =>
      if negb (qIsNaN (mainValue p)) then setLower (mainKey p) acc
      else firstValid l' acc
  end.

(** The second loop of the fast path, from the right; [rl] is the sequence
    in the order visited. *)
Fixpoint lastValid (rl : list DataType) (acc : RangeSearch) : RangeSearch :=
  match rl with
  | [] => acc
  | p :: rl' =>
      if negb (qIsNaN (mainValue p)) then setUpper (mainKey p) acc
      else lastValid rl' acc
  end.

(** [keyRange(foundRange, signDomain)]: the pair of [foundRange] and the
    range returned. *)
Definition keyRange (signDomain : SignDomain)
  (s : QCPDataContainer) : bool * QCPRange :=
  if isEmpty s then (false, defaultRange)
  else
    let acc :=
      match signDomain with
      | sdBoth =>
          if sortKeyIsMainKey
          then lastValid (rev (live s)) (firstValid (live s) searchStart)
          else fold_left (keyStep sdBoth) (live s) searchStart
      | sdNegative => fold_left (keyStep sdNegative) (live s) searchStart
      | sdPositive => fold_left (keyStep sdPositive) (live s) searchStart
      end in
    (haveLower acc && haveUpper acc, range acc).

(** The body of the loops of [valueRange]. *)
Definition valueStep (signDomain : SignDomain) (restrictKeyRange : bool)
  (inKeyRange : QCPRange) (acc : RangeSearch) (p : DataType) : RangeSearch :=
  if restrictKeyRange
     && (qlt (mainKey p) (lower inKeyRange)
         || qlt (upper inKeyRange) (mainKey p))
  then acc
  else
    let current := pointValueRange p in
    let acc1 :=
      if (qlt (lower current) (lower (range acc)) || negb (haveLower acc))
         && inSignDomain signDomain (lower current)
         && negb (qIsNaN (lower current))
      then setLower (lower current) acc else acc in
    if (qlt (upper (range acc1)) (upper current) || negb (haveUpper acc1))
       && inSignDomain signDomain (upper current)
       && negb (qIsNaN (upper current))
    then setUpper (upper current) acc1 else acc1.

(** [valueRange(foundRange, signDomain, inKeyRange)].  The loops run from
    [itBegin] up to [itEnd]; the model visits the positions between them,
    none when [itEnd] is before [itBegin], where the code runs off the
    vector. *)
Definition valueRange (signDomain : SignDomain) (inKeyRange : QCPRange)
  (s : QCPDataContainer) : bool * QCPRange :=
  if isEmpty s then (false, defaultRange)
  else
    let restrictKeyRange := rangeDiffers inKeyRange defaultRange in
    let itBegin :=
      if sortKeyIsMainKey && restrictKeyRange
      then findBegin (lower inKeyRange) false s else begin_ s in
    let itEnd :=
      if sortKeyIsMainKey && restrictKeyRange
      then findEnd (upper inKeyRange) false s else end_ s in
    let acc :=
      fold_left (valueStep signDomain restrictKeyRange inKeyRange)
                (Std.slice (items (mData s)) itBegin itEnd) searchStart in
    (haveLower acc && haveUpper acc, range acc).

(** [valueRange] without the narrowing of the visited positions by
    [findBegin] and [findEnd]: every live point is visited. *)
Definition valueRangeScan (signDomain : SignDomain) (inKeyRange : QCPRange)
  (l : list DataType) : bool * QCPRange :=
  let acc :=
    fold_left (valueStep signDomain (rangeDiffers inKeyRange defaultRange)
                         inKeyRange) l searchStart in
  (haveLower acc && haveUpper acc, range acc).

(** A point counts for [keyRange]: its main value is not NaN and its main
    key lies in the sign domain. *)
Definition countsForKeyRange (signDomain : SignDomain) (p : DataType) : bool :=
  negb (qIsNaN (mainValue p)) && inSignDomain signDomain (mainKey p).

(** A point lies in the key window of [valueRange]. *)
Definition inKeyWindow (inKeyRange : QCPRange) (p : DataType) : bool :=
  negb (rangeDiffers inKeyRange defaultRange
        && (qlt (mainKey p) (lower inKeyRange)
            || qlt (upper inKeyRange) (mainKey p))).

(** A bound of a value range counts for [valueRange]. *)
Definition boundCounts (signDomain : SignDomain) (c : qreal) : bool :=
  inSignDomain signDomain c && negb (qIsNaN c).
End Ranges.


(** ** QCPAbstractPlottable1D: the data interface of a plottable

    The methods of the 1D data interface forward to the data container the
    plottable holds; they are modelled as functions of that container.  An
    index out of bounds is answered with zero (and a diagnostic on the debug
    stream, which is not modelled). *)
Module Plottable1D.
Section Interface.
Context {DataType : Type} {DT : QCPDataType DataType}.
Context {PT : @QCPPlotDataType DataType DT}.
Context {alloc : QVectorAlloc}.

(** [dataCount()] *)
Definition dataCount (mDataContainer : @QCPDataContainer DataType) : Z :=
  size mDataContainer.

(** [dataMainKey(index)] *)
Definition dataMainKey (index : Z)
  (mDataContainer : @QCPDataContainer DataType) : qreal :=
  if (0 <=? index) && (index <? size mDataContainer)
  then mainKey (deref mDataContainer
                      (begin_ mDataContainer + Z.to_nat index))
  else Num 0.

(** [dataSortKey(index)] *)
Definition dataSortKey (index : Z)
  (mDataContainer : @QCPDataContainer DataType) : qreal :=
  if (0 <=? index) && (index <? size mDataContainer)
  then sortKey (deref mDataContainer
                      (begin_ mDataContainer + Z.to_nat index))
  else Num 0.

(** [dataMainValue(index)] *)
Definition dataMainValue (index : Z)
  (mDataContainer : @QCPDataContainer DataType) : qreal :=
  if (0 <=? index) && (index <? size mDataContainer)
  then mainValue (deref mDataContainer
                        (begin_ mDataContainer + Z.to_nat index))
  else Num 0.

(** [dataValueRange(index)] *)
Definition dataValueRange (index : Z)
  (mDataContainer : @QCPDataContainer DataType) : QCPRange :=
  if (0 <=? index) && (index <? size mDataContainer)
  then pointValueRange (deref mDataContainer
                              (begin_ mDataContainer + Z.to_nat index))
  else {| lower := Num 0; upper := Num 0 |}.

(** [findBegin(sortKey, expandedRange)]:
    [mDataContainer->findBegin(...)-mDataContainer->constBegin()]. *)
Definition findBegin (k : qreal) (expandedRange : bool)
  (mDataContainer : @QCPDataContainer DataType) : Z :=
  Z.of_nat (findBegin k expandedRange mDataContainer)
  - Z.of_nat (begin_ mDataContainer).

(** [findEnd(sortKey, expandedRange)] *)
Definition findEnd (k : qreal) (expandedRange : bool)
  (mDataContainer : @QCPDataContainer DataType) : Z :=
  Z.of_nat (findEnd k expandedRange mDataContainer)
  - Z.of_nat (begin_ mDataContainer).
End Interface.

(** *** drawPolyline

    The painter is modelled by the calls it receives.  [QPointF] and the
    tests [qIsNaN] and [qIsInf] on its coordinates belong to Qt: the point
    type and the three tests the code makes are parameters.  So is the
    condition on the plotting hints and the painter under which the fast
    line drawing is used. *)
Section Polyline.
Variable QPointF : Type.
Variable xIsNaN yIsNaN yIsInf : QPointF -> bool.

Inductive PainterCall :=
| DrawLine (p1 p2 : QPointF)
| DrawPolyline (points : list QPointF).

(** The first loop of the fast branch: [i] is moved past the leading NaN
    points; the result is what is left from position [i] on. *)
Fixpoint skipLeadingNaN (lineData : list QPointF) : list QPointF :=
  match lineData with
  | [] => []
  | p :: rest =>
      if yIsNaN p || xIsNaN p then skipLeadingNaN rest else lineData
  end.

(** The second loop of the fast branch: [previous] is [lineData.at(i-1)],
    [rest] the points from position [i] on. *)
Fixpoint fastLines (previous : QPointF) (lastIsNan : bool)
  (rest : list QPointF) : list PainterCall :=
  match rest with
  | [] => []
  | p :: rest' =>
      if negb (yIsNaN p) && negb (xIsNaN p) then
        if negb lastIsNan
        then DrawLine previous p :: fastLines p false rest'
        else fastLines p false rest'
      else fastLines p true rest'
  end.

(** The loop of the other branch: [rest] is the points from position [i]
    on; every point that is NaN or has an infinite [y] ends a segment. *)
Fixpoint polylineSegments (lineData : list QPointF) (segmentStart i : nat)
  (rest : list QPointF) : list PainterCall :=
  match rest with
  | [] => [DrawPolyline (Std.slice lineData segmentStart (length lineData))]
  | p :: rest' =>
      if yIsNaN p || xIsNaN p || yIsInf p
      then DrawPolyline (Std.slice lineData segmentStart i)
             :: polylineSegments lineData (i + 1) (i + 1) rest'
      else polylineSegments lineData segmentStart (i + 1) rest'
  end.

(** [drawPolyline(painter, lineData)] *)
Definition drawPolyline (fastPolylines : bool)
  (lineData : list QPointF) : list PainterCall :=
  if fastPolylines then
    match skipLeadingNaN lineData with
    | [] => []
    | p :: rest => fastLines p false rest
    end
  else polylineSegments lineData 0 0 lineData.

(** A point that makes a gap in the line. *)
Definition isGap (p : QPointF) : bool := yIsNaN p || xIsNaN p || yIsInf p.

Definition pointIsNaN (p : QPointF) : bool := yIsNaN p || xIsNaN p.

(** The pairs of neighbouring points of a line. *)
Definition neighbours (lineData : list QPointF) : list (QPointF * QPointF) :=
  combine lineData (tl lineData).

(** The points a call hands to the painter. *)
Definition pointsOf (c : PainterCall) : list QPointF :=
  match c with
  | DrawLine p1 p2 => [p1; p2]
  | DrawPolyline points => points
  end.
End Polyline.
End Plottable1D.

(** * Verification *)

(** ** Lists: prefixes and suffixes at a known length *)
Section ListFacts.
Variable A : Type.
Implicit Types l pre post : list A.

Lemma skipn_length_app pre l : skipn (length pre) (pre ++ l) = l.
Proof.
  induction pre as [|a pre IH]; simpl; auto.
Qed.

Lemma firstn_length_app pre l : firstn (length pre) (pre ++ l) = pre.
Proof.
  induction pre as [|a pre IH]; simpl; [now destruct l | now rewrite IH].
Qed.

Lemma skipn_length_plus_app pre l n :
  skipn (length pre + n) (pre ++ l) = skipn n l.
Proof.
  induction pre as [|a pre IH]; simpl; auto.
Qed.

Lemma firstn_length_plus_app pre l n :
  firstn (length pre + n) (pre ++ l) = pre ++ firstn n l.
Proof.
  induction pre as [|a pre IH]; simpl; [auto | now rewrite IH].
Qed.

Lemma nth_error_length_plus_app pre l n :
  nth_error (pre ++ l) (length pre + n) = nth_error l n.
Proof.
  induction pre as [|a pre IH]; simpl; auto.
Qed.

Lemma nth_length_plus_app pre l n d :
  nth (length pre + n) (pre ++ l) d = nth n l d.
Proof.
  induction pre as [|a pre IH]; simpl; auto.
Qed.

Lemma slice_within pre l post :
  Std.slice (pre ++ l ++ post) (length pre) (length pre + length l) = l.
Proof.
  unfold Std.slice.
  rewrite skipn_length_app.
  replace (length pre + length l - length pre)%nat with (length l) by lia.
  apply firstn_length_app.
Qed.

Lemma slice_suffix pre l :
  Std.slice (pre ++ l) (length pre) (length pre + length l) = l.
Proof.
  rewrite <- (app_nil_r l) at 1.
  apply slice_within.
Qed.

Lemma copy_within pre l post src :
  length src = length l ->
  Std.copy src (pre ++ l ++ post) (length pre) = pre ++ src ++ post.
Proof.
  intros Hlen. unfold Std.copy.
  rewrite firstn_length_app, Hlen, skipn_length_plus_app, skipn_length_app.
  reflexivity.
Qed.

Lemma filter_all (P : A -> bool) l :
  Forall (fun x => P x = true) l -> filter P l = l.
Proof.
  induction 1 as [|a l Ha _ IH]; simpl; [auto | now rewrite Ha, IH].
Qed.

Lemma filter_none (P : A -> bool) l :
  Forall (fun x => P x = false) l -> filter P l = [].
Proof.
  induction 1 as [|a l Ha _ IH]; simpl; [auto | now rewrite Ha].
Qed.

Lemma Forall_filter_true (P : A -> bool) l :
  Forall (fun x => P x = true) (filter P l).
Proof.
  induction l as [|a l IH]; simpl; [constructor|].
  destruct (P a) eqn:E; auto.
Qed.
End ListFacts.

(** ** The bisection loops find the partition point *)
Section Bisection.
Variable A : Type.
Variable comp : A -> A -> bool.

Lemma lower_bound_loop_spec fuel : forall v first len val b,
  (len <= fuel)%nat -> (first + len <= length v)%nat ->
  (first <= b <= first + len)%nat ->
  (forall i x, (first <= i < b)%nat -> nth_error v i = Some x ->
               comp x val = true) ->
  (forall i x, (b <= i < first + len)%nat -> nth_error v i = Some x ->
               comp x val = false) ->
  Std.lower_bound_loop comp fuel v first len val = b.
Proof.
  induction fuel as [|fuel IH]; intros v first len val b Hf Hv Hb Hlo Hhi;
    cbn [Std.lower_bound_loop].
  - lia.
  - destruct (Nat.eqb_spec len 0) as [->|Hlen]; [lia|].
    assert (Hhalf : (len / 2 < len)%nat) by (apply Nat.div_lt; lia).
    destruct (nth_error v (first + len / 2)) as [m|] eqn:Em.
    + destruct (comp m val) eqn:Ec.
      * assert (first + len / 2 < b)%nat.
        { destruct (Nat.lt_ge_cases (first + len / 2) b) as [?|Hge]; auto.
          rewrite (Hhi (first + len / 2)%nat m) in Ec;
            [discriminate|lia|auto]. }
        apply IH; try lia; intros i x Hi Hx; [apply (Hlo i) | apply (Hhi i)];
          auto; lia.
      * assert (b <= first + len / 2)%nat.
        { destruct (Nat.lt_ge_cases (first + len / 2) b) as [Hlt|?]; auto.
          rewrite (Hlo (first + len / 2)%nat m) in Ec;
            [discriminate|lia|auto]. }
        apply IH; try lia; intros i x Hi Hx; [apply (Hlo i) | apply (Hhi i)];
          auto; lia.
    + apply nth_error_None in Em. lia.
Qed.

Lemma upper_bound_loop_spec fuel : forall v first len val b,
  (len <= fuel)%nat -> (first + len <= length v)%nat ->
  (first <= b <= first + len)%nat ->
  (forall i x, (first <= i < b)%nat -> nth_error v i = Some x ->
               comp val x = false) ->
  (forall i x, (b <= i < first + len)%nat -> nth_error v i = Some x ->
               comp val x = true) ->
  Std.upper_bound_loop comp fuel v first len val = b.
Proof.
  induction fuel as [|fuel IH]; intros v first len val b Hf Hv Hb Hlo Hhi;
    cbn [Std.upper_bound_loop].
  - lia.
  - destruct (Nat.eqb_spec len 0) as [->|Hlen]; [lia|].
    assert (Hhalf : (len / 2 < len)%nat) by (apply Nat.div_lt; lia).
    destruct (nth_error v (first + len / 2)) as [m|] eqn:Em.
    + destruct (comp val m) eqn:Ec.
      * assert (b <= first + len / 2)%nat.
        { destruct (Nat.lt_ge_cases (first + len / 2) b) as [Hlt|?]; auto.
          rewrite (Hlo (first + len / 2)%nat m) in Ec;
            [discriminate|lia|auto]. }
        apply IH; try lia; intros i x Hi Hx; [apply (Hlo i) | apply (Hhi i)];
          auto; lia.
      * assert (first + len / 2 < b)%nat.
        { destruct (Nat.lt_ge_cases (first + len / 2) b) as [?|Hge]; auto.
          rewrite (Hhi (first + len / 2)%nat m) in Ec;
            [discriminate|lia|auto]. }
        apply IH; try lia; intros i x Hi Hx; [apply (Hlo i) | apply (Hhi i)];
          auto; lia.
    + apply nth_error_None in Em. lia.
Qed.

(** On a buffer [pre ++ l1 ++ l2 ++ post] whose range [l1 ++ l2] is
    partitioned by the comparison, the search returns the boundary. *)
Lemma nth_error_Forall_app (P : A -> Prop) pre (l1 rest : list A) i x :
  Forall P l1 ->
  (length pre <= i < length pre + length l1)%nat ->
  nth_error (pre ++ l1 ++ rest) i = Some x -> P x.
Proof.
  intros Hall Hi Hx.
  replace i with (length pre + (i - length pre))%nat in Hx by lia.
  rewrite nth_error_length_plus_app, nth_error_app1 in Hx by lia.
  rewrite Forall_forall in Hall. apply Hall. eapply nth_error_In; eauto.
Qed.

Lemma lower_bound_partitioned pre l1 l2 post val :
  Forall (fun x => comp x val = true) l1 ->
  Forall (fun x => comp x val = false) l2 ->
  Std.lower_bound comp (pre ++ l1 ++ l2 ++ post) (length pre)
                  (length pre + (length l1 + length l2)) val
  = (length pre + length l1)%nat.
Proof.
  intros H1 H2. unfold Std.lower_bound.
  apply lower_bound_loop_spec; try lia.
  - rewrite !length_app. lia.
  - intros i x Hi Hx.
    eapply nth_error_Forall_app with (P := fun y => comp y val = true);
      [exact H1 | | exact Hx]. lia.
  - intros i x Hi Hx.
    rewrite (app_assoc pre l1) in Hx.
    eapply nth_error_Forall_app with (P := fun y => comp y val = false);
      [exact H2 | | exact Hx].
    rewrite length_app. lia.
Qed.

Lemma upper_bound_partitioned pre l1 l2 post val :
  Forall (fun x => comp val x = false) l1 ->
  Forall (fun x => comp val x = true) l2 ->
  Std.upper_bound comp (pre ++ l1 ++ l2 ++ post) (length pre)
                  (length pre + (length l1 + length l2)) val
  = (length pre + length l1)%nat.
Proof.
  intros H1 H2. unfold Std.upper_bound.
  apply upper_bound_loop_spec; try lia.
  - rewrite !length_app. lia.
  - intros i x Hi Hx.
    eapply nth_error_Forall_app with (P := fun y => comp val y = false);
      [exact H1 | | exact Hx]. lia.
  - intros i x Hi Hx.
    rewrite (app_assoc pre l1) in Hx.
    eapply nth_error_Forall_app with (P := fun y => comp val y = true);
      [exact H2 | | exact Hx].
    rewrite length_app. lia.
Qed.
End Bisection.

(** ** The stable merge and the insertion sort *)
Section MergeFacts.
Variable A : Type.
Variable comp : A -> A -> bool.

Lemma merge_nil_l (l2 : list A) : Std.merge comp [] l2 = l2.
Proof. destruct l2; reflexivity. Qed.

Lemma merge_nil_r (l1 : list A) : Std.merge comp l1 [] = l1.
Proof. destruct l1; reflexivity. Qed.

Lemma merge_cons_cons a1 l1 a2 l2 :
  Std.merge comp (a1 :: l1) (a2 :: l2)
  = if comp a2 a1 then a2 :: Std.merge comp (a1 :: l1) l2
    else a1 :: Std.merge comp l1 (a2 :: l2).
Proof. reflexivity. Qed.

Lemma merge_perm : forall l1 l2,
  Permutation (l1 ++ l2) (Std.merge comp l1 l2).
Proof.
  induction l1 as [|a1 l1 IH1]; intros l2.
  - rewrite merge_nil_l. reflexivity.
  - induction l2 as [|a2 l2 IH2].
    + rewrite merge_nil_r, app_nil_r. reflexivity.
    + rewrite merge_cons_cons. destruct (comp a2 a1).
      * rewrite <- IH2. symmetry. apply Permutation_middle.
      * simpl. constructor. apply IH1.
Qed.

Lemma insert_sorted_perm x : forall l,
  Permutation (x :: l) (Std.insert_sorted comp x l).
Proof.
  induction l as [|y l IH]; simpl; [reflexivity|].
  destruct (comp x y); [reflexivity|].
  rewrite perm_swap. constructor. exact IH.
Qed.

Lemma insertion_sort_perm : forall l,
  Permutation l (Std.insertion_sort comp l).
Proof.
  induction l as [|x l IH]; simpl; [constructor|].
  rewrite <- insert_sorted_perm. constructor. exact IH.
Qed.
End MergeFacts.

(** ** Comparisons of doubles

    [qcases] splits every double that a comparison looks at into NaN and a
    number; [qlia] closes a goal on comparisons of doubles by arithmetic. *)
Ltac qcases :=
  repeat (cbv beta iota in *;
          match goal with
          | H : context [match ?x with NaN => _ | Num _ => _ end] |- _ =>
              destruct x eqn:?
          | |- context [match ?x with NaN => _ | Num _ => _ end] =>
              destruct x eqn:?
          end);
  cbv beta iota in *.

Ltac qlia :=
  unfold qcpLessThanSortKey, qlt, qle, qeq, qIsNaN in *; qcases;
  try discriminate; try congruence; try lia.

(** ** Sequences ordered by sort key *)
Section KeyOrder.
Context {DataType : Type} {DT : QCPDataType DataType}.
Implicit Types l : list DataType.

Lemma KeySorted_nil : KeySorted (@nil DataType).
Proof. constructor. Qed.

Lemma KeySorted_cons a l :
  KeySorted (a :: l)
  <-> KeySorted l /\ Forall (fun b => qle (sortKey a) (sortKey b) = true) l.
Proof.
  split.
  - intros H. inversion H; subst. auto.
  - intros [H1 H2]. constructor; auto.
Qed.

Lemma KeySorted_app l1 l2 :
  KeySorted (l1 ++ l2)
  <-> KeySorted l1 /\ KeySorted l2
      /\ (forall a b, In a l1 -> In b l2 ->
                      qle (sortKey a) (sortKey b) = true).
Proof.
  induction l1 as [|x l1 IH]; simpl.
  - split; [intros H; repeat split; auto using KeySorted_nil; tauto|tauto].
  - rewrite !KeySorted_cons, IH, Forall_app, !Forall_forall.
    split.
    + intros [(H1 & H2 & H3) [H4 H5]]. repeat split; auto.
      intros a b [<-|Ha] Hb; auto.
    + intros ([H1 H2] & H3 & H4). repeat split; auto.
Qed.

Lemma KeySorted_keys l :
  KeySorted l
  <-> StronglySorted (fun a b => qle a b = true) (map sortKey l).
Proof.
  induction l as [|a l IH]; simpl.
  - split; constructor.
  - rewrite KeySorted_cons, IH. split.
    + intros [H1 H2]. constructor; auto.
      apply Forall_map. exact H2.
    + intros H. inversion H as [|? ? S F]; subst. split; auto.
      apply Forall_map in F. exact F.
Qed.

(** *** Sequences without NaN keys *)
Lemma NoNaNKeys_perm l1 l2 :
  Permutation l1 l2 -> NoNaNKeys l1 -> NoNaNKeys l2.
Proof. intros HP. apply Permutation_Forall. exact HP. Qed.

Lemma NoNaNKeys_app l1 l2 :
  NoNaNKeys (l1 ++ l2) <-> NoNaNKeys l1 /\ NoNaNKeys l2.
Proof. apply Forall_app. Qed.

Lemma NoNaNKeys_filter (P : DataType -> bool) l :
  NoNaNKeys l -> NoNaNKeys (filter P l).
Proof.
  unfold NoNaNKeys. rewrite !Forall_forall. intros H x Hx.
  apply filter_In in Hx. apply H. tauto.
Qed.

(** A sorted sequence has no NaN key, or it is a single point. *)
Lemma KeySorted_cases l :
  KeySorted l -> NoNaNKeys l \/ exists x, l = [x].
Proof.
  intros S. destruct l as [|x [|y l]].
  - left. constructor.
  - right. now exists x.
  - left. apply KeySorted_cons in S. destruct S as [_ F].
    assert (Hall : Forall (fun b => qIsNaN (sortKey b) = false) (y :: l)).
    { eapply Forall_impl; [|exact F]. cbv beta. intros b Hb. qlia. }
    constructor; [|exact Hall].
    inversion F; subst. qlia.
Qed.

(** A sorted sequence is its points below a key followed by the others;
    this holds for a NaN key, below which there is nothing, too. *)
Lemma KeySorted_split_below k l :
  KeySorted l -> l = keysBelow k l ++ keysNotBelow k l.
Proof.
  unfold keysBelow, keysNotBelow.
  induction l as [|a l IH]; intros H; [reflexivity|].
  apply KeySorted_cons in H. destruct H as [Hl Ha]. simpl.
  destruct (qlt (sortKey a) k) eqn:E; simpl.
  - f_equal. auto.
  - rewrite filter_none, filter_all; auto.
    + eapply Forall_impl; [|exact Ha]. cbv beta. intros b Hb. qlia.
    + eapply Forall_impl; [|exact Ha]. cbv beta. intros b Hb. qlia.
Qed.

Lemma KeySorted_split_above k l :
  KeySorted l -> l = keysNotAbove k l ++ keysAbove k l.
Proof.
  unfold keysNotAbove, keysAbove.
  induction l as [|a l IH]; intros H; [reflexivity|].
  apply KeySorted_cons in H. destruct H as [Hl Ha]. simpl.
  destruct (qlt k (sortKey a)) eqn:E; simpl.
  - rewrite filter_none, filter_all; auto.
    + eapply Forall_impl; [|exact Ha]. cbv beta. intros b Hb. qlia.
    + eapply Forall_impl; [|exact Ha]. cbv beta. intros b Hb. qlia.
  - f_equal. auto.
Qed.

Lemma KeySorted_filter (P : DataType -> bool) l :
  KeySorted l -> KeySorted (filter P l).
Proof.
  induction l as [|a l IH]; intros H; simpl; [constructor|].
  apply KeySorted_cons in H. destruct H as [Hl Ha].
  destruct (P a); auto.
  apply KeySorted_cons. split; auto.
  rewrite Forall_forall in *. intros b Hb.
  apply filter_In in Hb. apply Ha. tauto.
Qed.

(** Two sorted arrangements of the same points carry the same key sequence. *)
Lemma sorted_keys_unique : forall (k1 k2 : list qreal),
  StronglySorted (fun a b => qle a b = true) k1 ->
  StronglySorted (fun a b => qle a b = true) k2 ->
  Permutation k1 k2 -> k1 = k2.
Proof.
  induction k1 as [|a k1 IH]; intros k2 H1 H2 HP.
  - apply Permutation_nil in HP. auto.
  - destruct k2 as [|b k2].
    + apply Permutation_sym, Permutation_nil in HP. discriminate.
    + inversion H1 as [|? ? S1 F1]; inversion H2 as [|? ? S2 F2]; subst.
      assert (a = b).
      { assert (In a (b :: k2)) as Ia
          by (eapply Permutation_in; [exact HP | left; auto]).
        assert (In b (a :: k1)) as Ib
          by (eapply Permutation_in;
              [apply Permutation_sym; exact HP | left; auto]).
        rewrite Forall_forall in F1, F2.
        destruct Ia as [->|Ia]; auto.
        destruct Ib as [->|Ib]; auto.
        specialize (F1 _ Ib). specialize (F2 _ Ia).
        destruct a, b; try discriminate. f_equal. qlia. }
      subst b. f_equal. apply IH; auto.
      eapply Permutation_cons_inv; eauto.
Qed.

Lemma KeySorted_perm_keys l1 l2 :
  KeySorted l1 -> KeySorted l2 -> Permutation l1 l2 ->
  map sortKey l1 = map sortKey l2.
Proof.
  intros H1 H2 HP. apply sorted_keys_unique.
  - now apply KeySorted_keys.
  - now apply KeySorted_keys.
  - now apply Permutation_map.
Qed.

(** The merge of two sorted runs without NaN keys is sorted. *)
Lemma merge_KeySorted : forall l1 l2,
  KeySorted l1 -> KeySorted l2 -> NoNaNKeys l1 -> NoNaNKeys l2 ->
  KeySorted (Std.merge qcpLessThanSortKey l1 l2).
Proof.
  induction l1 as [|a1 l1 IH1]; intros l2 H1 H2 N1 N2.
  - now rewrite merge_nil_l.
  - induction l2 as [|a2 l2 IH2].
    + now rewrite merge_nil_r.
    + rewrite merge_cons_cons.
      pose proof H1 as H1'. pose proof H2 as H2'.
      apply KeySorted_cons in H1'. apply KeySorted_cons in H2'.
      destruct H1' as [S1 F1], H2' as [S2 F2].
      inversion N1 as [|? ? Na1 N1']; inversion N2 as [|? ? Na2 N2']; subst.
      destruct (qcpLessThanSortKey a2 a1) eqn:E.
      * apply KeySorted_cons. split; [auto|].
        eapply Permutation_Forall; [apply merge_perm|].
        apply Forall_app. split; auto.
        constructor; [qlia|].
        eapply Forall_impl; [|exact F1]. cbv beta. intros b Hb. qlia.
      * apply KeySorted_cons. split; [auto|].
        eapply Permutation_Forall; [apply merge_perm|].
        apply Forall_app. split; auto.
        constructor; [qlia|].
        eapply Forall_impl; [|exact F2]. cbv beta. intros b Hb. qlia.
Qed.

Lemma insert_sorted_KeySorted x : forall l,
  qIsNaN (sortKey x) = false -> KeySorted l -> NoNaNKeys l ->
  KeySorted (Std.insert_sorted qcpLessThanSortKey x l).
Proof.
  induction l as [|y l IH]; intros Hx H N; simpl.
  - repeat constructor.
  - pose proof H as H'. apply KeySorted_cons in H'. destruct H' as [S F].
    inversion N as [|? ? Ny N']; subst.
    destruct (qcpLessThanSortKey x y) eqn:E.
    + apply KeySorted_cons. split; auto.
      constructor; [qlia|].
      eapply Forall_impl; [|exact F]. cbv beta. intros b Hb. qlia.
    + apply KeySorted_cons. split; auto.
      eapply Permutation_Forall; [apply insert_sorted_perm|].
      constructor; [qlia|auto].
Qed.

Lemma insertion_sort_KeySorted : forall l,
  NoNaNKeys l -> KeySorted (Std.insertion_sort qcpLessThanSortKey l).
Proof.
  induction l as [|x l IH]; intros N; simpl; [constructor|].
  inversion N as [|? ? Nx N']; subst.
  apply insert_sorted_KeySorted; auto.
  eapply NoNaNKeys_perm; [apply insertion_sort_perm|exact N'].
Qed.

(** Insertion sort meets the contract of [std::sort]. *)
Definition insertionSorter : @StdSort DataType DT :=
  {| sort_range := Std.insertion_sort qcpLessThanSortKey;
     sort_range_perm := insertion_sort_perm qcpLessThanSortKey;
     sort_range_sorted := insertion_sort_KeySorted |}.
End KeyOrder.

(** ** The layout of the buffer *)
Section ContainerFacts.
Context {DataType : Type} {DT : QCPDataType DataType}.
Context {alloc : QVectorAlloc} {sorter : @StdSort DataType DT}.
Implicit Types s : @QCPDataContainer DataType.
Implicit Types pre l : list DataType.

Lemma Layout_wf s pre l : Layout s pre l -> wf s.
Proof.
  intros [Hi Hp]. unfold wf, QVec.size. rewrite Hi, Hp, length_app. lia.
Qed.

Lemma Layout_begin s pre l : Layout s pre l -> begin_ s = length pre.
Proof. intros [_ Hp]. unfold begin_. rewrite Hp. lia. Qed.

Lemma Layout_end s pre l :
  Layout s pre l -> end_ s = (length pre + length l)%nat.
Proof. intros [Hi _]. unfold end_. rewrite Hi. apply length_app. Qed.

Lemma Layout_live s pre l : Layout s pre l -> live s = l.
Proof.
  intros H. unfold live. rewrite (Layout_begin H).
  destruct H as [-> _]. apply skipn_length_app.
Qed.

Lemma Layout_size s pre l : Layout s pre l -> size s = Z.of_nat (length l).
Proof.
  intros [Hi Hp]. unfold size, QVec.size. rewrite Hi, Hp, length_app. lia.
Qed.

Lemma Layout_isEmpty s pre l :
  Layout s pre l -> isEmpty s = match l with [] => true | _ => false end.
Proof.
  intros H. unfold isEmpty. rewrite (Layout_size H).
  destruct l; reflexivity.
Qed.

Lemma wf_Layout s :
  wf s -> Layout s (firstn (begin_ s) (items (mData s))) (live s).
Proof.
  unfold wf, Layout, live, begin_, QVec.size. intros H. split.
  - symmetry. apply firstn_skipn.
  - rewrite length_firstn. lia.
Qed.

Lemma Layout_deref s pre l n :
  Layout s pre l ->
  deref s (length pre + n) = nth n l defaultConstructed.
Proof.
  intros [Hi _]. unfold deref. rewrite Hi. apply nth_length_plus_app.
Qed.

(** The layout only depends on the items and the preallocation size. *)
Lemma Layout_ext s s' pre l :
  items (mData s') = items (mData s) -> mPreallocSize s' = mPreallocSize s ->
  Layout s pre l -> Layout s' pre l.
Proof. unfold Layout. intros -> ->. auto. Qed.

(** *** squeeze *)
Lemma resize_items_shrink (d : DataType) n (v : QVector DataType) :
  n <= QVec.size v -> items (QVec.resize d n v) = firstn (Z.to_nat n) (items v).
Proof.
  intros H. unfold QVec.resize. simpl.
  destruct (Z.leb_spec n (QVec.size v)); [reflexivity|lia].
Qed.

Lemma resize_items_grow (d : DataType) n (v : QVector DataType) :
  QVec.size v <= n ->
  items (QVec.resize d n v) = items v ++ repeat d (Z.to_nat (n - QVec.size v)).
Proof.
  intros H. unfold QVec.resize. simpl.
  destruct (Z.leb_spec n (QVec.size v)); [|reflexivity].
  replace n with (QVec.size v) by lia. unfold QVec.size.
  rewrite Nat2Z.id, firstn_all, Z.sub_diag. simpl. now rewrite app_nil_r.
Qed.

(** Copying the logical sequence down to the start of the buffer and cutting
    the buffer to its length leaves exactly the logical sequence. *)
Lemma compaction pre l :
  let copied :=
    Std.copy (Std.slice (pre ++ l) (length pre) (length pre + length l))
             (pre ++ l) 0 in
  length copied = (length pre + length l)%nat
  /\ firstn (length l) copied = l.
Proof.
  rewrite slice_suffix. unfold Std.copy. simpl. split.
  - rewrite length_app, length_skipn, length_app. lia.
  - rewrite <- (Nat.add_0_r (length l)) at 1.
    rewrite firstn_length_plus_app. simpl. apply app_nil_r.
Qed.

Lemma squeeze_pre_Layout s pre l :
  Layout s pre l ->
  let copied :=
    Std.copy (Std.slice (items (mData s)) (begin_ s) (end_ s))
             (items (mData s)) 0 in
  let s'' := setItems copied s in
  Layout (setPreallocSize 0
            (setData (QVec.resize defaultConstructed (size s'') (mData s''))
                     s'')) [] l.
Proof.
  intros H. rewrite (Layout_begin H), (Layout_end H).
  destruct H as [Hi Hp]. rewrite Hi.
  destruct (compaction pre l) as [Hlen Hfirst].
  intros copied s''. split; [|reflexivity].
  assert (Hsize : size s'' = Z.of_nat (length l)).
  { change (Z.of_nat (length copied) - mPreallocSize s
            = Z.of_nat (length l)).
    unfold copied. rewrite Hlen, Hp. lia. }
  change (items (QVec.resize defaultConstructed (size s'') (mData s'')) = l).
  rewrite Hsize, resize_items_shrink.
  - rewrite Nat2Z.id. exact Hfirst.
  - change (Z.of_nat (length l) <= Z.of_nat (length copied)).
    unfold copied. rewrite Hlen. lia.
Qed.

Lemma squeeze_Layout a b s pre l :
  Layout s pre l -> exists pre', Layout (squeeze a b s) pre' l.
Proof.
  intros H. unfold squeeze.
  destruct a.
  - destruct (0 <? mPreallocSize s).
    + exists []. pose proof (squeeze_pre_Layout H) as Hs.
      destruct b; eapply Layout_ext; try exact Hs; reflexivity.
    + exists pre. destruct b; eapply Layout_ext; try exact H; reflexivity.
  - exists pre. destruct b; eapply Layout_ext; try exact H; reflexivity.
Qed.

Lemma performAutoSqueeze_Layout s pre l :
  Layout s pre l -> exists pre', Layout (performAutoSqueeze s) pre' l.
Proof.
  intros H. unfold performAutoSqueeze.
  match goal with
  | |- context [if ?c then squeeze ?a ?b s else s] =>
      destruct c; [apply (squeeze_Layout a b H) | eauto]
  end.
Qed.

Lemma autoSqueezeCheck_Layout s pre l :
  Layout s pre l -> exists pre', Layout (autoSqueezeCheck s) pre' l.
Proof.
  intros H. unfold autoSqueezeCheck.
  destruct (mAutoSqueeze s); [apply (performAutoSqueeze_Layout H) | eauto].
Qed.

(** *** preallocateGrow *)

(** The increment of the preallocation: [(1u<<qBound(4, i+4, 15)) - 12]. *)
Lemma growthIncrement_bounds i : 4 <= growthIncrement i <= 32768 - 12.
Proof.
  unfold growthIncrement, qBound. rewrite Z.shiftl_1_l.
  assert (4 <= Z.max 4 (Z.min 15 (i + 4)) <= 15) as Hc by lia.
  assert (2 ^ 4 <= 2 ^ Z.max 4 (Z.min 15 (i + 4)))
    by (apply Z.pow_le_mono_r; lia).
  assert (2 ^ Z.max 4 (Z.min 15 (i + 4)) <= 2 ^ 15)
    by (apply Z.pow_le_mono_r; lia).
  change (2 ^ 4) with 16 in *. change (2 ^ 15) with 32768 in *. lia.
Qed.

(** Writing a run so that it ends at the end of the buffer. *)
Lemma copy_backward_at_end (src R : list DataType) :
  (length src <= length R)%nat ->
  Std.copy_backward src R (length R)
  = firstn (length R - length src) R ++ src.
Proof.
  intros H. unfold Std.copy_backward, Std.copy.
  rewrite skipn_all2 by lia. now rewrite app_nil_r.
Qed.

Lemma preallocateGrow_Layout m s pre l :
  Layout s pre l ->
  exists pre', Layout (preallocateGrow m s) pre' l
               /\ m <= Z.of_nat (length pre').
Proof.
  intros H. unfold preallocateGrow.
  destruct (Z.leb_spec m (mPreallocSize s)) as [Hle|Hgt].
  { exists pre. split; auto. destruct H as [_ Hp]. lia. }
  pose proof (growthIncrement_bounds (mPreallocIteration s)) as Hinc.
  set (inc := growthIncrement (mPreallocIteration s)) in *.
  destruct H as [Hi Hp].
  set (diff := m + inc - mPreallocSize s).
  assert (Hdiff : 0 < diff) by (unfold diff; lia).
  set (resized := QVec.resize defaultConstructed
                    (QVec.size (mData s) + diff) (mData s)).
  assert (Hres : items resized
                 = pre ++ l ++ repeat defaultConstructed (Z.to_nat diff)).
  { unfold resized. rewrite resize_items_grow by lia.
    rewrite Hi, <- app_assoc. do 3 f_equal. lia. }
  cbv zeta. simpl mData. simpl mPreallocSize.
  change (items (QVec.withItems ?x ?v)) with x.
  rewrite Hres, Hp, Nat2Z.id.
  set (rep := repeat defaultConstructed (Z.to_nat diff)).
  assert (Hrep : length rep = Z.to_nat diff) by apply repeat_length.
  replace (length (pre ++ l ++ rep) - Z.to_nat diff)%nat
    with (length pre + length l)%nat by (rewrite !length_app; lia).
  rewrite slice_within, copy_backward_at_end by (rewrite !length_app; lia).
  exists (firstn (length (pre ++ l ++ rep) - length l) (pre ++ l ++ rep)).
  split; [split|].
  - reflexivity.
  - simpl. rewrite length_firstn, !length_app. lia.
  - rewrite length_firstn, !length_app. lia.
Qed.

(** *** The prepend and append branches of the bulk additions *)
Lemma prependRange_Layout src n s pre l :
  n = Z.of_nat (length src) -> Layout s pre l ->
  exists pre', Layout (prependRange src n s) pre' (src ++ l).
Proof.
  intros Hn H. unfold prependRange.
  assert (Hs1 : exists pre1,
             Layout (if mPreallocSize s <? n then preallocateGrow n s else s)
                    pre1 l /\ n <= Z.of_nat (length pre1)).
  { destruct (Z.ltb_spec (mPreallocSize s) n) as [Hlt|Hge].
    - apply (preallocateGrow_Layout n H).
    - exists pre. split; auto. destruct H as [_ Hp]. lia. }
  destruct Hs1 as (pre1 & [Hi Hp] & Hlen).
  set (s1 := if mPreallocSize s <? n then preallocateGrow n s else s) in *.
  cbv zeta.
  set (pa := firstn (length pre1 - length src) pre1).
  set (pb := skipn (length pre1 - length src) pre1).
  assert (Hsplit : pre1 = pa ++ pb) by (symmetry; apply firstn_skipn).
  assert (Hpa : length pa = (length pre1 - length src)%nat)
    by (unfold pa; rewrite length_firstn; lia).
  assert (Hpb : length pb = length src)
    by (unfold pb; rewrite length_skipn; lia).
  clearbody pa pb. exists pa. split.
  - change (Std.copy src (items (mData s1))
                     (Z.to_nat (mPreallocSize s1 - n))
            = pa ++ src ++ l).
    rewrite Hi, Hp.
    replace (Z.to_nat (Z.of_nat (length pre1) - n)) with (length pa) by lia.
    subst pre1. rewrite <- app_assoc. apply copy_within. lia.
  - change (mPreallocSize s1 - n = Z.of_nat (length pa)).
    rewrite Hp. lia.
Qed.

Lemma appendRange_Layout src n s pre l :
  n = Z.of_nat (length src) -> Layout s pre l ->
  Layout (appendRange src n s) pre (l ++ src).
Proof.
  intros Hn [Hi Hp]. unfold appendRange. cbv zeta.
  set (resized := QVec.resize defaultConstructed (QVec.size (mData s) + n)
                              (mData s)).
  assert (Hres : items resized
                 = (pre ++ l) ++ repeat defaultConstructed (length src) ++ []).
  { unfold resized. rewrite resize_items_grow by lia.
    rewrite Hi, app_nil_r. do 2 f_equal. lia. }
  split; [|exact Hp].
  change (Std.copy src (items resized) (length (items resized) - Z.to_nat n)
          = pre ++ l ++ src).
  rewrite Hres.
  replace (length ((pre ++ l) ++ repeat defaultConstructed (length src) ++ [])
           - Z.to_nat n)%nat with (length (pre ++ l)).
  - rewrite copy_within by (now rewrite repeat_length).
    now rewrite app_nil_r, app_assoc.
  - rewrite !length_app, repeat_length. simpl. lia.
Qed.

(** In a sorted run without NaN keys every point lies between the first and
    the last one. *)
Lemma KeySorted_first_le l a :
  KeySorted l -> NoNaNKeys l -> In a l ->
  qle (sortKey (nth 0 l defaultConstructed)) (sortKey a) = true.
Proof.
  intros H N Ha. destruct l as [|x l]; [contradiction|]. simpl.
  apply KeySorted_cons in H. destruct H as [_ F].
  inversion N as [|? ? Nx _]; subst.
  destruct Ha as [->|Ha]; [qlia|].
  rewrite Forall_forall in F. auto.
Qed.

Lemma KeySorted_le_last l a :
  KeySorted l -> NoNaNKeys l -> In a l ->
  qle (sortKey a) (sortKey (nth (length l - 1) l defaultConstructed)) = true.
Proof.
  intros H N Ha.
  destruct (exists_last (l := l)) as (l' & x & ->);
    [intros ->; contradiction|].
  rewrite length_app. simpl.
  replace (length l' + 1 - 1)%nat with (length l' + 0)%nat by lia.
  rewrite nth_length_plus_app. simpl.
  apply KeySorted_app in H. destruct H as (_ & _ & H).
  apply NoNaNKeys_app in N. destruct N as [_ N].
  inversion N as [|? ? Nx _]; subst.
  apply in_app_or in Ha. destruct Ha as [Ha|[->|[]]]; [|qlia].
  apply H; simpl; auto.
Qed.

Lemma mergeAppended_Layout oldSize n s pre l1 l2 :
  oldSize = Z.of_nat (length l1) -> n = Z.of_nat (length l2) ->
  Layout s pre (l1 ++ l2) ->
  exists l', Layout (mergeAppended oldSize n s) pre l'
             /\ Permutation (l1 ++ l2) l'
             /\ (KeySorted l1 -> KeySorted l2 ->
                 NoNaNKeys l1 -> NoNaNKeys l2 -> KeySorted l').
Proof.
  intros Ho Hn H. unfold mergeAppended.
  rewrite (Layout_begin H), (Layout_end H), length_app.
  replace (length pre + (length l1 + length l2) - Z.to_nat n)%nat
    with (length pre + length l1)%nat by lia.
  destruct (Z.ltb_spec 0 oldSize) as [Hpos|Hzero]; simpl andb.
  - replace (length pre + length l1 - 1)%nat
      with (length pre + (length l1 - 1))%nat by lia.
    rewrite !(Layout_deref _ H).
    rewrite app_nth1 by lia.
    rewrite app_nth2, Nat.sub_diag by lia.
    destruct (qcpLessThanSortKey (nth (length l1 - 1) l1 defaultConstructed)
                                 (nth 0 l2 defaultConstructed)) eqn:Ec;
      simpl negb; cbv iota.
    + exists (l1 ++ l2). split; [exact H|]. split; [reflexivity|].
      intros S1 S2 N1 N2. apply KeySorted_app. repeat split; auto.
      intros a b Ha Hb.
      pose proof (@KeySorted_le_last l1 a S1 N1 Ha).
      pose proof (@KeySorted_first_le l2 b S2 N2 Hb). qlia.
    + exists (Std.merge qcpLessThanSortKey l1 l2).
      destruct H as [Hi Hp]. split; [split; [|exact Hp]|].
      * change (Std.inplace_merge qcpLessThanSortKey (items (mData s))
                  (length pre) (length pre + length l1)
                  (length pre + (length l1 + length l2))
                = pre ++ Std.merge qcpLessThanSortKey l1 l2).
        rewrite Hi. unfold Std.inplace_merge.
        rewrite firstn_length_app, slice_within.
        rewrite (app_assoc pre l1 l2) at 1.
        replace (length pre + length l1)%nat with (length (pre ++ l1))
          by apply length_app.
        replace (length pre + (length l1 + length l2))%nat
          with (length (pre ++ l1) + length l2)%nat
          by (rewrite length_app; lia).
        rewrite slice_suffix.
        replace (length (pre ++ l1) + length l2)%nat
          with (length ((pre ++ l1) ++ l2)) by (rewrite !length_app; lia).
        rewrite <- app_assoc.
        rewrite skipn_all, app_nil_r. reflexivity.
      * split; [apply merge_perm | apply merge_KeySorted].
  - exists (l1 ++ l2). split; [exact H|]. split; [reflexivity|].
    assert (l1 = []) as -> by (destruct l1; [auto|simpl in *; lia]).
    simpl. auto.
Qed.

(** *** The key searches on a sorted range *)
Lemma lower_bound_sorted pre l v :
  KeySorted l ->
  Std.lower_bound qcpLessThanSortKey (pre ++ l) (length pre)
                  (length pre + length l) v
  = (length pre + length (keysBelow (sortKey v) l))%nat.
Proof.
  intros S.
  rewrite (KeySorted_split_below (sortKey v) S) at 1 2.
  rewrite <- (app_nil_r (keysNotBelow (sortKey v) l)) at 1.
  rewrite length_app.
  apply lower_bound_partitioned.
  - apply Forall_filter_true.
  - eapply Forall_impl; [|apply Forall_filter_true].
    cbv beta. unfold qcpLessThanSortKey. intros a Ha.
    now apply negb_true_iff in Ha.
Qed.

Lemma upper_bound_sorted pre l v :
  KeySorted l ->
  Std.upper_bound qcpLessThanSortKey (pre ++ l) (length pre)
                  (length pre + length l) v
  = (length pre + length (keysNotAbove (sortKey v) l))%nat.
Proof.
  intros S.
  rewrite (KeySorted_split_above (sortKey v) S) at 1 2.
  rewrite <- (app_nil_r (keysAbove (sortKey v) l)) at 1.
  rewrite length_app.
  apply upper_bound_partitioned.
  - eapply Forall_impl; [|apply Forall_filter_true].
    cbv beta. unfold qcpLessThanSortKey. intros a Ha.
    now apply negb_true_iff in Ha.
  - apply Forall_filter_true.
Qed.

Lemma lower_bound_Layout s pre l v :
  Layout s pre l -> KeySorted l ->
  Std.lower_bound qcpLessThanSortKey (items (mData s)) (begin_ s) (end_ s) v
  = (length pre + length (keysBelow (sortKey v) l))%nat.
Proof.
  intros H S. rewrite (Layout_begin H), (Layout_end H).
  destruct H as [-> _]. now apply lower_bound_sorted.
Qed.

Lemma upper_bound_Layout s pre l v :
  Layout s pre l -> KeySorted l ->
  Std.upper_bound qcpLessThanSortKey (items (mData s)) (begin_ s) (end_ s) v
  = (length pre + length (keysNotAbove (sortKey v) l))%nat.
Proof.
  intros H S. rewrite (Layout_begin H), (Layout_end H).
  destruct H as [-> _]. now apply upper_bound_sorted.
Qed.

Lemma firstn_keysBelow k l :
  KeySorted l -> firstn (length (keysBelow k l)) l = keysBelow k l.
Proof.
  intros S. rewrite (KeySorted_split_below k S) at 2.
  apply firstn_length_app.
Qed.

Lemma skipn_keysBelow k l :
  KeySorted l -> skipn (length (keysBelow k l)) l = keysNotBelow k l.
Proof.
  intros S. rewrite (KeySorted_split_below k S) at 2.
  apply skipn_length_app.
Qed.

Lemma firstn_keysNotAbove k l :
  KeySorted l -> firstn (length (keysNotAbove k l)) l = keysNotAbove k l.
Proof.
  intros S. rewrite (KeySorted_split_above k S) at 2.
  apply firstn_length_app.
Qed.

Lemma skipn_keysNotAbove k l :
  KeySorted l -> skipn (length (keysNotAbove k l)) l = keysAbove k l.
Proof.
  intros S. rewrite (KeySorted_split_above k S) at 2.
  apply skipn_length_app.
Qed.

(** *** sort, set and clear *)
Lemma sort_Layout s pre l :
  Layout s pre l -> Layout (sort s) pre (sort_range l).
Proof.
  intros H. split; [|apply H].
  change (std_sort (items (mData s)) (begin_ s) (end_ s)
          = pre ++ sort_range l).
  rewrite (Layout_begin H), (Layout_end H). destruct H as [-> _].
  unfold std_sort.
  rewrite firstn_length_app, slice_suffix, <- length_app, skipn_all.
  now rewrite app_nil_r.
Qed.

Lemma set_Layout (data : QVector DataType) alreadySorted s :
  Layout (set data alreadySorted s) []
         (if alreadySorted then items data else sort_range (items data)).
Proof.
  unfold set. destruct alreadySorted; simpl negb; cbv iota.
  - split; reflexivity.
  - apply sort_Layout. split; reflexivity.
Qed.

Lemma clear_Layout s : Layout (clear s) [] [].
Proof. split; reflexivity. Qed.

(** *** add of a single point *)

Lemma assign_as_copy it (x : DataType) (v : QVector DataType) :
  QVec.assign it x v = QVec.withItems (Std.copy [x] (items v) it) v.
Proof.
  unfold QVec.assign, Std.copy. simpl. now rewrite Nat.add_1_r.
Qed.

Lemma Layout_last s pre l :
  Layout s pre l -> l <> [] ->
  deref s (end_ s - 1) = nth (length l - 1) l defaultConstructed.
Proof.
  intros H Hne. rewrite (Layout_end H), <- (Layout_deref _ H).
  f_equal. destruct l; [contradiction|simpl; lia].
Qed.

Lemma Layout_first s pre l :
  Layout s pre l -> deref s (begin_ s) = nth 0 l defaultConstructed.
Proof.
  intros H. rewrite (Layout_begin H), <- (Layout_deref _ H).
  f_equal. lia.
Qed.

Lemma qcpLessThanSortKey_eq (a b : DataType) :
  qcpLessThanSortKey a b = qlt (sortKey a) (sortKey b).
Proof. reflexivity. Qed.

Lemma add_result_unfold (p x : DataType) l' :
  let l := x :: l' in
  add_result p l
  = if negb (qlt (sortKey p)
                 (sortKey (nth (length l - 1) l defaultConstructed)))
    then l ++ [p]
    else if qlt (sortKey p) (sortKey x) then p :: l
    else keysBelow (sortKey p) l ++ p :: keysNotBelow (sortKey p) l.
Proof. reflexivity. Qed.

Lemma add_Layout p s pre l :
  Layout s pre l -> KeySorted l ->
  exists pre', Layout (add p s) pre' (add_result p l).
Proof.
  intros H S. unfold add. pose proof (Layout_isEmpty H) as He.
  destruct l as [|x l'] eqn:El.
  { rewrite He. exists pre. destruct H as [Hi Hp]. split; [|exact Hp].
    simpl. now rewrite Hi, app_nil_r. }
  rewrite (add_result_unfold p x l'). cbv zeta.
  rewrite <- El in *. rewrite He. cbn [orb].
  assert (Hne : l <> []) by (rewrite El; discriminate).
  rewrite (Layout_last H Hne), (Layout_first H).
  rewrite !qcpLessThanSortKey_eq.
  replace (nth 0 l defaultConstructed) with x by (rewrite El; reflexivity).
  destruct (qlt (sortKey p)
                (sortKey (nth (length l - 1) l defaultConstructed)));
    simpl negb; cbv iota.
  - destruct (qlt (sortKey p) (sortKey x)).
    + destruct (prependRange_Layout [p] (n := 1) eq_refl H)
        as [pre' Hpre].
      exists pre'. eapply Layout_ext; [| |exact Hpre]; [|reflexivity].
      unfold prependRange. cbv zeta. rewrite assign_as_copy. reflexivity.
    + exists pre. rewrite (lower_bound_Layout p H S).
      destruct H as [Hi Hp]. split; [|exact Hp].
      simpl. rewrite Hi.
      rewrite firstn_length_plus_app, skipn_length_plus_app.
      rewrite firstn_keysBelow, skipn_keysBelow by assumption.
      now rewrite <- app_assoc.
  - exists pre. destruct H as [Hi Hp]. split; [|exact Hp].
    simpl. rewrite Hi. now rewrite <- app_assoc.
Qed.

Lemma keys_split_perm k l :
  Permutation l (keysBelow k l ++ keysNotBelow k l).
Proof.
  unfold keysBelow, keysNotBelow.
  induction l as [|a l IH]; simpl; [constructor|].
  destruct (qlt (sortKey a) k); simpl.
  - now constructor.
  - rewrite <- Permutation_middle. now constructor.
Qed.

Lemma add_result_perm p l : Permutation (l ++ [p]) (add_result p l).
Proof.
  destruct l as [|x l'] eqn:El; [reflexivity|].
  rewrite (add_result_unfold p x l'). cbv zeta. rewrite <- El.
  destruct (negb _); [reflexivity|].
  rewrite Permutation_app_comm. simpl.
  destruct (qlt _ _); [reflexivity|].
  rewrite <- Permutation_middle. constructor. apply keys_split_perm.
Qed.

(** On a sorted sequence without NaN keys, a point whose key is not NaN is
    put at its place in the order. *)
Lemma add_result_sorted p l :
  KeySorted l -> NoNaNKeys l -> qIsNaN (sortKey p) = false ->
  KeySorted (add_result p l).
Proof.
  intros S N Hp. destruct l as [|x l'] eqn:El.
  { repeat constructor. }
  rewrite (add_result_unfold p x l'). cbv zeta.
  rewrite <- El in *.
  assert (Hx : nth 0 l defaultConstructed = x) by (rewrite El; reflexivity).
  destruct (qlt (sortKey p)
                (sortKey (nth (length l - 1) l defaultConstructed)))
    eqn:Elast; simpl negb; cbv iota.
  - destruct (qlt (sortKey p) (sortKey x)) eqn:Efirst.
    + apply KeySorted_cons. split; auto.
      rewrite Forall_forall. intros b Hb.
      pose proof (@KeySorted_first_le l b S N Hb) as Hle.
      rewrite Hx in Hle. qlia.
    + unfold NoNaNKeys in N. rewrite Forall_forall in N.
      apply KeySorted_app. repeat split.
      * now apply KeySorted_filter.
      * apply KeySorted_cons. split; [now apply KeySorted_filter|].
        rewrite Forall_forall. intros b Hb.
        apply filter_In in Hb. destruct Hb as [Hin Hb].
        specialize (N b Hin). qlia.
      * intros a b Ha [<-|Hb].
        -- apply filter_In in Ha. destruct Ha as [Hin Ha]. qlia.
        -- apply filter_In in Ha. apply filter_In in Hb.
           destruct Ha as [Hina Ha], Hb as [Hinb Hb].
           pose proof (N a Hina). pose proof (N b Hinb). qlia.
  - apply KeySorted_app. repeat split; auto.
    + repeat constructor.
    + intros a b Ha [<-|[]].
      pose proof (@KeySorted_le_last l a S N Ha) as Hle. qlia.
Qed.

(** *** The bulk additions *)
Lemma Layout_slice s pre l :
  Layout s pre l -> Std.slice (items (mData s)) (begin_ s) (end_ s) = l.
Proof.
  intros H. rewrite (Layout_begin H), (Layout_end H).
  destruct H as [-> _]. apply slice_suffix.
Qed.

Lemma prepend_KeySorted (dl l : list DataType) :
  KeySorted dl -> KeySorted l -> NoNaNKeys dl -> NoNaNKeys l ->
  qlt (sortKey (nth 0 l defaultConstructed))
      (sortKey (nth (length dl - 1) dl defaultConstructed)) = false ->
  KeySorted (dl ++ l).
Proof.
  intros Sd S Nd N Hc.
  apply KeySorted_app. repeat split; auto.
  intros a b Ha Hb.
  pose proof (@KeySorted_le_last dl a Sd Nd Ha).
  pose proof (@KeySorted_first_le l b S N Hb). qlia.
Qed.

Lemma add_container_Layout data s dpre dl pre l :
  Layout data dpre dl -> Layout s pre l ->
  exists pre' l',
    Layout (add_container data s) pre' l'
    /\ Permutation (l ++ dl) l'
    /\ (KeySorted l -> KeySorted dl -> NoNaNKeys l -> NoNaNKeys dl ->
        KeySorted l').
Proof.
  intros Hd H. unfold add_container.
  rewrite (Layout_isEmpty Hd).
  destruct dl as [|x dl'] eqn:Ed.
  { exists pre, l. rewrite app_nil_r. auto. }
  rewrite <- Ed in *.
  assert (Hne : dl <> []) by (rewrite Ed; discriminate).
  cbv zeta.
  rewrite (Layout_slice Hd), (Layout_size Hd), (Layout_size H).
  rewrite (Layout_first H), (Layout_last Hd Hne), qcpLessThanSortKey_eq.
  destruct ((0 <? Z.of_nat (length l))
            && negb (qlt (sortKey (nth 0 l defaultConstructed))
                         (sortKey (nth (length dl - 1) dl
                                       defaultConstructed))))
    eqn:Ec.
  - destruct (prependRange_Layout dl eq_refl H) as [pre' Hpre].
    exists pre', (dl ++ l). split; [exact Hpre|].
    split; [apply Permutation_app_comm|].
    intros S Sd N Nd. apply prepend_KeySorted; auto.
    apply andb_prop in Ec. destruct Ec as [_ Ec].
    now apply negb_true_iff in Ec.
  - pose proof (appendRange_Layout dl eq_refl H) as Happ.
    destruct (mergeAppended_Layout l dl eq_refl eq_refl Happ)
      as (l' & Hl' & HP & HS).
    exists pre, l'. auto.
Qed.

Lemma set_container_Layout data s dpre dl :
  Layout data dpre dl ->
  exists pre', Layout (set_container data s) pre' dl.
Proof.
  intros Hd. unfold set_container, add_container.
  rewrite (Layout_isEmpty Hd).
  destruct dl as [|x dl'] eqn:Ed.
  { exists []. apply clear_Layout. }
  rewrite <- Ed in *. cbv zeta.
  rewrite (Layout_size (clear_Layout s)). simpl andb. cbv iota.
  rewrite (Layout_slice Hd), (Layout_size Hd).
  pose proof (appendRange_Layout dl eq_refl (clear_Layout s)) as Happ.
  exists []. unfold mergeAppended. simpl andb. cbv iota. exact Happ.
Qed.

Lemma add_vector_Layout (data : QVector DataType) alreadySorted s pre l :
  Layout s pre l ->
  exists pre' l',
    Layout (add_vector data alreadySorted s) pre' l'
    /\ Permutation (l ++ items data) l'
    /\ (KeySorted l -> NoNaNKeys l -> NoNaNKeys (items data) ->
        (alreadySorted = true -> KeySorted (items data)) ->
        KeySorted l').
Proof.
  intros H. unfold add_vector.
  unfold QVec.isEmpty at 1. unfold QVec.size at 1.
  destruct (items data) as [|x dl'] eqn:Ed.
  { exists pre, l. rewrite app_nil_r. auto. }
  rewrite <- Ed in *.
  assert (Hne : items data <> []) by (rewrite Ed; discriminate).
  replace (Z.of_nat (length (items data)) =? 0) with false
    by (rewrite Ed; reflexivity).
  rewrite (Layout_isEmpty H).
  destruct l as [|y l0] eqn:El.
  { exists [], (if alreadySorted then items data
                else sort_range (items data)).
    split; [apply set_Layout|]. simpl.
    destruct alreadySorted.
    - split; [reflexivity|auto].
    - split; [apply sort_range_perm|].
      intros _ _ Nd _. now apply sort_range_sorted. }
  rewrite <- El in *. cbv zeta.
  rewrite (Layout_size H), (Layout_first H), qcpLessThanSortKey_eq.
  unfold QVec.size.
  destruct (alreadySorted && (0 <? Z.of_nat (length l))
            && negb (qlt (sortKey (nth 0 l defaultConstructed))
                         (sortKey (nth (length (items data) - 1)
                                       (items data) defaultConstructed))))
    eqn:Ec.
  - destruct (prependRange_Layout (items data) eq_refl H) as [pre' Hpre].
    exists pre', (items data ++ l). split; [exact Hpre|].
    split; [apply Permutation_app_comm|].
    apply andb_prop in Ec. destruct Ec as [Ec Ec2].
    apply andb_prop in Ec. destruct Ec as [Ec1 _].
    intros S N Nd Sd. apply prepend_KeySorted; auto.
    now apply negb_true_iff in Ec2.
  - pose proof (appendRange_Layout (items data) eq_refl H) as Happ.
    set (s1 := appendRange (items data) (Z.of_nat (length (items data))) s)
      in *.
    set (dl := if alreadySorted then items data
               else sort_range (items data)).
    assert (Hs2 : Layout
              (if negb alreadySorted
               then setItems
                      (std_sort (items (mData s1))
                         (end_ s1
                          - Z.to_nat (Z.of_nat (length (items data))))
                         (end_ s1)) s1
               else s1) pre (l ++ dl)).
    { unfold dl. destruct alreadySorted; simpl negb; cbv iota; [exact Happ|].
      split; [|apply Happ].
      change (std_sort (items (mData s1))
                (end_ s1 - Z.to_nat (Z.of_nat (length (items data))))
                (end_ s1)
              = pre ++ l ++ sort_range (items data)).
      rewrite (Layout_end Happ). destruct Happ as [-> _].
      unfold std_sort. rewrite Nat2Z.id, !length_app.
      replace (length pre + (length l + length (items data))
               - length (items data))%nat
        with (length (pre ++ l)) by (rewrite length_app; lia).
      replace (length pre + (length l + length (items data)))%nat
        with (length (pre ++ l) + length (items data))%nat
        by (rewrite length_app; lia).
      rewrite (app_assoc pre l).
      rewrite firstn_length_app, slice_suffix, <- length_app, skipn_all.
      now rewrite app_nil_r, <- app_assoc. }
    assert (Hlen : Z.of_nat (length (items data)) = Z.of_nat (length dl)).
    { unfold dl. destruct alreadySorted; auto.
      f_equal. apply Permutation_length, sort_range_perm. }
    destruct (mergeAppended_Layout l dl eq_refl Hlen Hs2)
      as (l' & Hl' & HP & HS).
    exists pre, l'. split; [exact Hl'|]. split.
    + rewrite <- HP. apply Permutation_app_head.
      unfold dl. destruct alreadySorted; [reflexivity|apply sort_range_perm].
    + intros S N Nd Sd. apply HS; auto.
      * unfold dl. destruct alreadySorted; [auto|now apply sort_range_sorted].
      * unfold dl. destruct alreadySorted; [exact Nd|].
        eapply NoNaNKeys_perm; [apply sort_range_perm|exact Nd].
Qed.

(** *** The removals *)

(** [removeBefore] before its auto squeeze: the points below the key join the
    preallocation zone, the buffer itself is untouched. *)
Lemma removeBefore_fold k s pre l :
  Layout s pre l -> KeySorted l ->
  let itEnd :=
    Std.lower_bound qcpLessThanSortKey (items (mData s)) (begin_ s) (end_ s)
                    (fromSortKey k) in
  Layout (setPreallocSize
            (mPreallocSize s + (Z.of_nat itEnd - Z.of_nat (begin_ s))) s)
         (pre ++ keysBelow k l) (keysNotBelow k l).
Proof.
  intros H S. cbv zeta.
  rewrite (lower_bound_Layout (fromSortKey k) H S), sortKey_fromSortKey.
  rewrite (Layout_begin H). destruct H as [Hi Hp]. split.
  - simpl. rewrite Hi, <- app_assoc. f_equal.
    now apply KeySorted_split_below.
  - simpl. rewrite Hp, length_app. lia.
Qed.

Lemma removeBefore_Layout k s pre l :
  Layout s pre l -> KeySorted l ->
  exists pre', Layout (removeBefore k s) pre' (keysNotBelow k l).
Proof.
  intros H S. unfold removeBefore. cbv zeta.
  exact (autoSqueezeCheck_Layout (removeBefore_fold k H S)).
Qed.

Lemma erase_to_end pre l n :
  firstn (length pre + n) (pre ++ l)
    ++ skipn (length pre + length l) (pre ++ l)
  = pre ++ firstn n l.
Proof.
  rewrite firstn_length_plus_app, <- length_app, skipn_all.
  apply app_nil_r.
Qed.

(** [removeAfter] before its auto squeeze. *)
Lemma removeAfter_erase k s pre l :
  Layout s pre l -> KeySorted l ->
  let it :=
    Std.upper_bound qcpLessThanSortKey (items (mData s)) (begin_ s) (end_ s)
                    (fromSortKey k) in
  Layout (setData (QVec.erase it (end_ s) (mData s)) s) pre
         (keysNotAbove k l).
Proof.
  intros H S. cbv zeta.
  rewrite (upper_bound_Layout (fromSortKey k) H S), sortKey_fromSortKey.
  rewrite (Layout_end H). destruct H as [Hi Hp]. split; [|exact Hp].
  simpl. rewrite Hi, erase_to_end. f_equal.
  now apply firstn_keysNotAbove.
Qed.

Lemma removeAfter_Layout k s pre l :
  Layout s pre l -> KeySorted l ->
  exists pre', Layout (removeAfter k s) pre' (keysNotAbove k l).
Proof.
  intros H S. unfold removeAfter. cbv zeta.
  exact (autoSqueezeCheck_Layout (removeAfter_erase k H S)).
Qed.

(** When [b <= a] is false, the points above [b] are not below [a]. *)
Lemma keysAbove_keysNotBelow a b l :
  qle b a = false -> keysAbove b (keysNotBelow a l) = keysAbove b l.
Proof.
  intros Hab. unfold keysAbove, keysNotBelow.
  induction l as [|x l IH]; simpl; [reflexivity|].
  destruct (qlt (sortKey x) a) eqn:E1; simpl;
    destruct (qlt b (sortKey x)) eqn:E2; try (now rewrite IH).
  exfalso. qlia.
Qed.

Lemma erase_range_sorted pre lo hi b :
  KeySorted hi ->
  firstn (length pre + length lo) (pre ++ lo ++ hi)
    ++ skipn (Std.upper_bound qcpLessThanSortKey (pre ++ lo ++ hi)
                (length pre + length lo) (length pre + length (lo ++ hi))
                (fromSortKey b))
             (pre ++ lo ++ hi)
  = pre ++ lo ++ keysAbove b hi.
Proof.
  intros Shi.
  rewrite firstn_length_plus_app, <- (Nat.add_0_r (length lo)) at 1.
  rewrite firstn_length_plus_app. simpl firstn. rewrite app_nil_r.
  rewrite (app_assoc pre lo hi), (length_app lo hi), Nat.add_assoc.
  rewrite <- (length_app pre lo).
  rewrite (upper_bound_sorted (pre ++ lo) (fromSortKey b) Shi).
  rewrite sortKey_fromSortKey, skipn_length_plus_app.
  rewrite skipn_keysNotAbove by assumption.
  now rewrite <- app_assoc.
Qed.

Lemma remove_range_Layout a b s pre l :
  Layout s pre l -> KeySorted l ->
  exists pre',
    Layout (remove_range a b s) pre'
           (if qle b a then l else keysBelow a l ++ keysAbove b l).
Proof.
  intros H S. unfold remove_range.
  destruct (qle b a) eqn:Hle; simpl orb; [eauto|].
  rewrite (Layout_isEmpty H).
  destruct l as [|x l'] eqn:El; [exists pre; exact H|].
  rewrite <- El in *. clear El. cbv zeta.
  apply (autoSqueezeCheck_Layout (pre := pre)).
  rewrite (lower_bound_Layout (fromSortKey a) H S), sortKey_fromSortKey.
  rewrite (Layout_end H). destruct H as [Hi Hp]. split; [|exact Hp].
  simpl. rewrite Hi.
  pose proof (KeySorted_split_below a S) as Hsplit.
  rewrite <- (@keysAbove_keysNotBelow a b l Hle).
  set (lo := keysBelow a l) in *. set (hi := keysNotBelow a l) in *.
  assert (Shi : KeySorted hi) by now apply KeySorted_filter.
  clearbody lo hi. subst l.
  now apply erase_range_sorted.
Qed.

Lemma erase_one pre lo (x : DataType) rest :
  firstn (length pre + length lo) (pre ++ lo ++ x :: rest)
    ++ skipn (Datatypes.S (length pre + length lo)) (pre ++ lo ++ x :: rest)
  = pre ++ lo ++ rest.
Proof.
  rewrite (app_assoc pre lo), <- length_app, firstn_length_app.
  rewrite <- Nat.add_1_r, skipn_length_plus_app. simpl.
  now rewrite app_assoc.
Qed.

Lemma remove_unfold k s : remove k s = autoSqueezeCheck (remove_core k s).
Proof. reflexivity. Qed.

Lemma remove_core_Layout k s pre l :
  Layout s pre l -> KeySorted l ->
  exists pre', Layout (remove_core k s) pre' (remove_result k l).
Proof.
  intros H S. unfold remove_core, remove_result. cbv zeta.
  rewrite (lower_bound_Layout (fromSortKey k) H S), sortKey_fromSortKey.
  rewrite (Layout_end H), (Layout_begin H), (Layout_deref _ H).
  pose proof (KeySorted_split_below k S) as Hsplit.
  set (lo := keysBelow k l) in *. set (hi := keysNotBelow k l) in *.
  destruct hi as [|x rest] eqn:Ehi.
  { rewrite app_nil_r in Hsplit. rewrite <- Hsplit.
    rewrite Nat.eqb_refl. simpl. exists pre. now rewrite app_nil_r. }
  assert (Hx : nth (length lo) l defaultConstructed = x).
  { rewrite Hsplit, app_nth2, Nat.sub_diag by lia. reflexivity. }
  rewrite Hx.
  destruct (Nat.eqb_spec (length pre + length lo) (length pre + length l))
    as [Heq|_].
  { rewrite Hsplit, length_app in Heq. simpl in Heq. lia. }
  simpl negb. simpl andb.
  destruct (qeq (sortKey x) k); [|exists pre; now rewrite <- Hsplit].
  destruct H as [Hi Hp].
  destruct (Nat.eqb_spec (length pre + length lo) (length pre)) as [Hz|Hnz].
  - exists (pre ++ [x]).
    assert (lo = []) as -> by (destruct lo; [auto|simpl in Hz; lia]).
    simpl in Hsplit. split.
    + simpl. rewrite Hi, Hsplit, <- app_assoc. reflexivity.
    + simpl. rewrite Hp, length_app. simpl. lia.
  - exists pre. split; [|exact Hp].
    change (firstn (length pre + length lo) (items (mData s))
              ++ skipn (Datatypes.S (length pre + length lo)) (items (mData s))
            = pre ++ lo ++ rest).
    rewrite Hi, Hsplit. apply erase_one.
Qed.

Lemma remove_Layout k s pre l :
  Layout s pre l -> KeySorted l ->
  exists pre', Layout (remove k s) pre' (remove_result k l).
Proof.
  intros H S. rewrite remove_unfold.
  destruct (remove_core_Layout k H S) as [pre1 H1].
  exact (autoSqueezeCheck_Layout H1).
Qed.

(** *** The position of a point relative to the partition points *)
Lemma nth_keysBelow k l j :
  KeySorted l -> (j < length l)%nat ->
  ((j < length (keysBelow k l))%nat
   <-> qlt (sortKey (nth j l defaultConstructed)) k = true).
Proof.
  intros S Hj.
  pose proof (KeySorted_split_below k S) as Hsplit.
  assert (Hlo : Forall (fun x => qlt (sortKey x) k = true) (keysBelow k l))
    by apply Forall_filter_true.
  assert (Hhi : Forall (fun x => negb (qlt (sortKey x) k) = true)
                       (keysNotBelow k l))
    by apply Forall_filter_true.
  set (lo := keysBelow k l) in *. set (hi := keysNotBelow k l) in *.
  clearbody lo hi. subst l. rewrite Forall_forall in Hlo, Hhi.
  rewrite length_app in Hj.
  destruct (Nat.lt_ge_cases j (length lo)) as [Hlt|Hge].
  - rewrite app_nth1 by assumption.
    assert (In (nth j lo defaultConstructed) lo) as Hin
      by (apply nth_In; assumption).
    apply Hlo in Hin. split; [auto|lia].
  - rewrite app_nth2 by assumption.
    assert (In (nth (j - length lo) hi defaultConstructed) hi) as Hin
      by (apply nth_In; lia).
    apply Hhi in Hin. apply negb_true_iff in Hin. rewrite Hin.
    split; [lia|discriminate].
Qed.

Lemma nth_keysNotAbove k l j :
  KeySorted l -> (j < length l)%nat ->
  ((j < length (keysNotAbove k l))%nat
   <-> qlt k (sortKey (nth j l defaultConstructed)) = false).
Proof.
  intros S Hj.
  pose proof (KeySorted_split_above k S) as Hsplit.
  assert (Hlo : Forall (fun x => negb (qlt k (sortKey x)) = true)
                       (keysNotAbove k l))
    by apply Forall_filter_true.
  assert (Hhi : Forall (fun x => qlt k (sortKey x) = true) (keysAbove k l))
    by apply Forall_filter_true.
  set (lo := keysNotAbove k l) in *. set (hi := keysAbove k l) in *.
  clearbody lo hi. subst l. rewrite Forall_forall in Hlo, Hhi.
  rewrite length_app in Hj.
  destruct (Nat.lt_ge_cases j (length lo)) as [Hlt|Hge].
  - rewrite app_nth1 by assumption.
    assert (In (nth j lo defaultConstructed) lo) as Hin
      by (apply nth_In; assumption).
    apply Hlo in Hin. apply negb_true_iff in Hin. split; [auto|lia].
  - rewrite app_nth2 by assumption.
    assert (In (nth (j - length lo) hi defaultConstructed) hi) as Hin
      by (apply nth_In; lia).
    apply Hhi in Hin. rewrite Hin. split; [lia|discriminate].
Qed.

Lemma keysBelow_le_keysNotAbove k l :
  (length (keysBelow k l) <= length (keysNotAbove k l) <= length l)%nat.
Proof.
  unfold keysBelow, keysNotAbove.
  induction l as [|a l IH]; simpl; [lia|].
  destruct (qlt (sortKey a) k) eqn:E1; destruct (qlt k (sortKey a)) eqn:E2;
    simpl; try lia.
  exfalso. qlia.
Qed.

(** *** findBegin and findEnd *)
Lemma findBegin_Layout k e s pre l :
  Layout s pre l -> KeySorted l -> l <> [] ->
  findBegin k e s
  = (length pre
     + (if e && negb (length (keysBelow k l) =? 0)%nat
        then length (keysBelow k l) - 1
        else length (keysBelow k l)))%nat.
Proof.
  intros H S Hne. unfold findBegin.
  rewrite (Layout_isEmpty H). destruct l as [|x l'] eqn:El; [contradiction|].
  rewrite <- El in *. cbv zeta.
  rewrite (lower_bound_Layout (fromSortKey k) H S), sortKey_fromSortKey.
  rewrite (Layout_begin H).
  destruct e; simpl andb; [|reflexivity].
  destruct (Nat.eqb_spec (length pre + length (keysBelow k l)) (length pre));
    destruct (Nat.eqb_spec (length (keysBelow k l)) 0); simpl; lia.
Qed.

Lemma findEnd_Layout k e s pre l :
  Layout s pre l -> KeySorted l -> l <> [] ->
  findEnd k e s
  = (length pre
     + (if e && negb (length (keysNotAbove k l) =? length l)%nat
        then length (keysNotAbove k l) + 1
        else length (keysNotAbove k l)))%nat.
Proof.
  intros H S Hne. unfold findEnd.
  rewrite (Layout_isEmpty H). destruct l as [|x l'] eqn:El; [contradiction|].
  rewrite <- El in *. cbv zeta.
  rewrite (upper_bound_Layout (fromSortKey k) H S), sortKey_fromSortKey.
  rewrite (Layout_end H).
  destruct e; simpl andb; [|reflexivity].
  destruct (Nat.eqb_spec (length pre + length (keysNotAbove k l))
                         (length pre + length l));
    destruct (Nat.eqb_spec (length (keysNotAbove k l)) (length l));
    simpl; lia.
Qed.

End ContainerFacts.

(** ** The claims of the specification *)
Section Claims.
Context {DataType : Type} {DT : QCPDataType DataType}.
Context {alloc : QVectorAlloc} {sorter : @StdSort DataType DT}.
Implicit Types s : @QCPDataContainer DataType.
Implicit Types pre l : list DataType.

Lemma Layout_sortedStore s pre l :
  Layout s pre l -> KeySorted l -> sortedStore s.
Proof.
  intros H S. split; [exact (Layout_wf H)|].
  now rewrite (Layout_live H).
Qed.

Lemma sortedStore_Layout s :
  sortedStore s -> exists pre, Layout s pre (live s) /\ KeySorted (live s).
Proof.
  intros [Hwf S]. eexists. split; [apply (wf_Layout Hwf)|exact S].
Qed.

Lemma remove_result_sorted k l : KeySorted l -> KeySorted (remove_result k l).
Proof.
  intros S. unfold remove_result.
  pose proof (KeySorted_split_below k S) as Hsplit.
  set (lo := keysBelow k l) in *. set (hi := keysNotBelow k l) in *.
  clearbody lo hi. subst l.
  destruct hi as [|x rest]; [now rewrite app_nil_r in *|].
  destruct (qeq (sortKey x) k); [|exact S].
  apply KeySorted_app in S. destruct S as (S1 & S2 & S3).
  apply KeySorted_cons in S2. destruct S2 as [S2 _].
  apply KeySorted_app. repeat split; auto.
  intros a b Ha Hb. apply S3; simpl; auto.
Qed.

Lemma remove_result_incl k l x : In x (remove_result k l) -> In x l.
Proof.
  unfold remove_result, keysBelow, keysNotBelow. intros Hx.
  apply in_app_or in Hx. destruct Hx as [Hx|Hx].
  - apply filter_In in Hx. tauto.
  - assert (Hin : In x (filter (fun y => negb (qlt (sortKey y) k)) l)).
    { destruct (filter _ l) as [|y rest]; [contradiction|].
      destruct (qeq (sortKey y) k); [now right|exact Hx]. }
    apply filter_In in Hin. tauto.
Qed.

Lemma remove_result_NoNaNKeys k l :
  NoNaNKeys l -> NoNaNKeys (remove_result k l).
Proof.
  unfold NoNaNKeys. rewrite !Forall_forall. intros H x Hx.
  apply H. exact (remove_result_incl k l x Hx).
Qed.

Lemma remove_range_result_sorted a b l :
  KeySorted l ->
  KeySorted (if qle b a then l else keysBelow a l ++ keysAbove b l).
Proof.
  intros S. destruct (qle b a) eqn:Hle; [exact S|].
  apply KeySorted_app. repeat split; try now apply KeySorted_filter.
  intros x y Hx Hy. apply filter_In in Hx. apply filter_In in Hy.
  destruct Hx as [_ Hx], Hy as [_ Hy]. qlia.
Qed.

Lemma remove_range_result_NoNaNKeys a b l :
  NoNaNKeys l ->
  NoNaNKeys (if qle b a then l else keysBelow a l ++ keysAbove b l).
Proof.
  intros N. destruct (qle b a); [exact N|].
  apply NoNaNKeys_app. split; now apply NoNaNKeys_filter.
Qed.

Lemma setAutoSqueeze_Layout enabled s pre l :
  Layout s pre l -> exists pre', Layout (setAutoSqueeze enabled s) pre' l.
Proof.
  intros H. unfold setAutoSqueeze.
  destruct (Bool.eqb (mAutoSqueeze s) enabled); [eauto|].
  cbv zeta.
  assert (H1 : Layout {| mAutoSqueeze := enabled; mData := mData s;
                         mPreallocSize := mPreallocSize s;
                         mPreallocIteration := mPreallocIteration s |} pre l)
    by (eapply Layout_ext; [| |exact H]; reflexivity).
  destruct enabled; [apply (performAutoSqueeze_Layout H1)|eauto].
Qed.

(** The sorted stores without NaN keys. *)
Lemma Layout_ordered s pre l :
  Layout s pre l -> KeySorted l -> NoNaNKeys l ->
  sortedStore s /\ NoNaNKeys (live s).
Proof.
  intros H S N. split; [exact (Layout_sortedStore H S)|].
  now rewrite (Layout_live H).
Qed.

(** One step of the interface keeps a sorted store without NaN keys
    sorted and without NaN keys. *)
Lemma run_sortedStore (op : MutOp) s :
  sortedStore s -> NoNaNKeys (live s) -> callerContract op ->
  sortedStore (run op s) /\ NoNaNKeys (live (run op s)).
Proof.
  intros Hs N Hc. destruct (sortedStore_Layout Hs) as (pre & H & S).
  destruct op as [data|data b|data|data b|p|k|k|k1 k2|k| | |a b|e];
    simpl run.
  - destruct Hc as [Hc Nd].
    destruct (sortedStore_Layout Hc) as (dpre & Hd & Sd).
    destruct (set_container_Layout s Hd) as [pre' H'].
    exact (Layout_ordered H' Sd Nd).
  - destruct Hc as [Nd Hc].
    apply (Layout_ordered (set_Layout data b s)).
    + destruct b; [now apply Hc|now apply sort_range_sorted].
    + destruct b; [exact Nd|].
      eapply NoNaNKeys_perm; [apply sort_range_perm|exact Nd].
  - destruct Hc as [Hc Nd].
    destruct (sortedStore_Layout Hc) as (dpre & Hd & Sd).
    destruct (add_container_Layout Hd H) as (pre' & l' & H' & HP & S').
    apply (Layout_ordered H' (S' S Sd N Nd)).
    eapply NoNaNKeys_perm; [exact HP|]. apply NoNaNKeys_app. auto.
  - destruct Hc as [Nd Hc].
    destruct (add_vector_Layout data b H) as (pre' & l' & H' & HP & S').
    apply (Layout_ordered H' (S' S N Nd Hc)).
    eapply NoNaNKeys_perm; [exact HP|]. apply NoNaNKeys_app. auto.
  - destruct (add_Layout p H S) as [pre' H'].
    apply (Layout_ordered H' (add_result_sorted p S N Hc)).
    eapply NoNaNKeys_perm; [apply add_result_perm|].
    apply NoNaNKeys_app. split; [exact N|]. now constructor.
  - destruct (removeBefore_Layout k H S) as [pre' H'].
    apply (Layout_ordered H');
      [now apply KeySorted_filter|now apply NoNaNKeys_filter].
  - destruct (removeAfter_Layout k H S) as [pre' H'].
    apply (Layout_ordered H');
      [now apply KeySorted_filter|now apply NoNaNKeys_filter].
  - destruct (remove_range_Layout k1 k2 H S) as [pre' H'].
    exact (Layout_ordered H' (remove_range_result_sorted k1 k2 S)
                          (remove_range_result_NoNaNKeys k1 k2 N)).
  - destruct (remove_Layout k H S) as [pre' H'].
    exact (Layout_ordered H' (remove_result_sorted k S)
                          (remove_result_NoNaNKeys k N)).
  - apply (Layout_ordered (clear_Layout s)); constructor.
  - apply (Layout_ordered (sort_Layout H)).
    + now apply sort_range_sorted.
    + eapply NoNaNKeys_perm; [apply sort_range_perm|exact N].
  - destruct (squeeze_Layout a b H) as [pre' H'].
    exact (Layout_ordered H' S N).
  - destruct (setAutoSqueeze_Layout e H) as [pre' H'].
    exact (Layout_ordered H' S N).
Qed.

(** The sort invariant survives any sequence of well-called operations. *)
Lemma sort_invariant_sequence (ops : list MutOp) s :
  sortedStore s -> NoNaNKeys (live s) -> Forall callerContract ops ->
  sortedStore (fold_left (fun st op => run op st) ops s)
  /\ NoNaNKeys (live (fold_left (fun st op => run op st) ops s)).
Proof.
  revert s. induction ops as [|op ops IH]; intros s Hs N Hc; simpl; [auto|].
  inversion Hc; subst.
  destruct (@run_sortedStore op s Hs N) as [Hs' N']; auto.
Qed.

(** C1 (as amended): every public mutating operation takes a store whose
    live range is non-decreasing in the sort key and holds no NaN key to a
    store whose live range is non-decreasing in the sort key and holds no
    NaN key, and keeps the preallocation inside the buffer, provided that no
    sort key handed in is NaN (the key of a point added, the keys of a vector
    or container passed in), that a container passed in is another container
    and itself such a store, and that a vector passed with
    [alreadySorted = true] is sorted.  The keys given to the removals may be
    any double, NaN too. *)
Theorem sort_invariant_preserved (op : MutOp) s :
  sortedStore s -> NoNaNKeys (live s) -> callerContract op ->
  sortedStore (run op s) /\ NoNaNKeys (live (run op s)).
Proof.
  intros Hs N Hc. split.
  - exact (proj1 (run_sortedStore op Hs N Hc)).
  - exact (proj2 (run_sortedStore op Hs N Hc)).
Qed.

(** C4 (as amended): [set(xs)] with [alreadySorted = false] leaves as live
    sequence a rearrangement of [xs], with the preallocation size and the
    preallocation iteration counter reset to zero; when no sort key of [xs]
    is NaN, the live sequence is in non-decreasing order of sort key. *)
Theorem set_unsorted_roundtrip (xs : QVector DataType) s :
  let s' := set xs false s in
  live s' = sort_range (items xs)
  /\ Permutation (items xs) (live s')
  /\ size s' = Z.of_nat (length (items xs))
  /\ mPreallocSize s' = 0
  /\ mPreallocIteration s' = 0
  /\ (NoNaNKeys (items xs) -> KeySorted (live s') /\ NoNaNKeys (live s')).
Proof.
  intros s'.
  pose proof (set_Layout xs false s) as H. fold s' in H. simpl in H.
  rewrite (Layout_live H), (Layout_size H).
  repeat split.
  - apply sort_range_perm.
  - f_equal. symmetry. apply Permutation_length, sort_range_perm.
  - now apply sort_range_sorted.
  - eapply NoNaNKeys_perm; [apply sort_range_perm|assumption].
Qed.

(** C5 (as amended): on a sorted store, [add(p)] takes one of the three
    paths of [add_result] and yields a rearrangement of the old live
    sequence with [p] appended; when neither a key of the store nor the key
    of [p] is NaN, the result is sorted, whichever path is taken, and
    carries the key sequence of sorting that list. *)
Theorem add_point_as_sort (p : DataType) s :
  sortedStore s ->
  live (add p s) = add_result p (live s)
  /\ Permutation (live s ++ [p]) (live (add p s))
  /\ (NoNaNKeys (live s) -> qIsNaN (sortKey p) = false ->
      KeySorted (live (add p s))
      /\ NoNaNKeys (live (add p s))
      /\ map sortKey (live (add p s))
         = map sortKey (sort_range (live s ++ [p]))).
Proof.
  intros Hs. destruct (sortedStore_Layout Hs) as (pre & H & S).
  destruct (add_Layout p H S) as [pre' H'].
  rewrite (Layout_live H').
  pose proof (add_result_perm p (live s)) as P'.
  split; [reflexivity|]. split; [exact P'|].
  intros N Hp.
  pose proof (add_result_sorted p S N Hp) as S'.
  assert (N' : NoNaNKeys (live s ++ [p])).
  { apply NoNaNKeys_app. split; [exact N|]. now constructor. }
  split; [exact S'|]. split.
  - eapply NoNaNKeys_perm; [exact P'|exact N'].
  - apply KeySorted_perm_keys; auto.
    + now apply sort_range_sorted.
    + rewrite <- P'. apply sort_range_perm.
Qed.

(** C7: [squeeze] leaves the live sequence, [size()] and the auto squeeze
    flag as they are, for both arguments; it keeps the preallocation inside
    the buffer. *)
Theorem squeeze_transparent (preAllocation postAllocation : bool) s :
  wf s ->
  live (squeeze preAllocation postAllocation s) = live s
  /\ size (squeeze preAllocation postAllocation s) = size s
  /\ mAutoSqueeze (squeeze preAllocation postAllocation s) = mAutoSqueeze s
  /\ wf (squeeze preAllocation postAllocation s).
Proof.
  intros Hwf. pose proof (wf_Layout Hwf) as H.
  destruct (squeeze_Layout preAllocation postAllocation H) as [pre' H'].
  rewrite (Layout_live H'), (Layout_size H'), (Layout_size H).
  split; [reflexivity|]. split; [reflexivity|].
  split; [|exact (Layout_wf H')].
  unfold squeeze.
  destruct preAllocation, postAllocation, (0 <? mPreallocSize s);
    reflexivity.
Qed.

(** C6 (as amended): on an empty store [findBegin] and [findEnd] return
    [constEnd()] for either value of [expandedRange]; on a sorted non-empty
    store the positions in [[findBegin(k, false), findEnd(k, false))] are
    exactly the positions of the live range whose sort key is neither below
    nor above [k], [findBegin(k, false)] being the lower bound (past the
    points below [k]) and [findEnd(k, false)] the upper bound (past the
    points not above [k]).  When neither [k] nor the sort key at a position
    is NaN, the position is in the bracket exactly when its sort key [==]
    [k]; for [k] NaN the bracket is the whole live range.  With
    [expandedRange = true], [findBegin] steps one position below the lower
    bound unless that is [constBegin()], and [findEnd] one position above
    the upper bound unless that is [constEnd()]. *)
Theorem findBegin_findEnd_bracket (k : qreal) s :
  sortedStore s ->
  (isEmpty s = true ->
   forall e, findBegin k e s = end_ s /\ findEnd k e s = end_ s)
  /\ (isEmpty s = false ->
      let lower := findBegin k false s in
      let upper := findEnd k false s in
      (begin_ s <= lower <= upper)%nat /\ (upper <= end_ s)%nat
      /\ (forall it, (begin_ s <= it < end_ s)%nat ->
           ((lower <= it < upper)%nat
            <-> qlt (sortKey (deref s it)) k = false
                /\ qlt k (sortKey (deref s it)) = false)
           /\ (qIsNaN k = false -> qIsNaN (sortKey (deref s it)) = false ->
               ((lower <= it < upper)%nat
                <-> qeq (sortKey (deref s it)) k = true)))
      /\ (qIsNaN k = true -> lower = begin_ s /\ upper = end_ s)
      /\ lower = (begin_ s + length (keysBelow k (live s)))%nat
      /\ upper = (begin_ s + length (keysNotAbove k (live s)))%nat
      /\ findBegin k true s
         = (if (lower =? begin_ s)%nat then begin_ s else lower - 1)%nat
      /\ findEnd k true s
         = (if (upper =? end_ s)%nat then end_ s else upper + 1)%nat).
Proof.
  intros Hs. split.
  { intros He e. unfold findBegin, findEnd. now rewrite He. }
  intros He. destruct (sortedStore_Layout Hs) as (pre & H & S).
  set (l := live s) in *.
  assert (Hne : l <> []).
  { intros El. rewrite (Layout_isEmpty H), El in He. discriminate. }
  cbv zeta.
  rewrite !(findBegin_Layout k _ H S Hne), !(findEnd_Layout k _ H S Hne).
  rewrite (Layout_begin H), (Layout_end H).
  simpl andb. cbv iota.
  pose proof (keysBelow_le_keysNotAbove k l) as Hle.
  split; [lia|]. split; [lia|]. split; [|split; [|split; [reflexivity|]]].
  - intros it Hit.
    replace it with (length pre + (it - length pre))%nat by lia.
    rewrite (Layout_deref _ H).
    assert (Hj : (it - length pre < length l)%nat) by lia.
    pose proof (nth_keysBelow k S Hj) as Hb.
    pose proof (nth_keysNotAbove k S Hj) as Ha.
    set (key := sortKey (nth (it - length pre) l defaultConstructed)) in *.
    assert (Hbr : (length pre + length (keysBelow k l)
                   <= length pre + (it - length pre)
                   < length pre + length (keysNotAbove k l))%nat
                  <-> qlt key k = false /\ qlt k key = false).
    { rewrite <- Ha. destruct (qlt key k) eqn:Ek.
      - assert ((it - length pre < length (keysBelow k l))%nat)
          by now apply Hb.
        split; [lia|intros [Hf _]; discriminate].
      - assert (~ (it - length pre < length (keysBelow k l))%nat).
        { intros Hlt. apply Hb in Hlt. discriminate. }
        split; [intros Hr; split; [reflexivity|lia]|intros [_ Hr]; lia]. }
    split; [exact Hbr|].
    intros Hk Hkey. rewrite Hbr. clearbody key. clear - Hk Hkey.
    destruct key, k; try discriminate. cbn. lia.
  - intros Hk. destruct k; [|discriminate].
    unfold keysBelow, keysNotAbove.
    rewrite filter_none, filter_all.
    + simpl. lia.
    + rewrite Forall_forall. intros x _. reflexivity.
    + rewrite Forall_forall. intros x _. unfold qlt.
      now destruct (sortKey x).
  - split; [reflexivity|]. split.
    + destruct (Nat.eqb_spec (length (keysBelow k l)) 0);
        destruct (Nat.eqb_spec (length pre + length (keysBelow k l))
                               (length pre)); simpl; lia.
    + destruct (Nat.eqb_spec (length (keysNotAbove k l)) (length l));
        destruct (Nat.eqb_spec (length pre + length (keysNotAbove k l))
                               (length pre + length l)); simpl; lia.
Qed.

(** C8 (as amended): [preallocateGrow(m)] changes nothing when the
    preallocation already holds [m] slots; otherwise the new preallocation
    size is [m + (2^c - 12)] with [c] the iteration counter plus 4 clamped
    into [[4, 15]], and the counter is incremented by one.  The power of two
    doubles from 16 to 32768 as the counter goes from 0 to 11, so that the
    increment goes from a floor of 16-12 = 4 to a ceiling of 32768-12. *)
Theorem preallocateGrow_schedule (m : Z) s :
  (m <= mPreallocSize s -> preallocateGrow m s = s)
  /\ (mPreallocSize s < m ->
      mPreallocSize (preallocateGrow m s)
      = m + growthIncrement (mPreallocIteration s)
      /\ mPreallocIteration (preallocateGrow m s) = mPreallocIteration s + 1)
  /\ (forall i, growthIncrement i = 2 ^ Z.max 4 (Z.min 15 (i + 4)) - 12)
  /\ (forall i, 4 <= growthIncrement i <= 32768 - 12)
  /\ (forall i, i <= 0 -> growthIncrement i = 16 - 12)
  /\ (forall i, 11 <= i -> growthIncrement i = 32768 - 12)
  /\ (forall i, 0 <= i < 11 ->
      growthIncrement (i + 1) + 12 = 2 * (growthIncrement i + 12)).
Proof.
  split; [|split].
  - intros Hle. unfold preallocateGrow.
    destruct (Z.leb_spec m (mPreallocSize s)); [reflexivity|lia].
  - intros Hlt. unfold preallocateGrow.
    destruct (Z.leb_spec m (mPreallocSize s)); [lia|]. split; reflexivity.
  - assert (Hform : forall i,
              growthIncrement i = 2 ^ Z.max 4 (Z.min 15 (i + 4)) - 12).
    { intros i. unfold growthIncrement, qBound.
      now rewrite Z.shiftl_1_l. }
    split; [exact Hform|]. split; [apply growthIncrement_bounds|].
    split; [|split].
    + intros i Hi. rewrite Hform.
      replace (Z.max 4 (Z.min 15 (i + 4))) with 4 by lia. reflexivity.
    + intros i Hi. rewrite Hform.
      replace (Z.max 4 (Z.min 15 (i + 4))) with 15 by lia. reflexivity.
    + intros i Hi. rewrite !Hform.
      replace (Z.max 4 (Z.min 15 (i + 1 + 4))) with (Z.succ (i + 4)) by lia.
      replace (Z.max 4 (Z.min 15 (i + 4))) with (i + 4) by lia.
      rewrite Z.pow_succ_r by lia. lia.
Qed.

(** C9 (as amended): [at(i)] is [constBegin()] advanced by [i] clamped into
    [[0, size()]]: for [i >= size()] it is [constEnd()], for [i < 0] it is
    [constBegin()], and for an index in bounds it is the iterator to the
    [i]-th point of the live range. *)
Theorem at_clamped (index : Z) s :
  wf s ->
  (begin_ s <= at_ s index <= end_ s)%nat
  /\ (size s <= index -> at_ s index = end_ s)
  /\ (index < 0 -> at_ s index = begin_ s)
  /\ (0 <= index < size s ->
      at_ s index = (begin_ s + Z.to_nat index)%nat
      /\ nth_error (items (mData s)) (at_ s index)
         = nth_error (live s) (Z.to_nat index)).
Proof.
  intros Hwf. pose proof (wf_Layout Hwf) as H.
  pose proof (Layout_size H) as Hsz.
  pose proof (Layout_end H) as Hend.
  pose proof (Layout_begin H) as Hbegin.
  destruct H as [Hitems _].
  set (pre := firstn (begin_ s) (items (mData s))) in *. clearbody pre.
  unfold at_, qBound.
  split; [lia|]. split; [lia|]. split; [lia|].
  intros Hi.
  replace (Z.to_nat (Z.max 0 (Z.min (size s) index))) with (Z.to_nat index)
    by lia.
  split; [reflexivity|].
  rewrite Hbegin, Hitems. apply nth_error_length_plus_app.
Qed.

Lemma autoSqueezeCheck_live s : wf s -> live (autoSqueezeCheck s) = live s.
Proof.
  intros Hwf. destruct (autoSqueezeCheck_Layout (wf_Layout Hwf)) as [pre' H'].
  exact (Layout_live H').
Qed.

(** The two outcomes of the search in [remove(sortKey)]. *)
Lemma remove_core_nomatch k s pre l :
  Layout s pre l -> KeySorted l ->
  (forall x, In x l -> qeq (sortKey x) k = false) -> remove_core k s = s.
Proof.
  intros H S Hno. unfold remove_core. cbv zeta.
  rewrite (lower_bound_Layout (fromSortKey k) H S), sortKey_fromSortKey.
  rewrite (Layout_end H), (Layout_deref _ H).
  destruct (Nat.eqb_spec (length pre + length (keysBelow k l))
                         (length pre + length l)) as [|Hlt];
    [reflexivity|].
  simpl negb. simpl andb.
  rewrite Hno; [reflexivity|].
  apply nth_In. pose proof (keysBelow_le_keysNotAbove k l). lia.
Qed.

(** In a sorted sequence the points after one whose key [==] [k] are not
    below [k]. *)
Lemma keysBelow_at_match k lo (x : DataType) rest :
  KeySorted (lo ++ x :: rest) ->
  Forall (fun y => qlt (sortKey y) k = true) lo ->
  qeq (sortKey x) k = true ->
  keysBelow k (lo ++ x :: rest) = lo.
Proof.
  intros S Hlo Hx. unfold keysBelow. rewrite filter_app. simpl.
  replace (qlt (sortKey x) k) with false by qlia.
  rewrite filter_all, filter_none.
  - apply app_nil_r.
  - apply KeySorted_app in S. destruct S as (_ & S2 & _).
    apply KeySorted_cons in S2. destruct S2 as [_ F].
    eapply Forall_impl; [|exact F]. cbv beta. intros y Hy. qlia.
  - exact Hlo.
Qed.

Lemma remove_core_match k s pre lo (x : DataType) rest :
  Layout s pre (lo ++ x :: rest) -> KeySorted (lo ++ x :: rest) ->
  Forall (fun y => qlt (sortKey y) k = true) lo ->
  qeq (sortKey x) k = true ->
  remove_core k s
  = if (length lo =? 0)%nat
    then setPreallocSize (mPreallocSize s + 1) s
    else setData (QVec.erase (begin_ s + length lo)
                             (Datatypes.S (begin_ s + length lo)) (mData s)) s.
Proof.
  intros H S Hlo Hx. unfold remove_core. cbv zeta.
  rewrite (lower_bound_Layout (fromSortKey k) H S), sortKey_fromSortKey.
  rewrite (@keysBelow_at_match k lo x rest S Hlo Hx).
  rewrite (Layout_end H), (Layout_deref _ H), (Layout_begin H).
  rewrite app_nth2, Nat.sub_diag by lia. simpl nth.
  rewrite length_app. simpl length.
  destruct (Nat.eqb_spec (length pre + length lo)
              (length pre + (length lo + Datatypes.S (length rest))));
    [lia|].
  rewrite Hx. simpl negb. simpl andb. cbv iota.
  destruct (Nat.eqb_spec (length pre + length lo) (length pre));
    destruct (Nat.eqb_spec (length lo) 0); try lia; reflexivity.
Qed.

(** The point that [remove] looks at on a sorted sequence holding a key
    that [==] [k]: the first of those points. *)
Lemma first_match_split k l :
  KeySorted l -> (exists x0, In x0 l /\ qeq (sortKey x0) k = true) ->
  exists l1 x l2,
    l = l1 ++ x :: l2 /\ qeq (sortKey x) k = true
    /\ Forall (fun y => qlt (sortKey y) k = true) l1
    /\ keysBelow k l = l1 /\ keysNotBelow k l = x :: l2.
Proof.
  intros S (x0 & Hin & Hk).
  pose proof (KeySorted_split_below k S) as Hsplit.
  assert (Hlo : Forall (fun y => qlt (sortKey y) k = true) (keysBelow k l))
    by apply Forall_filter_true.
  assert (Hin0 : In x0 (keysNotBelow k l)).
  { apply filter_In. split; [exact Hin|]. qlia. }
  destruct (keysNotBelow k l) as [|x rest] eqn:Ehi; [contradiction|].
  assert (Hhead : negb (qlt (sortKey x) k) = true).
  { assert (In x (keysNotBelow k l)) as Hx by (rewrite Ehi; now left).
    apply filter_In in Hx. tauto. }
  assert (Hx : qeq (sortKey x) k = true).
  { destruct Hin0 as [->|Hin0]; [exact Hk|].
    rewrite Hsplit in S. apply KeySorted_app in S. destruct S as (_ & Sx & _).
    apply KeySorted_cons in Sx. destruct Sx as [_ F].
    rewrite Forall_forall in F. specialize (F _ Hin0). qlia. }
  exists (keysBelow k l), x, rest. auto.
Qed.

(** C10 (as amended): on a sorted store, [remove(k)] leaves the live
    sequence as it is when no point has a sort key that [==] [k], which is
    so for every store when [k] is NaN; otherwise it removes exactly one
    point, the first of those whose sort key [==] [k]: by adding one to the
    preallocation size when it is the first live point, by erasing it from
    the buffer otherwise; the auto squeeze check follows. *)
Theorem remove_key_exact (k : qreal) s :
  sortedStore s ->
  ((forall x, In x (live s) -> qeq (sortKey x) k = false) ->
   live (remove k s) = live s)
  /\ (qIsNaN k = true -> live (remove k s) = live s)
  /\ ((exists x, In x (live s) /\ qeq (sortKey x) k = true) ->
      exists l1 x l2,
        live s = l1 ++ x :: l2 /\ qeq (sortKey x) k = true
        /\ Forall (fun y => qlt (sortKey y) k = true) l1
        /\ live (remove k s) = l1 ++ l2
        /\ (l1 = [] ->
            remove k s
            = autoSqueezeCheck (setPreallocSize (mPreallocSize s + 1) s))
        /\ (l1 <> [] ->
            remove k s
            = autoSqueezeCheck
                (setData (QVec.erase (begin_ s + length l1)
                            (Datatypes.S (begin_ s + length l1)) (mData s))
                         s))).
Proof.
  intros Hs. destruct (sortedStore_Layout Hs) as (pre & H & S).
  rewrite remove_unfold.
  assert (Hnone : (forall x, In x (live s) -> qeq (sortKey x) k = false) ->
                  live (autoSqueezeCheck (remove_core k s)) = live s).
  { intros Hno. rewrite (@remove_core_nomatch k s pre (live s) H S Hno).
    apply autoSqueezeCheck_live. apply Hs. }
  split; [exact Hnone|]. split.
  - intros Hk. apply Hnone. intros x _. destruct k; [|discriminate].
    unfold qeq. now destruct (sortKey x).
  - intros Hex.
    destruct (@first_match_split k (live s) S Hex)
      as (l1 & x & l2 & Hsplit & Hx & Hlo & Hb & Hnb).
    exists l1, x, l2.
    pose proof H as H0. pose proof S as S0. rewrite Hsplit in H0, S0.
    pose proof (@remove_core_match k s pre l1 x l2 H0 S0 Hlo Hx) as Hcore.
    destruct (remove_core_Layout k H S) as [pre' H'].
    split; [exact Hsplit|]. split; [exact Hx|]. split; [exact Hlo|].
    split; [|split].
    + rewrite (autoSqueezeCheck_live (Layout_wf H')), (Layout_live H').
      unfold remove_result. rewrite Hb, Hnb, Hx. reflexivity.
    + intros ->. now rewrite Hcore.
    + intros Hne. rewrite Hcore.
      destruct l1; [contradiction|reflexivity].
Qed.

(** What the two one-sided removals do on a sorted store: [removeBefore]
    keeps the points whose key is not below the given one, [removeAfter] the
    points whose key is not above the given one. *)
Lemma removeBefore_live (k : qreal) s :
  sortedStore s -> live (removeBefore k s) = keysNotBelow k (live s).
Proof.
  intros Hs. destruct (sortedStore_Layout Hs) as (pre & H & S).
  destruct (removeBefore_Layout k H S) as [pre' H'].
  exact (Layout_live H').
Qed.

Lemma removeAfter_live (k : qreal) s :
  sortedStore s -> live (removeAfter k s) = keysNotAbove k (live s).
Proof.
  intros Hs. destruct (sortedStore_Layout Hs) as (pre & H & S).
  destruct (removeAfter_Layout k H S) as [pre' H'].
  exact (Layout_live H').
Qed.
End Claims.

(** ** Further properties of the container *)
Section ContainerProperties.
Context {DataType : Type} {DT : QCPDataType DataType}.
Context {alloc : QVectorAlloc} {sorter : @StdSort DataType DT}.
Implicit Types s : @QCPDataContainer DataType.
Implicit Types pre l : list DataType.

Lemma keys_split_length k l :
  length l = (length (keysBelow k l) + length (keysNotBelow k l))%nat.
Proof.
  rewrite <- length_app. apply Permutation_length, keys_split_perm.
Qed.


(** X1: on a sorted store [removeBefore(k)] keeps exactly the points whose
    sort key is not below [k] (a point with key [k] stays), in their order,
    and [size()] drops by the number of points below [k]. *)
Theorem removeBefore_keeps_not_below (k : qreal) s :
  sortedStore s ->
  live (removeBefore k s) = keysNotBelow k (live s)
  /\ size (removeBefore k s)
     = size s - Z.of_nat (length (keysBelow k (live s)))
  /\ sortedStore (removeBefore k s).
Proof.
  intros Hs. destruct (sortedStore_Layout Hs) as (pre & H & S).
  destruct (removeBefore_Layout k H S) as [pre' H'].
  rewrite (Layout_live H'), (Layout_size H'), (Layout_size H).
  split; [reflexivity|]. split.
  - rewrite (keys_split_length k (live s)). lia.
  - apply (Layout_sortedStore H'). now apply KeySorted_filter.
Qed.

(** X2: on a sorted store [removeAfter(k)] removes exactly the points whose
    sort key is above [k] and keeps the others in their order: a point with
    key [k] stays, and for a NaN [k], above which no key is, every point
    stays.  The preallocation does not grow. *)
Theorem removeAfter_keeps_not_above (k : qreal) s :
  sortedStore s ->
  live (removeAfter k s) = keysNotAbove k (live s)
  /\ (forall x, In x (live (removeAfter k s))
                <-> In x (live s) /\ qlt k (sortKey x) = false)
  /\ size (removeAfter k s) = Z.of_nat (length (keysNotAbove k (live s)))
  /\ mPreallocSize (removeAfter k s) <= mPreallocSize s
  /\ sortedStore (removeAfter k s).
Proof.
  intros Hs. destruct (sortedStore_Layout Hs) as (pre & H & S).
  pose proof (removeAfter_erase k H S) as He. cbv zeta in He.
  unfold removeAfter. cbv zeta.
  set (erased := setData _ s) in *.
  destruct (autoSqueezeCheck_Layout He) as [pre' H'].
  rewrite (Layout_live H'), (Layout_size H').
  split; [reflexivity|]. split; [|split; [reflexivity|split]].
  - intros x. unfold keysNotAbove. rewrite filter_In, negb_true_iff.
    reflexivity.
  - destruct H as [_ Hp]. destruct He as [_ Hep]. rewrite Hp.
    unfold autoSqueezeCheck, performAutoSqueeze, squeeze.
    repeat match goal with
           | |- context [if ?c then _ else _] => destruct c
           end; simpl; rewrite ?Hep; lia.
  - apply (Layout_sortedStore H'). now apply KeySorted_filter.
Qed.



(** X5: [add(vector, alreadySorted)] on any store adds exactly the points of
    the vector: the live sequence becomes a rearrangement of the old live
    sequence followed by the vector, and [size()] grows by the size of the
    vector, for both values of [alreadySorted]. *)
Theorem add_vector_accounting (data : QVector DataType)
  (alreadySorted : bool) s :
  wf s ->
  Permutation (live s ++ items data)
              (live (add_vector data alreadySorted s))
  /\ size (add_vector data alreadySorted s) = size s + QVec.size data
  /\ wf (add_vector data alreadySorted s).
Proof.
  intros Hwf. pose proof (wf_Layout Hwf) as H.
  destruct (add_vector_Layout data alreadySorted H)
    as (pre' & l' & H' & HP & _).
  rewrite (Layout_live H'), (Layout_size H'), (Layout_size H).
  split; [exact HP|]. split; [|exact (Layout_wf H')].
  apply Permutation_length in HP. rewrite length_app in HP.
  unfold QVec.size. lia.
Qed.

(** A container set from itself is emptied: [c.set(c)] is [c.clear()]. *)
Lemma set_container_self_clears (s : @QCPDataContainer DataType) :
  set_container_self s = Some (clear s).
Proof. reflexivity. Qed.

(** X6: [add(container)] adds exactly the points of the other container, and
    [set(container)] leaves exactly its live sequence, in its order. *)
Theorem add_set_container_accounting (data s : @QCPDataContainer DataType) :
  wf s -> wf data ->
  Permutation (live s ++ live data) (live (add_container data s))
  /\ size (add_container data s) = size s + size data
  /\ live (set_container data s) = live data
  /\ size (set_container data s) = size data.
Proof.
  intros Hwf Hwd. pose proof (wf_Layout Hwf) as H.
  pose proof (wf_Layout Hwd) as Hd.
  destruct (add_container_Layout Hd H) as (pre' & l' & H' & HP & _).
  destruct (set_container_Layout s Hd) as [pre2 H2].
  rewrite (Layout_live H'), (Layout_size H'), (Layout_size H).
  rewrite (Layout_live H2), (Layout_size H2), (Layout_size Hd).
  split; [exact HP|]. split; [|split; reflexivity].
  apply Permutation_length in HP. rewrite length_app in HP. lia.
Qed.

(** [add] inserts the point somewhere into the sequence, which it otherwise
    leaves as it is. *)
Lemma add_result_inserts (p : DataType) l :
  KeySorted l ->
  exists a b, add_result p l = a ++ p :: b /\ l = a ++ b.
Proof.
  intros S. destruct l as [|x l'] eqn:El.
  { exists [], []. split; reflexivity. }
  rewrite (add_result_unfold p x l'). cbv zeta. rewrite <- El in *.
  destruct (negb _).
  - exists l, []. now rewrite app_nil_r.
  - destruct (qlt _ _).
    + exists [], l. split; reflexivity.
    + exists (keysBelow (sortKey p) l), (keysNotBelow (sortKey p) l).
      split; [reflexivity|]. now apply KeySorted_split_below.
Qed.

Lemma app_cons_unique (p : DataType) : forall a b l1 l2,
  a ++ p :: b = l1 ++ p :: l2 -> ~ In p a -> ~ In p l1 ->
  a = l1 /\ b = l2.
Proof.
  induction a as [|y a IH]; intros b l1 l2 He Ha Hl.
  - destruct l1 as [|z l1]; simpl in He.
    + inversion He. auto.
    + inversion He; subst. exfalso. apply Hl. now left.
  - destruct l1 as [|z l1]; simpl in He.
    + inversion He; subst. exfalso. apply Ha. now left.
    + inversion He; subst.
      destruct (IH b l1 l2) as [-> ->]; auto.
      * intros Hi. apply Ha. now right.
      * intros Hi. apply Hl. now right.
Qed.

(** X7: on a sorted store without NaN keys, adding a point whose key is not
    NaN and then removing its key gives back the key sequence and the size
    of the store; when no point of the store had a key that [==] that key,
    it gives back the live sequence itself. *)
Theorem add_remove_roundtrip (p : DataType) s :
  sortedStore s -> NoNaNKeys (live s) -> qIsNaN (sortKey p) = false ->
  map sortKey (live (remove (sortKey p) (add p s))) = map sortKey (live s)
  /\ size (remove (sortKey p) (add p s)) = size s
  /\ ((forall x, In x (live s) -> qeq (sortKey x) (sortKey p) = false) ->
      live (remove (sortKey p) (add p s)) = live s).
Proof.
  intros Hs N Hp. destruct (sortedStore_Layout Hs) as (pre & H & S).
  set (l := live s) in *.
  destruct (add_Layout p H S) as [pre1 H1].
  pose proof (add_result_sorted p S N Hp) as S1.
  pose proof (add_result_perm p l) as P1.
  destruct (remove_Layout (sortKey p) H1 S1) as [pre2 H2].
  rewrite (Layout_live H2), (Layout_size H2), (Layout_size H).
  destruct (@first_match_split _ _ (sortKey p) (add_result p l) S1)
    as (l1 & x & l2 & He & Hx & Hlo & Hb & Hnb).
  { exists p. split; [|qlia].
    eapply Permutation_in; [exact P1|]. apply in_or_app. right. now left. }
  assert (Hr : remove_result (sortKey p) (add_result p l) = l1 ++ l2).
  { unfold remove_result. now rewrite Hb, Hnb, Hx. }
  rewrite Hr.
  assert (Hkx : sortKey x = sortKey p).
  { clear - Hx. destruct (sortKey x), (sortKey p); try discriminate.
    f_equal. qlia. }
  assert (HP : Permutation (x :: l1 ++ l2) (p :: l)).
  { rewrite Permutation_middle, <- He, <- P1.
    apply Permutation_app_comm. }
  assert (Hkeys : map sortKey (l1 ++ l2) = map sortKey l).
  { apply sorted_keys_unique.
    - apply KeySorted_keys. rewrite He in S1.
      apply KeySorted_app in S1. destruct S1 as (Sa & Sb & Sc).
      apply KeySorted_cons in Sb. destruct Sb as [Sb _].
      apply KeySorted_app. repeat split; auto.
      intros u v Hu Hv. apply Sc; simpl; auto.
    - now apply KeySorted_keys.
    - apply (Permutation_map sortKey) in HP. simpl in HP.
      rewrite Hkx in HP. eapply Permutation_cons_inv. exact HP. }
  split; [exact Hkeys|]. split.
  - f_equal. rewrite <- (length_map sortKey (l1 ++ l2)), Hkeys.
    apply length_map.
  - intros Hno.
    destruct (add_result_inserts p S) as (a & b & Ha & Hl).
    assert (Hpp : qeq (sortKey p) (sortKey p) = true) by qlia.
    assert (x = p) as ->.
    { assert (In x (p :: l)) as Hin
        by (eapply Permutation_in; [exact HP | now left]).
      destruct Hin as [<-|Hin]; [reflexivity|].
      exfalso. rewrite (Hno x Hin) in Hx. discriminate. }
    rewrite Ha in He.
    destruct (@app_cons_unique p a b l1 l2 He) as [-> ->].
    + intros Hi. rewrite (Hno p) in Hpp; [discriminate|].
      rewrite Hl. apply in_or_app. now left.
    + intros Hi. rewrite Forall_forall in Hlo. specialize (Hlo _ Hi). qlia.
    + now symmetry.
Qed.

(** When no point of the live range is below or above a key, the bracket
    of the key is the whole live range; no order is asked of the range. *)
Lemma bracket_whole k s pre l :
  Layout s pre l -> l <> [] ->
  Forall (fun m => qlt (sortKey m) k = false /\ qlt k (sortKey m) = false)
         l ->
  findBegin k false s = length pre
  /\ findEnd k false s = (length pre + length l)%nat.
Proof.
  intros H Hne Hall. unfold findBegin, findEnd.
  rewrite (Layout_isEmpty H). destruct l as [|x l'] eqn:El; [contradiction|].
  rewrite <- El in *. cbv zeta. simpl andb. cbv iota.
  rewrite (Layout_begin H), (Layout_end H). destruct H as [Hi _].
  rewrite Hi. split.
  - pose proof (@lower_bound_partitioned _ qcpLessThanSortKey pre [] l []
                  (fromSortKey k)) as Hlb.
    simpl in Hlb. rewrite app_nil_r, Nat.add_0_r in Hlb. apply Hlb.
    + constructor.
    + eapply Forall_impl; [|exact Hall]. cbv beta. intros m [Hm _].
      unfold qcpLessThanSortKey. now rewrite sortKey_fromSortKey.
  - pose proof (@upper_bound_partitioned _ qcpLessThanSortKey pre l [] []
                  (fromSortKey k)) as Hub.
    simpl in Hub. rewrite !app_nil_r, Nat.add_0_r in Hub. apply Hub.
    + eapply Forall_impl; [|exact Hall]. cbv beta. intros m [_ Hm].
      unfold qcpLessThanSortKey. now rewrite sortKey_fromSortKey.
    + constructor.
Qed.

(** X8: after [add(p)] on a sorted store the point is found by its key: the
    store is one point larger, and some position of the range
    [[findBegin(key, false), findEnd(key, false))] holds [p].  This holds
    for a NaN key too, whose bracket is the whole live range. *)
Theorem add_then_find (p : DataType) s :
  sortedStore s ->
  size (add p s) = size s + 1
  /\ exists it,
       (findBegin (sortKey p) false (add p s) <= it
        < findEnd (sortKey p) false (add p s))%nat
       /\ nth_error (items (mData (add p s))) it = Some p.
Proof.
  intros Hs. destruct (sortedStore_Layout Hs) as (pre & H & S).
  set (l := live s) in *.
  destruct (add_Layout p H S) as [pre1 H1].
  pose proof (add_result_perm p l) as P1.
  destruct (add_result_inserts p S) as (a & b & Ha & Hl).
  rewrite (Layout_size H1), (Layout_size H). split.
  { rewrite <- (Permutation_length P1), length_app. simpl. lia. }
  assert (Hne : add_result p l <> [])
    by (rewrite Ha; destruct a; discriminate).
  assert (Hj : (length a < length (add_result p l))%nat)
    by (rewrite Ha, length_app; simpl; lia).
  assert (Hnth : nth (length a) (add_result p l) defaultConstructed = p).
  { rewrite Ha, app_nth2, Nat.sub_diag by lia. reflexivity. }
  assert (Hat : nth_error (items (mData (add p s)))
                          (length pre1 + length a) = Some p).
  { destruct H1 as [Hi _]. rewrite Hi, nth_error_length_plus_app, Ha.
    rewrite nth_error_app2, Nat.sub_diag by lia. reflexivity. }
  exists (length pre1 + length a)%nat. split; [|exact Hat].
  assert (Hcases : (NoNaNKeys l /\ qIsNaN (sortKey p) = false)
                   \/ Forall (fun m => qlt (sortKey m) (sortKey p) = false
                                       /\ qlt (sortKey p) (sortKey m) = false)
                             (add_result p l)).
  { destruct (qIsNaN (sortKey p)) eqn:Hp.
    - right. rewrite Forall_forall. intros m _. qlia.
    - destruct (KeySorted_cases S) as [N|[x Hx]]; [left; auto|].
      destruct (qIsNaN (sortKey x)) eqn:Ex.
      + right. eapply Permutation_Forall; [exact P1|]. rewrite Hx.
        repeat constructor; qlia.
      + left. split; [|reflexivity]. rewrite Hx. now repeat constructor. }
  destruct Hcases as [[N Hp]|Hall].
  - pose proof (add_result_sorted p S N Hp) as S1.
    rewrite (findBegin_Layout (sortKey p) false H1 S1 Hne).
    rewrite (findEnd_Layout (sortKey p) false H1 S1 Hne).
    simpl andb. cbv iota.
    pose proof (nth_keysBelow (sortKey p) S1 Hj) as Hb.
    pose proof (nth_keysNotAbove (sortKey p) S1 Hj) as Hm.
    rewrite Hnth in Hb, Hm.
    assert (Hpp : qlt (sortKey p) (sortKey p) = false) by qlia.
    rewrite Hpp in Hb, Hm.
    assert ((length a < length (keysNotAbove (sortKey p)
                                             (add_result p l)))%nat)
      by now apply Hm.
    assert (~ (length a < length (keysBelow (sortKey p)
                                            (add_result p l)))%nat).
    { intros Hlt. apply Hb in Hlt. discriminate. }
    lia.
  - destruct (@bracket_whole (sortKey p) _ _ _ H1 Hne Hall) as [-> ->]. lia.
Qed.

(** With auto squeeze disabled, or with at most 1000 allocated elements, the
    auto squeeze check leaves the store as it is. *)
Lemma autoSqueezeCheck_idle s :
  mAutoSqueeze s = false \/ capacity (mData s) <= 1000 ->
  autoSqueezeCheck s = s.
Proof.
  intros Hc. unfold autoSqueezeCheck.
  destruct (mAutoSqueeze s) eqn:Ea; [|reflexivity].
  destruct Hc as [Hc|Hc]; [discriminate|].
  unfold performAutoSqueeze.
  destruct (Z.ltb_spec 650000 (capacity (mData s))); [lia|].
  destruct (Z.ltb_spec 1000 (capacity (mData s))); [lia|].
  reflexivity.
Qed.

(** X9: with auto squeeze disabled, or with at most 1000 allocated elements,
    no removal changes the allocated capacity or the growth iteration, and
    [removeBefore] does not touch the vector at all: the points it removes
    are only counted into the preallocation. *)
Theorem removals_keep_allocation (k k2 : qreal) s :
  mAutoSqueeze s = false \/ capacity (mData s) <= 1000 ->
  mData (removeBefore k s) = mData s
  /\ capacity (mData (removeAfter k s)) = capacity (mData s)
  /\ capacity (mData (remove_range k k2 s)) = capacity (mData s)
  /\ capacity (mData (remove k s)) = capacity (mData s)
  /\ mPreallocIteration (removeBefore k s) = mPreallocIteration s
  /\ mPreallocIteration (removeAfter k s) = mPreallocIteration s
  /\ mPreallocIteration (remove_range k k2 s) = mPreallocIteration s
  /\ mPreallocIteration (remove k s) = mPreallocIteration s.
Proof.
  intros Hc.
  unfold removeBefore, removeAfter, remove_range, remove. cbv zeta.
  repeat split.
  all: repeat match goal with
         | |- context [if ?c then _ else _] => destruct c
         end;
       try reflexivity;
       rewrite autoSqueezeCheck_idle by exact Hc; reflexivity.
Qed.

Lemma squeeze_fields a b s :
  wf s ->
  mPreallocSize (squeeze a b s) = (if a then 0 else mPreallocSize s)
  /\ mPreallocIteration (squeeze a b s)
     = (if a then 0 else mPreallocIteration s)
  /\ (b = true ->
      capacity (mData (squeeze a b s)) = QVec.size (mData (squeeze a b s))).
Proof.
  intros [Hlo Hhi]. unfold squeeze.
  destruct a; [destruct (Z.ltb_spec 0 (mPreallocSize s))|]; destruct b;
    simpl; repeat split; try reflexivity; try lia; try discriminate.
Qed.

(** An [int] expression whose value lies in the range of [int] has that
    value. *)
Lemma wrapInt_in_range z : - 2 ^ 31 <= z < 2 ^ 31 -> wrapInt z = z.
Proof.
  intros Hz. unfold wrapInt. rewrite Z.mod_small; lia.
Qed.

(** The decision of [performAutoSqueeze] on the preallocation. *)
Definition shrinksPreallocation s : bool :=
  if 650000 <? capacity (mData s)
  then size s <? wrapInt (mPreallocSize s * 10)
  else if 1000 <? capacity (mData s) then 3 * size s <? 2 * mPreallocSize s
  else false.

Lemma performAutoSqueeze_prealloc s :
  wf s ->
  mPreallocSize (performAutoSqueeze s)
  = if shrinksPreallocation s then 0 else mPreallocSize s.
Proof.
  intros Hwf. unfold performAutoSqueeze. cbv zeta.
  fold (shrinksPreallocation s).
  match goal with
  | |- context [if ?a || ?b then squeeze ?a ?b s else s] =>
      destruct a eqn:Ea; destruct b eqn:Eb
  end; cbn [orb]; cbv iota; try reflexivity.
  - now destruct (squeeze_fields true true Hwf) as (-> & _).
  - now destruct (squeeze_fields true false Hwf) as (-> & _).
Qed.

(** X10: after a [removeBefore] with auto squeeze enabled on a store with
    more than 1000 allocated elements, the preallocation is bounded by the
    number of live points: at most one and a half times it up to 650000
    allocated elements; above, at most a tenth of it, as long as the vector
    holds at most 214748364 elements, so that ten times the preallocation
    size is in the range of [int]. *)
Theorem removeBefore_bounds_preallocation (k : qreal) s :
  sortedStore s -> mAutoSqueeze s = true -> 1000 < capacity (mData s) ->
  let s' := removeBefore k s in
  (650000 < capacity (mData s) -> QVec.size (mData s) <= 214748364 ->
   mPreallocSize s' * 10 <= size s')
  /\ (capacity (mData s) <= 650000 -> 2 * mPreallocSize s' <= 3 * size s').
Proof.
  intros Hs Ha Hcap s'.
  destruct (sortedStore_Layout Hs) as (pre & H & S).
  pose proof (removeBefore_fold k H S) as Hf. cbv zeta in Hf.
  subst s'. unfold removeBefore. cbv zeta.
  set (s1 := setPreallocSize _ s) in *.
  assert (Ha1 : mAutoSqueeze s1 = true) by exact Ha.
  assert (Hc1 : capacity (mData s1) = capacity (mData s)) by reflexivity.
  assert (Hd1 : QVec.size (mData s1) = QVec.size (mData s)) by reflexivity.
  pose proof (Layout_wf Hf) as Hwf1.
  pose proof (Layout_size Hf) as Hsz1.
  unfold autoSqueezeCheck. rewrite Ha1.
  destruct (performAutoSqueeze_Layout Hf) as [pre' H'].
  rewrite (Layout_size H'), <- Hsz1.
  rewrite (performAutoSqueeze_prealloc Hwf1).
  unfold shrinksPreallocation. rewrite Hc1.
  assert (0 <= size s1) by (unfold wf, size in *; lia).
  destruct (Z.ltb_spec 650000 (capacity (mData s))).
  - split; [intros _ Hsize|lia].
    rewrite wrapInt_in_range by (unfold wf in Hwf1; lia).
    destruct (Z.ltb_spec (size s1) (mPreallocSize s1 * 10)); lia.
  - destruct (Z.ltb_spec 1000 (capacity (mData s))); [|lia].
    split; [lia|intros _].
    destruct (Z.ltb_spec (3 * size s1) (2 * mPreallocSize s1)); lia.
Qed.

(** X11: [squeeze(true, true)] releases both pools: the vector holds exactly
    the live sequence, the preallocation size and the growth iteration are
    zero, and the capacity is [size()]. *)
Theorem squeeze_releases_all s :
  wf s ->
  items (mData (squeeze true true s)) = live s
  /\ mPreallocSize (squeeze true true s) = 0
  /\ mPreallocIteration (squeeze true true s) = 0
  /\ capacity (mData (squeeze true true s)) = size s.
Proof.
  intros Hwf. pose proof (wf_Layout Hwf) as H.
  destruct (squeeze_fields true true Hwf) as (Hp & Hit & Hcap).
  destruct (squeeze_Layout true true H) as [pre' H'].
  pose proof (Layout_size H') as Hsz. pose proof (Layout_size H) as Hsz0.
  destruct H' as [Hi' Hp'].
  assert (pre' = []) as ->.
  { destruct pre'; [reflexivity|]. rewrite Hp in Hp'. simpl in Hp'. lia. }
  split; [exact Hi'|]. split; [exact Hp|]. split; [exact Hit|].
  rewrite (Hcap eq_refl). unfold size in Hsz. rewrite Hp in Hsz. lia.
Qed.

(** X12: [preallocateGrow(m)] leaves the live sequence as it is and ends
    with a preallocation of at least [m] slots that is not smaller than
    before. *)
Theorem preallocateGrow_postcondition (m : Z) s :
  wf s ->
  live (preallocateGrow m s) = live s
  /\ size (preallocateGrow m s) = size s
  /\ m <= mPreallocSize (preallocateGrow m s)
  /\ mPreallocSize s <= mPreallocSize (preallocateGrow m s)
  /\ wf (preallocateGrow m s).
Proof.
  intros Hwf. pose proof (wf_Layout Hwf) as H.
  destruct (preallocateGrow_Layout m H) as (pre' & H' & Hm).
  rewrite (Layout_live H'), (Layout_size H'), (Layout_size H).
  split; [reflexivity|]. split; [reflexivity|].
  destruct H' as [Hi' Hp']. split; [lia|]. split.
  - unfold preallocateGrow in *.
    destruct (Z.leb_spec m (mPreallocSize s)); [lia|]. simpl in *. lia.
  - unfold wf, QVec.size. rewrite Hi', Hp', length_app. lia.
Qed.

(** X13: [sort()] rearranges the live points of any store and leaves
    [size()] and the preallocation as they are; when no sort key of the store
    is NaN, whatever the order of the live points was (for instance after
    sort keys were edited through the iterators), afterwards they are in
    non-decreasing order of sort key. *)
Theorem sort_restores_order s :
  wf s ->
  Permutation (live s) (live (sort s))
  /\ size (sort s) = size s
  /\ mPreallocSize (sort s) = mPreallocSize s
  /\ (NoNaNKeys (live s) ->
      sortedStore (sort s) /\ NoNaNKeys (live (sort s))).
Proof.
  intros Hwf. pose proof (wf_Layout Hwf) as H.
  pose proof (sort_Layout H) as H'.
  rewrite (Layout_live H'), (Layout_size H'), (Layout_size H).
  split; [apply sort_range_perm|]. split; [|split; [reflexivity|]].
  - f_equal. symmetry. apply Permutation_length, sort_range_perm.
  - intros N. split.
    + apply (Layout_sortedStore H'). now apply sort_range_sorted.
    + eapply NoNaNKeys_perm; [apply sort_range_perm|exact N].
Qed.

Lemma performAutoSqueeze_flag s :
  mAutoSqueeze (performAutoSqueeze s) = mAutoSqueeze s.
Proof.
  unfold performAutoSqueeze, squeeze.
  repeat match goal with
         | |- context [if ?c then _ else _] => destruct c
         end; reflexivity.
Qed.

(** X14: [setAutoSqueeze(enabled)] sets the flag and leaves the live
    sequence and [size()] as they are, also when enabling it squeezes the
    store; setting the value the flag already has changes nothing. *)
Theorem setAutoSqueeze_transparent (enabled : bool) s :
  wf s ->
  mAutoSqueeze (setAutoSqueeze enabled s) = enabled
  /\ live (setAutoSqueeze enabled s) = live s
  /\ size (setAutoSqueeze enabled s) = size s
  /\ (mAutoSqueeze s = enabled -> setAutoSqueeze enabled s = s).
Proof.
  intros Hwf. pose proof (wf_Layout Hwf) as H.
  destruct (setAutoSqueeze_Layout enabled H) as [pre' H'].
  rewrite (Layout_live H'), (Layout_size H'), (Layout_size H).
  split; [|split; [reflexivity|split; [reflexivity|]]].
  - unfold setAutoSqueeze.
    destruct (Bool.eqb (mAutoSqueeze s) enabled) eqn:E.
    + now apply Bool.eqb_prop.
    + cbv zeta. destruct enabled; [|reflexivity].
      now rewrite performAutoSqueeze_flag.
  - intros He. unfold setAutoSqueeze.
    rewrite He, Bool.eqb_reflx. reflexivity.
Qed.
End ContainerProperties.

(** ** The running minimum and maximum of the range searches *)
Section RunningBound.
Variable cmp : Z -> Z -> bool.
Variable le' : Z -> Z -> Prop.
Hypothesis cmp_true : forall x y, cmp x y = true -> le' x y.
Hypothesis cmp_false : forall x y, cmp x y = false -> le' y x.
Hypothesis le'_trans : forall x y z, le' x y -> le' y z -> le' x z.
Variable ok : qreal -> bool.

Definition better (a b : qreal) : bool :=
  match a, b with Num x, Num y => cmp x y | _, _ => false end.

(** One update of a bound: [if ((current better than bound || !have) && ok)
    { bound = current; have = true; }]. *)
Definition pick (st : qreal * bool) (current : qreal) : qreal * bool :=
  if (better current (fst st) || negb (snd st)) && ok current
  then (current, true) else st.

Lemma fold_pick_spec (cs : list qreal) : forall st,
  (forall c, In c cs -> ok c = true -> exists z, c = Num z) ->
  (snd st = true -> exists z, fst st = Num z) ->
  let st' := fold_left pick cs st in
  snd st' = snd st || existsb ok cs
  /\ (snd st' = true ->
      exists m, fst st' = Num m
        /\ (forall z, In (Num z) cs -> ok (Num z) = true -> le' m z)
        /\ (snd st = true -> forall z0, fst st = Num z0 -> le' m z0)
        /\ ((snd st = true /\ fst st = Num m)
            \/ (In (Num m) cs /\ ok (Num m) = true))).
Proof.
  induction cs as [|c cs IH]; intros st Hnum Hst; simpl.
  - rewrite orb_false_r. split; [reflexivity|].
    intros Hh. destruct (Hst Hh) as [m Hm]. exists m.
    split; [exact Hm|]. split; [intros z []|]. split.
    + intros _ z0 Hz0. rewrite Hm in Hz0. inversion Hz0; subst.
      destruct (cmp z0 z0) eqn:E; [now apply cmp_true|now apply cmp_false].
    + left. auto.
  - assert (Hnum' : forall c0, In c0 cs -> ok c0 = true -> exists z, c0 = Num z)
      by (intros c0 Hc0; apply Hnum; now right).
    remember (pick st c) as st1 eqn:E1. unfold pick in E1.
    destruct ((better c (fst st) || negb (snd st)) && ok c) eqn:Ec;
      subst st1.
    + apply andb_prop in Ec. destruct Ec as [Eb Eok].
      destruct (Hnum c (or_introl eq_refl) Eok) as [zc ->].
      destruct (IH (Num zc, true) Hnum' (fun _ => ex_intro _ zc eq_refl))
        as [Hhave Hrest].
      simpl in Hhave, Hrest. rewrite Hhave, Eok. simpl.
      rewrite orb_true_r.
      split; [reflexivity|]. intros _.
      destruct (Hrest Hhave) as (m & Hm & Hall & Hinit & Hatt).
      exists m. split; [exact Hm|]. split; [|split].
      * intros z [Hz|Hz] Hok; [|now apply Hall].
        inversion Hz; subst. now apply (Hinit eq_refl).
      * intros Hh z0 Hz0. rewrite Hh, Hz0 in Eb. simpl in Eb.
        rewrite orb_false_r in Eb.
        apply le'_trans with zc; [now apply (Hinit eq_refl)|].
        now apply cmp_true.
      * right. destruct Hatt as [[_ Hm']|[Hin Hok]].
        -- inversion Hm'; subst. split; [now left|exact Eok].
        -- split; [now right|exact Hok].
    + destruct (IH st Hnum' Hst) as [Hhave Hrest].
      assert (Hskip : ok c = true ->
                      snd st = true /\ better c (fst st) = false).
      { intros Hok. rewrite Hok, andb_true_r in Ec.
        apply orb_false_elim in Ec. destruct Ec as [Eb En].
        apply negb_false_iff in En. auto. }
      split.
      * rewrite Hhave. destruct (ok c) eqn:Hok; [|reflexivity].
        destruct (Hskip eq_refl) as [-> _]. reflexivity.
      * intros Hh. destruct (Hrest Hh) as (m & Hm & Hall & Hinit & Hatt).
        exists m. split; [exact Hm|]. split; [|split; [exact Hinit|]].
        -- intros z [Hz|Hz] Hok; [|now apply Hall].
           subst c. destruct (Hskip Hok) as [Hs Hb].
           destruct (Hst Hs) as [z0 Hz0]. rewrite Hz0 in Hb. simpl in Hb.
           apply le'_trans with z0; [now apply Hinit|now apply cmp_false].
        -- destruct Hatt as [Hl|[Hin Hok]]; [now left|].
           right. split; [now right|exact Hok].
Qed.
Lemma fold_pick_have (cs : list qreal) : forall st,
  snd (fold_left pick cs st) = snd st || existsb ok cs.
Proof.
  induction cs as [|c cs IH]; intros st; simpl.
  - now rewrite orb_false_r.
  - rewrite IH. unfold pick.
    destruct (ok c); [|now rewrite andb_false_r].
    rewrite andb_true_r.
    destruct (better c (fst st) || negb (snd st)) eqn:E; simpl.
    + now rewrite orb_true_r.
    + apply orb_false_elim in E. destruct E as [_ E].
      apply negb_false_iff in E. now rewrite E.
Qed.
End RunningBound.


(** ** keyRange and valueRange *)
Section RangeFacts.
Context {DataType : Type} {DT : QCPDataType DataType}.
Context {PT : @QCPPlotDataType DataType DT}.
Context {alloc : QVectorAlloc}.
Implicit Types s : @QCPDataContainer DataType.
Implicit Types l : list DataType.
Implicit Types acc : RangeSearch.

Definition lowerState acc : qreal * bool := (lower (range acc), haveLower acc).
Definition upperState acc : qreal * bool := (upper (range acc), haveUpper acc).

(** The main value of a point is a number. *)
Definition hasValue (p : DataType) : bool := negb (qIsNaN (mainValue p)).

Definition pickMin := pick Z.ltb.
Definition pickMax := pick (fun x y => y <? x).

Lemma qgt_better a b : qlt b a = better (fun x y => y <? x) a b.
Proof. destruct a, b; reflexivity. Qed.

Lemma keyStep_lower sd acc p :
  lowerState (keyStep sd acc p)
  = if hasValue p
    then pickMin (inSignDomain sd) (lowerState acc) (mainKey p)
    else lowerState acc.
Proof.
  unfold keyStep, hasValue, pickMin, pick, lowerState.
  change (better Z.ltb) with qlt. cbn [fst snd].
  destruct (negb (qIsNaN (mainValue p))); [|reflexivity].
  cbv zeta.
  destruct ((qlt (mainKey p) (lower (range acc)) || negb (haveLower acc))
            && inSignDomain sd (mainKey p));
    match goal with
    | |- context [if ?c then setUpper _ _ else _] => destruct c
    end; reflexivity.
Qed.

Lemma keyStep_upper sd acc p :
  upperState (keyStep sd acc p)
  = if hasValue p
    then pickMax (inSignDomain sd) (upperState acc) (mainKey p)
    else upperState acc.
Proof.
  unfold keyStep, hasValue, pickMax, pick, upperState.
  rewrite <- (qgt_better (mainKey p)). cbn [fst snd].
  destruct (negb (qIsNaN (mainValue p))); [|reflexivity].
  cbv zeta.
  destruct ((qlt (mainKey p) (lower (range acc)) || negb (haveLower acc))
            && inSignDomain sd (mainKey p));
      cbn [setLower range upper haveUpper];
    match goal with
    | |- context [if ?c then setUpper _ _ else _] => destruct c
    end; reflexivity.
Qed.

Lemma fold_keyStep_lower sd l : forall acc,
  lowerState (fold_left (keyStep sd) l acc)
  = fold_left (pickMin (inSignDomain sd))
              (map mainKey (filter hasValue l)) (lowerState acc).
Proof.
  induction l as [|p l IH]; intros acc; simpl; [reflexivity|].
  rewrite IH, keyStep_lower. destruct (hasValue p); reflexivity.
Qed.

Lemma fold_keyStep_upper sd l : forall acc,
  upperState (fold_left (keyStep sd) l acc)
  = fold_left (pickMax (inSignDomain sd))
              (map mainKey (filter hasValue l)) (upperState acc).
Proof.
  induction l as [|p l IH]; intros acc; simpl; [reflexivity|].
  rewrite IH, keyStep_upper. destruct (hasValue p); reflexivity.
Qed.

Lemma existsb_counts sd l :
  existsb (inSignDomain sd) (map mainKey (filter hasValue l))
  = existsb (countsForKeyRange sd) l.
Proof.
  induction l as [|p l IH]; simpl; [reflexivity|].
  unfold countsForKeyRange at 1. fold (hasValue p).
  destruct (hasValue p); simpl; now rewrite IH.
Qed.

Lemma in_valid_keys (c : qreal) l :
  In c (map mainKey (filter hasValue l))
  <-> exists p, In p l /\ hasValue p = true /\ mainKey p = c.
Proof.
  rewrite in_map_iff. split.
  - intros (p & Hc & Hin). apply filter_In in Hin. exists p. tauto.
  - intros (p & Hin & Hv & Hc). exists p. split; [exact Hc|].
    apply filter_In. auto.
Qed.

(** The two loops of the fast path stop at the first point with a value. *)
Lemma firstValid_spec l acc :
  (exists a p0 b, l = a ++ p0 :: b
     /\ Forall (fun p => hasValue p = false) a /\ hasValue p0 = true
     /\ firstValid l acc = setLower (mainKey p0) acc)
  \/ (Forall (fun p => hasValue p = false) l /\ firstValid l acc = acc).
Proof.
  induction l as [|p l IH]; simpl.
  - right. auto.
  - fold (hasValue p). destruct (hasValue p) eqn:Hv.
    + left. exists [], p, l. auto.
    + destruct IH as [(a & p0 & b & -> & Ha & Hp & Hf)|[Hall Hf]].
      * left. exists (p :: a), p0, b. repeat split; auto.
      * right. auto.
Qed.

Lemma lastValid_spec l acc :
  (exists a p0 b, l = a ++ p0 :: b
     /\ Forall (fun p => hasValue p = false) a /\ hasValue p0 = true
     /\ lastValid l acc = setUpper (mainKey p0) acc)
  \/ (Forall (fun p => hasValue p = false) l /\ lastValid l acc = acc).
Proof.
  induction l as [|p l IH]; simpl.
  - right. auto.
  - fold (hasValue p). destruct (hasValue p) eqn:Hv.
    + left. exists [], p, l. auto.
    + destruct IH as [(a & p0 & b & -> & Ha & Hp & Hf)|[Hall Hf]].
      * left. exists (p :: a), p0, b. repeat split; auto.
      * right. auto.
Qed.

Lemma firstValid_have l acc :
  haveLower (firstValid l acc) = haveLower acc || existsb hasValue l
  /\ upperState (firstValid l acc) = upperState acc.
Proof.
  induction l as [|p l [IH1 IH2]]; simpl.
  - now rewrite orb_false_r.
  - fold (hasValue p). destruct (hasValue p); simpl.
    + now rewrite orb_true_r.
    + auto.
Qed.

Lemma lastValid_have l acc :
  haveUpper (lastValid l acc) = haveUpper acc || existsb hasValue l
  /\ lowerState (lastValid l acc) = lowerState acc.
Proof.
  induction l as [|p l [IH1 IH2]]; simpl.
  - now rewrite orb_false_r.
  - fold (hasValue p). destruct (hasValue p); simpl.
    + now rewrite orb_true_r.
    + auto.
Qed.

Lemma existsb_rev_eq (P : DataType -> bool) l :
  existsb P (rev l) = existsb P l.
Proof.
  induction l as [|p l IH]; simpl; [reflexivity|].
  rewrite existsb_app, IH. simpl. rewrite orb_false_r. apply orb_comm.
Qed.

(** The search of [keyRange] over the live sequence. *)
Definition keySearch (sd : SignDomain) l : RangeSearch :=
  match sd with
  | sdBoth =>
      if sortKeyIsMainKey
      then lastValid (rev l) (firstValid l searchStart)
      else fold_left (keyStep sdBoth) l searchStart
  | sdNegative => fold_left (keyStep sdNegative) l searchStart
  | sdPositive => fold_left (keyStep sdPositive) l searchStart
  end.

Lemma keyRange_unfold sd s :
  keyRange sd s
  = if isEmpty s then (false, defaultRange)
    else (haveLower (keySearch sd (live s))
          && haveUpper (keySearch sd (live s)),
          range (keySearch sd (live s))).
Proof. destruct sd; reflexivity. Qed.

Lemma fold_keyStep_have sd l :
  haveLower (fold_left (keyStep sd) l searchStart)
  = existsb (countsForKeyRange sd) l
  /\ haveUpper (fold_left (keyStep sd) l searchStart)
     = existsb (countsForKeyRange sd) l.
Proof.
  split.
  - change (snd (lowerState (fold_left (keyStep sd) l searchStart))
            = existsb (countsForKeyRange sd) l).
    rewrite fold_keyStep_lower. unfold pickMin.
    rewrite fold_pick_have. apply existsb_counts.
  - change (snd (upperState (fold_left (keyStep sd) l searchStart))
            = existsb (countsForKeyRange sd) l).
    rewrite fold_keyStep_upper. unfold pickMax.
    rewrite fold_pick_have. apply existsb_counts.
Qed.

Lemma counts_sdBoth l :
  existsb hasValue l = existsb (countsForKeyRange sdBoth) l.
Proof.
  induction l as [|p l IH]; simpl; [reflexivity|].
  unfold countsForKeyRange at 1. fold (hasValue p). simpl.
  now rewrite andb_true_r, IH.
Qed.

Lemma keySearch_have sd l :
  haveLower (keySearch sd l) = existsb (countsForKeyRange sd) l
  /\ haveUpper (keySearch sd l) = existsb (countsForKeyRange sd) l.
Proof.
  destruct sd; try apply fold_keyStep_have.
  unfold keySearch. destruct sortKeyIsMainKey; [|apply fold_keyStep_have].
  destruct (lastValid_have (rev l) (firstValid l searchStart)) as [Hu Hl].
  destruct (firstValid_have l searchStart) as [Hl0 Hu0].
  split.
  - change (snd (lowerState (lastValid (rev l) (firstValid l searchStart)))
            = existsb (countsForKeyRange sdBoth) l).
    rewrite Hl. simpl. rewrite Hl0. simpl. apply counts_sdBoth.
  - rewrite Hu.
    change (haveUpper (firstValid l searchStart))
      with (snd (upperState (firstValid l searchStart))).
    rewrite Hu0. simpl. rewrite existsb_rev_eq. apply counts_sdBoth.
Qed.

(** X15: [keyRange] reports a range as found exactly when some live point
    has a main value that is not NaN and, in a sign domain, a main key of
    that sign; points with a NaN value never make a range found. *)
Theorem keyRange_found_iff (sd : SignDomain) s :
  wf s ->
  (fst (keyRange sd s) = true
   <-> exists p, In p (live s) /\ countsForKeyRange sd p = true).
Proof.
  intros Hwf. pose proof (wf_Layout Hwf) as H.
  rewrite keyRange_unfold, (Layout_isEmpty H).
  destruct (keySearch_have sd (live s)) as [Hl Hu].
  destruct (live s) as [|x l'] eqn:El.
  - simpl. split; [discriminate|]. intros (p & [] & _).
  - cbn [fst]. rewrite Hl, Hu, andb_diag. apply existsb_exists.
Qed.

(** What it means for a range to be the span of the main keys of the points
    that count. *)
Definition spansKeys (sd : SignDomain) l (r : QCPRange) : Prop :=
  exists lo hi,
    r = {| lower := Num lo; upper := Num hi |}
    /\ (forall p, In p l -> countsForKeyRange sd p = true ->
         exists k, mainKey p = Num k /\ lo <= k <= hi)
    /\ (exists p, In p l /\ countsForKeyRange sd p = true
                  /\ mainKey p = Num lo)
    /\ (exists p, In p l /\ countsForKeyRange sd p = true
                  /\ mainKey p = Num hi).

Lemma range_eta (r : QCPRange) (a b : qreal) :
  lower r = a -> upper r = b -> r = {| lower := a; upper := b |}.
Proof. destruct r. simpl. now intros -> ->. Qed.

Lemma fold_keyStep_bounds sd l :
  (forall p, In p l -> countsForKeyRange sd p = true ->
             qIsNaN (mainKey p) = false) ->
  existsb (countsForKeyRange sd) l = true ->
  spansKeys sd l (range (fold_left (keyStep sd) l searchStart)).
Proof.
  intros Hk Hex.
  set (acc := fold_left (keyStep sd) l searchStart).
  set (cs := map mainKey (filter hasValue l)).
  assert (Hnum : forall c, In c cs -> inSignDomain sd c = true ->
                           exists z, c = Num z).
  { intros c Hc Hok. apply in_valid_keys in Hc.
    destruct Hc as (p & Hin & Hv & <-).
    assert (Hq : qIsNaN (mainKey p) = false).
    { apply (Hk p Hin). unfold countsForKeyRange. fold (hasValue p).
      now rewrite Hv, Hok. }
    destruct (mainKey p) as [|z]; [discriminate|]. now exists z. }
  assert (Hcounts : forall z, In (Num z) cs ->
            inSignDomain sd (Num z) = true ->
            exists p, In p l /\ countsForKeyRange sd p = true
                      /\ mainKey p = Num z).
  { intros z Hc Hok. apply in_valid_keys in Hc.
    destruct Hc as (p & Hin & Hv & Hp). exists p.
    split; [exact Hin|]. split; [|exact Hp].
    unfold countsForKeyRange. fold (hasValue p). now rewrite Hv, Hp, Hok. }
  assert (Hback : forall p, In p l -> countsForKeyRange sd p = true ->
            exists k, mainKey p = Num k /\ In (Num k) cs
                      /\ inSignDomain sd (Num k) = true).
  { intros p Hin Hc. pose proof (Hk p Hin Hc) as Hq.
    unfold countsForKeyRange in Hc. fold (hasValue p) in Hc.
    apply andb_prop in Hc. destruct Hc as [Hv Hok].
    destruct (mainKey p) as [|k] eqn:Ek; [discriminate|].
    exists k. split; [reflexivity|]. split; [|exact Hok].
    apply in_valid_keys. exists p. auto. }
  destruct (fold_keyStep_have sd l) as [Hl Hu]. fold acc in Hl, Hu.
  (* the lower bound *)
  pose proof (@fold_pick_spec Z.ltb Z.le
                (fun x y H => Z.lt_le_incl x y (proj1 (Z.ltb_lt x y) H))
                (fun x y H => proj1 (Z.ltb_ge x y) H)
                Z.le_trans (inSignDomain sd) cs (lowerState searchStart)
                Hnum (fun H => False_ind _ (diff_false_true H))) as Hmin.
  assert (Hls : lowerState acc
                = fold_left (pick Z.ltb (inSignDomain sd)) cs
                            (lowerState searchStart))
    by apply fold_keyStep_lower.
  cbv zeta in Hmin. rewrite <- Hls in Hmin.
  destruct Hmin as [_ Hmin].
  destruct (Hmin ltac:(simpl; congruence))
    as (lo & Hlo & Hlo_le & _ & Hlo_att).
  (* the upper bound *)
  pose proof (@fold_pick_spec (fun x y => y <? x) (fun x y => y <= x)
                (fun x y H => Z.lt_le_incl y x (proj1 (Z.ltb_lt y x) H))
                (fun x y H => proj1 (Z.ltb_ge y x) H)
                (fun x y z H1 H2 => Z.le_trans z y x H2 H1)
                (inSignDomain sd) cs (upperState searchStart)
                Hnum (fun H => False_ind _ (diff_false_true H))) as Hmax.
  assert (Hus : upperState acc
                = fold_left (pick (fun x y => y <? x) (inSignDomain sd)) cs
                            (upperState searchStart))
    by apply fold_keyStep_upper.
  cbv zeta in Hmax. rewrite <- Hus in Hmax.
  destruct Hmax as [_ Hmax].
  destruct (Hmax ltac:(simpl; congruence))
    as (hi & Hhi & Hhi_le & _ & Hhi_att).
  exists lo, hi. split; [now apply range_eta|]. split; [|split].
  - intros p Hin Hc. destruct (Hback p Hin Hc) as (k & Hk' & Hin' & Hok).
    exists k. split; [exact Hk'|]. split; [now apply Hlo_le|now apply Hhi_le].
  - destruct Hlo_att as [[Hf _]|[Hin Hok]]; [discriminate|].
    now apply Hcounts.
  - destruct Hhi_att as [[Hf _]|[Hin Hok]]; [discriminate|].
    now apply Hcounts.
Qed.

Lemma counts_sdBoth_hasValue (p : DataType) :
  countsForKeyRange sdBoth p = hasValue p.
Proof. unfold countsForKeyRange, hasValue. simpl. apply andb_true_r. Qed.

(** On a sequence sorted by a sort key that is the main key, the first and
    the last point with a value carry the smallest and the largest key. *)
Lemma fast_path_bounds l :
  sortKeyIsMainKey = true -> KeySorted l ->
  (forall p, In p l -> countsForKeyRange sdBoth p = true ->
             qIsNaN (mainKey p) = false) ->
  existsb (countsForKeyRange sdBoth) l = true ->
  spansKeys sdBoth l
    (range (lastValid (rev l) (firstValid l searchStart))).
Proof.
  intros Hflag S Hk Hex.
  pose proof (sortKeyIsMainKey_spec Hflag) as Hmk.
  apply existsb_exists in Hex. destruct Hex as (q & Hq & Hcq).
  rewrite counts_sdBoth_hasValue in Hcq.
  destruct (firstValid_spec l searchStart)
    as [(a & p0 & b & El & Ha & Hp0 & Hf)|[Hall _]].
  2:{ rewrite Forall_forall in Hall. rewrite (Hall q Hq) in Hcq.
      discriminate. }
  destruct (lastValid_spec (rev l) (firstValid l searchStart))
    as [(a' & p1 & b' & Er & Ha' & Hp1 & Hf')|[Hall _]].
  2:{ rewrite Forall_forall in Hall.
      rewrite (Hall q (proj1 (in_rev l q) Hq)) in Hcq. discriminate. }
  rewrite Hf', Hf.
  assert (El' : l = (rev b' ++ [p1]) ++ rev a').
  { rewrite <- (rev_involutive l), Er, rev_app_distr. reflexivity. }
  assert (Hin0 : In p0 l) by (rewrite El; apply in_or_app; right; now left).
  assert (Hin1 : In p1 l).
  { rewrite El'. apply in_or_app. left. apply in_or_app. right. now left. }
  assert (Hc0 : countsForKeyRange sdBoth p0 = true)
    by now rewrite counts_sdBoth_hasValue.
  assert (Hc1 : countsForKeyRange sdBoth p1 = true)
    by now rewrite counts_sdBoth_hasValue.
  pose proof (Hk p0 Hin0 Hc0) as Hn0. pose proof (Hk p1 Hin1 Hc1) as Hn1.
  destruct (mainKey p0) as [|lo] eqn:E0; [discriminate|].
  destruct (mainKey p1) as [|hi] eqn:E1; [discriminate|].
  exists lo, hi.
  split; [reflexivity|]. split; [|split].
  - intros p Hin Hc. pose proof (Hk p Hin Hc) as Hn.
    rewrite counts_sdBoth_hasValue in Hc.
    destruct (mainKey p) as [|k] eqn:Ep; [discriminate|].
    exists k. split; [reflexivity|].
    rewrite Hmk in E0, E1, Ep. split.
    + rewrite El in Hin, S. apply in_app_or in Hin.
      destruct Hin as [Hin|[<-|Hin]].
      * rewrite Forall_forall in Ha. rewrite (Ha p Hin) in Hc. discriminate.
      * rewrite E0 in Ep. injection Ep as <-. lia.
      * apply KeySorted_app in S. destruct S as (_ & S & _).
        apply KeySorted_cons in S. destruct S as [_ F].
        rewrite Forall_forall in F. specialize (F p Hin).
        rewrite E0, Ep in F. cbn in F. lia.
    + rewrite El' in Hin, S. apply in_app_or in Hin.
      destruct Hin as [Hin|Hin].
      * apply KeySorted_app in S. destruct S as (S & _ & _).
        apply in_app_or in Hin. destruct Hin as [Hin|[<-|[]]].
        -- apply KeySorted_app in S. destruct S as (_ & _ & S).
           specialize (S p p1 Hin (or_introl eq_refl)).
           rewrite E1, Ep in S. cbn in S. lia.
        -- rewrite E1 in Ep. injection Ep as <-. lia.
      * apply in_rev in Hin. rewrite Forall_forall in Ha'.
        rewrite (Ha' p Hin) in Hc. discriminate.
  - exists p0. auto.
  - exists p1. auto.
Qed.

Lemma keySearch_bounds sd l :
  KeySorted l ->
  (forall p, In p l -> countsForKeyRange sd p = true ->
             qIsNaN (mainKey p) = false) ->
  existsb (countsForKeyRange sd) l = true ->
  spansKeys sd l (range (keySearch sd l)).
Proof.
  intros S Hk Hex. destruct sd; try now apply fold_keyStep_bounds.
  unfold keySearch. destruct sortKeyIsMainKey eqn:Hflag.
  - now apply fast_path_bounds.
  - now apply fold_keyStep_bounds.
Qed.

(** X16: when [keyRange] finds a range on a sorted store whose counting
    points have a main key that is not NaN, the range returned is the span of
    the main keys of the points that count (value not NaN, key in the sign
    domain): both bounds are main keys of such points and every such point
    lies between them.  This holds for the scan of all points and for the
    fast path that only looks for the first and the last point with a
    value. *)
Theorem keyRange_spans_keys (sd : SignDomain) s :
  sortedStore s ->
  (forall p, In p (live s) -> countsForKeyRange sd p = true ->
             qIsNaN (mainKey p) = false) ->
  fst (keyRange sd s) = true ->
  exists lo hi,
    snd (keyRange sd s) = {| lower := Num lo; upper := Num hi |}
    /\ (forall p, In p (live s) -> countsForKeyRange sd p = true ->
         exists k, mainKey p = Num k /\ lo <= k <= hi)
    /\ (exists p, In p (live s) /\ countsForKeyRange sd p = true
                  /\ mainKey p = Num lo)
    /\ (exists p, In p (live s) /\ countsForKeyRange sd p = true
                  /\ mainKey p = Num hi).
Proof.
  intros [Hwf S] Hk Hfound.
  rewrite keyRange_unfold in *.
  destruct (isEmpty s); [discriminate|].
  cbn [fst snd] in *.
  destruct (keySearch_have sd (live s)) as [Hl _].
  rewrite Hl in Hfound. apply andb_prop in Hfound.
  exact (keySearch_bounds sd S Hk (proj1 Hfound)).
Qed.

(** *** valueRange *)
Lemma valueStep_skip sd kr acc p :
  inKeyWindow kr p = false ->
  valueStep sd (rangeDiffers kr defaultRange) kr acc p = acc.
Proof.
  unfold inKeyWindow, valueStep. intros Hw.
  apply negb_false_iff in Hw. now rewrite Hw.
Qed.

Lemma valueStep_lower sd kr acc p :
  lowerState (valueStep sd (rangeDiffers kr defaultRange) kr acc p)
  = if inKeyWindow kr p
    then pickMin (boundCounts sd) (lowerState acc) (lower (pointValueRange p))
    else lowerState acc.
Proof.
  destruct (inKeyWindow kr p) eqn:Hw; [|now rewrite valueStep_skip].
  unfold inKeyWindow in Hw. apply negb_true_iff in Hw.
  unfold valueStep, pickMin, pick, lowerState, boundCounts.
  change (better Z.ltb) with qlt. rewrite Hw. cbn [fst snd]. cbv zeta.
  rewrite <- !andb_assoc.
  match goal with
  | |- context [if ?c then setLower _ _ else _] => destruct c
  end;
    match goal with
    | |- context [if ?c then setUpper _ _ else _] => destruct c
    end; reflexivity.
Qed.

Lemma valueStep_upper sd kr acc p :
  upperState (valueStep sd (rangeDiffers kr defaultRange) kr acc p)
  = if inKeyWindow kr p
    then pickMax (boundCounts sd) (upperState acc) (upper (pointValueRange p))
    else upperState acc.
Proof.
  destruct (inKeyWindow kr p) eqn:Hw; [|now rewrite valueStep_skip].
  unfold inKeyWindow in Hw. apply negb_true_iff in Hw.
  unfold valueStep, pickMax, pick, upperState, boundCounts.
  rewrite <- (qgt_better (upper (pointValueRange p))).
  rewrite Hw. cbn [fst snd]. cbv zeta.
  rewrite <- !andb_assoc.
  match goal with
  | |- context [if ?c then setLower _ _ else _] => destruct c
  end; cbn [setLower range upper haveUpper];
    match goal with
    | |- context [if ?c then setUpper _ _ else _] => destruct c
    end; reflexivity.
Qed.

Lemma fold_valueStep_lower sd kr l : forall acc,
  lowerState (fold_left (valueStep sd (rangeDiffers kr defaultRange) kr) l acc)
  = fold_left (pickMin (boundCounts sd))
      (map (fun p => lower (pointValueRange p)) (filter (inKeyWindow kr) l))
      (lowerState acc).
Proof.
  induction l as [|p l IH]; intros acc; simpl; [reflexivity|].
  rewrite IH, valueStep_lower. destruct (inKeyWindow kr p); reflexivity.
Qed.

Lemma fold_valueStep_upper sd kr l : forall acc,
  upperState (fold_left (valueStep sd (rangeDiffers kr defaultRange) kr) l acc)
  = fold_left (pickMax (boundCounts sd))
      (map (fun p => upper (pointValueRange p)) (filter (inKeyWindow kr) l))
      (upperState acc).
Proof.
  induction l as [|p l IH]; intros acc; simpl; [reflexivity|].
  rewrite IH, valueStep_upper. destruct (inKeyWindow kr p); reflexivity.
Qed.

Lemma fold_valueStep_skip sd kr l : forall acc,
  Forall (fun p => inKeyWindow kr p = false) l ->
  fold_left (valueStep sd (rangeDiffers kr defaultRange) kr) l acc = acc.
Proof.
  induction l as [|p l IH]; intros acc Hall; simpl; [reflexivity|].
  inversion Hall; subst. rewrite valueStep_skip by assumption. now apply IH.
Qed.

(** A point contributes its lower, its upper bound to [valueRange]. *)
Definition lowerCounts (sd : SignDomain) (kr : QCPRange) (p : DataType) :=
  inKeyWindow kr p && boundCounts sd (lower (pointValueRange p)).
Definition upperCounts (sd : SignDomain) (kr : QCPRange) (p : DataType) :=
  inKeyWindow kr p && boundCounts sd (upper (pointValueRange p)).

Lemma existsb_bound sd kr (f : DataType -> qreal) l :
  existsb (boundCounts sd) (map f (filter (inKeyWindow kr) l))
  = existsb (fun p => inKeyWindow kr p && boundCounts sd (f p)) l.
Proof.
  induction l as [|p l IH]; simpl; [reflexivity|].
  destruct (inKeyWindow kr p); simpl; now rewrite IH.
Qed.

Lemma valueRangeScan_found sd kr l :
  fst (valueRangeScan sd kr l)
  = existsb (lowerCounts sd kr) l && existsb (upperCounts sd kr) l.
Proof.
  unfold valueRangeScan. cbv zeta. cbn [fst].
  set (acc := fold_left _ l searchStart).
  change (haveLower acc) with (snd (lowerState acc)).
  change (haveUpper acc) with (snd (upperState acc)).
  unfold acc. rewrite fold_valueStep_lower, fold_valueStep_upper.
  unfold pickMin, pickMax. rewrite !fold_pick_have, !existsb_bound.
  reflexivity.
Qed.

Lemma boundCounts_num sd c :
  boundCounts sd c = true -> exists z, c = Num z.
Proof.
  unfold boundCounts. intros H. apply andb_prop in H.
  destruct c as [|z]; [destruct H; discriminate|now exists z].
Qed.

(** What it means for a range to be the span of the value ranges of the
    points of a key window: its lower bound is the smallest lower bound that
    counts and its upper bound the largest upper bound that counts. *)
Definition spansValues (sd : SignDomain) (kr : QCPRange) l
  (r : QCPRange) : Prop :=
  exists lo hi,
    r = {| lower := Num lo; upper := Num hi |}
    /\ (forall p z, In p l -> inKeyWindow kr p = true ->
         lower (pointValueRange p) = Num z ->
         inSignDomain sd (Num z) = true -> lo <= z)
    /\ (forall p z, In p l -> inKeyWindow kr p = true ->
         upper (pointValueRange p) = Num z ->
         inSignDomain sd (Num z) = true -> z <= hi)
    /\ (exists p, In p l /\ lowerCounts sd kr p = true
                  /\ lower (pointValueRange p) = Num lo)
    /\ (exists p, In p l /\ upperCounts sd kr p = true
                  /\ upper (pointValueRange p) = Num hi).

Lemma in_window_bounds kr (f : DataType -> qreal) (c : qreal) l :
  In c (map f (filter (inKeyWindow kr) l))
  <-> exists p, In p l /\ inKeyWindow kr p = true /\ f p = c.
Proof.
  rewrite in_map_iff. split.
  - intros (p & Hc & Hin). apply filter_In in Hin. exists p. tauto.
  - intros (p & Hin & Hv & Hc). exists p. split; [exact Hc|].
    apply filter_In. auto.
Qed.

Lemma valueRangeScan_spans sd kr l :
  fst (valueRangeScan sd kr l) = true ->
  spansValues sd kr l (snd (valueRangeScan sd kr l)).
Proof.
  intros Hfound. rewrite valueRangeScan_found in Hfound.
  apply andb_prop in Hfound. destruct Hfound as [Hexl Hexu].
  unfold valueRangeScan. cbv zeta. cbn [snd].
  set (acc := fold_left _ l searchStart).
  set (fl := fun p : DataType => lower (pointValueRange p)).
  set (fu := fun p : DataType => upper (pointValueRange p)).
  set (cl := map fl (filter (inKeyWindow kr) l)).
  set (cu := map fu (filter (inKeyWindow kr) l)).
  assert (Hls : lowerState acc
                = fold_left (pick Z.ltb (boundCounts sd)) cl
                            (lowerState searchStart))
    by apply fold_valueStep_lower.
  assert (Hus : upperState acc
                = fold_left (pick (fun x y => y <? x) (boundCounts sd)) cu
                            (upperState searchStart))
    by apply fold_valueStep_upper.
  pose proof (@fold_pick_spec Z.ltb Z.le
                (fun x y H => Z.lt_le_incl x y (proj1 (Z.ltb_lt x y) H))
                (fun x y H => proj1 (Z.ltb_ge x y) H)
                Z.le_trans (boundCounts sd) cl (lowerState searchStart)
                (fun c _ H => boundCounts_num sd c H)
                (fun H => False_ind _ (diff_false_true H))) as Hmin.
  cbv zeta in Hmin. rewrite <- Hls in Hmin. destruct Hmin as [Hhl Hmin].
  pose proof (@fold_pick_spec (fun x y => y <? x) (fun x y => y <= x)
                (fun x y H => Z.lt_le_incl y x (proj1 (Z.ltb_lt y x) H))
                (fun x y H => proj1 (Z.ltb_ge y x) H)
                (fun x y z H1 H2 => Z.le_trans z y x H2 H1)
                (boundCounts sd) cu (upperState searchStart)
                (fun c _ H => boundCounts_num sd c H)
                (fun H => False_ind _ (diff_false_true H))) as Hmax.
  cbv zeta in Hmax. rewrite <- Hus in Hmax. destruct Hmax as [Hhu Hmax].
  unfold cl in Hhl. unfold cu in Hhu.
  rewrite existsb_bound in Hhl, Hhu. simpl in Hhl, Hhu.
  destruct (Hmin ltac:(simpl; rewrite Hhl; exact Hexl))
    as (lo & Hlo & Hlo_le & _ & Hlo_att).
  destruct (Hmax ltac:(simpl; rewrite Hhu; exact Hexu))
    as (hi & Hhi & Hhi_le & _ & Hhi_att).
  exists lo, hi. split; [now apply range_eta|].
  split; [|split; [|split]].
  - intros p z Hin Hw Hz Hd. apply Hlo_le.
    + apply in_window_bounds. exists p. auto.
    + unfold boundCounts. now rewrite Hd.
  - intros p z Hin Hw Hz Hd. apply Hhi_le.
    + apply in_window_bounds. exists p. auto.
    + unfold boundCounts. now rewrite Hd.
  - destruct Hlo_att as [[Hf _]|[Hin Hok]]; [discriminate|].
    apply in_window_bounds in Hin. destruct Hin as (p & Hin & Hw & Hp).
    exists p. split; [exact Hin|]. split; [|exact Hp].
    unfold lowerCounts, fl in *. now rewrite Hw, Hp.
  - destruct Hhi_att as [[Hf _]|[Hin Hok]]; [discriminate|].
    apply in_window_bounds in Hin. destruct Hin as (p & Hin & Hw & Hp).
    exists p. split; [exact Hin|]. split; [|exact Hp].
    unfold upperCounts, fu in *. now rewrite Hw, Hp.
Qed.

(** A point below the lower bound of a key range whose lower bound is not
    above its upper bound is not above the upper bound. *)
Lemma keysBelow_keysNotAbove_length (lo hi : qreal) l :
  (forall x y, lo = Num x -> hi = Num y -> x <= y) ->
  (length (keysBelow lo l) <= length (keysNotAbove hi l))%nat.
Proof.
  intros Hord. unfold keysBelow, keysNotAbove.
  induction l as [|a l IH]; simpl; [lia|].
  destruct (qlt (sortKey a) lo) eqn:E1; destruct (qlt hi (sortKey a)) eqn:E2;
    simpl; try lia.
  exfalso. destruct lo as [|x]; [qlia|]. destruct hi as [|y]; [qlia|].
  specialize (Hord x y eq_refl eq_refl). qlia.
Qed.

(** The positions that [valueRange] visits when it narrows the search: from
    past the points below the lower bound up to past the points not above
    the upper bound. *)
Definition windowBegin (kr : QCPRange) l : nat :=
  length (keysBelow (lower kr) l).

Definition windowEnd (kr : QCPRange) l : nat :=
  length (keysNotAbove (upper kr) l).

Lemma before_window_skipped kr l :
  sortKeyIsMainKey = true -> rangeDiffers kr defaultRange = true ->
  KeySorted l ->
  Forall (fun p => inKeyWindow kr p = false) (firstn (windowBegin kr l) l).
Proof.
  intros Hflag Hr S. pose proof (sortKeyIsMainKey_spec Hflag) as Hmk.
  unfold windowBegin.
  rewrite firstn_keysBelow by assumption.
  eapply Forall_impl; [|apply Forall_filter_true].
  cbv beta. intros p Hp. unfold inKeyWindow.
  rewrite Hr, Hmk, Hp. reflexivity.
Qed.

Lemma after_window_skipped kr l :
  sortKeyIsMainKey = true -> rangeDiffers kr defaultRange = true ->
  KeySorted l ->
  Forall (fun p => inKeyWindow kr p = false) (skipn (windowEnd kr l) l).
Proof.
  intros Hflag Hr S. pose proof (sortKeyIsMainKey_spec Hflag) as Hmk.
  unfold windowEnd.
  rewrite skipn_keysNotAbove by assumption.
  eapply Forall_impl; [|apply Forall_filter_true].
  cbv beta. intros p Hp. unfold inKeyWindow.
  rewrite Hr, Hmk, Hp. now rewrite orb_true_r.
Qed.

Lemma window_order kr l :
  (forall lo hi, lower kr = Num lo -> upper kr = Num hi -> lo <= hi) ->
  (windowBegin kr l <= windowEnd kr l <= length l)%nat.
Proof.
  intros Hord. unfold windowBegin, windowEnd.
  pose proof (@keysBelow_keysNotAbove_length (lower kr) (upper kr) l Hord).
  pose proof (keysBelow_le_keysNotAbove (upper kr) l). lia.
Qed.

Lemma narrowed_positions kr s pre l :
  Layout s pre l -> KeySorted l -> l <> [] ->
  findBegin (lower kr) false s = (length pre + windowBegin kr l)%nat
  /\ findEnd (upper kr) false s = (length pre + windowEnd kr l)%nat.
Proof.
  intros H S Hne. unfold windowBegin, windowEnd. split.
  - now rewrite (findBegin_Layout (lower kr) false H S Hne).
  - now rewrite (findEnd_Layout (upper kr) false H S Hne).
Qed.

Lemma valueRange_as_scan sd kr s :
  sortedStore s ->
  (forall lo hi, lower kr = Num lo -> upper kr = Num hi -> lo <= hi) ->
  valueRange sd kr s = valueRangeScan sd kr (live s).
Proof.
  intros Hs Hord. destruct (sortedStore_Layout Hs) as (pre & H & S).
  set (l := live s) in *.
  unfold valueRange. rewrite (Layout_isEmpty H).
  destruct l as [|x l'] eqn:El; [reflexivity|].
  rewrite <- El in *.
  assert (Hne : l <> []) by (rewrite El; discriminate).
  cbv zeta. unfold valueRangeScan. cbv zeta.
  destruct (sortKeyIsMainKey && rangeDiffers kr defaultRange) eqn:Ef.
  - apply andb_prop in Ef. destruct Ef as [Hflag Hr].
    destruct (@narrowed_positions kr s pre l H S Hne) as [-> ->].
    pose proof (@window_order kr l Hord) as Hwo.
    pose proof (@before_window_skipped kr l Hflag Hr S) as Hbefore.
    pose proof (@after_window_skipped kr l Hflag Hr S) as Hafter.
    destruct H as [Hi _]. rewrite Hi.
    unfold Std.slice. rewrite skipn_length_plus_app.
    replace (length pre + windowEnd kr l - (length pre + windowBegin kr l))%nat
      with (windowEnd kr l - windowBegin kr l)%nat by lia.
    set (nb := windowBegin kr l) in *. set (ne := windowEnd kr l) in *.
    assert (Hsplit : l = firstn nb l
                         ++ firstn (ne - nb) (skipn nb l) ++ skipn ne l).
    { rewrite <- (firstn_skipn nb l) at 1. f_equal.
      rewrite <- (firstn_skipn (ne - nb) (skipn nb l)) at 1. f_equal.
      rewrite skipn_skipn. f_equal. lia. }
    assert (Hfold :
      fold_left (valueStep sd (rangeDiffers kr defaultRange) kr) l searchStart
      = fold_left (valueStep sd (rangeDiffers kr defaultRange) kr)
                  (firstn (ne - nb) (skipn nb l)) searchStart).
    { rewrite Hsplit at 1. rewrite !fold_left_app.
      rewrite (fold_valueStep_skip sd kr searchStart Hbefore).
      now rewrite (fold_valueStep_skip sd kr _ Hafter). }
    now rewrite Hfold.
  - rewrite (Layout_slice H). reflexivity.
Qed.

(** X17: on a sorted store, for a key range whose lower bound is not above
    its upper bound, the narrowing of [valueRange] to the positions between
    [findBegin(lower)] and [findEnd(upper)] does not change the result: it
    is the result of visiting every live point. *)
Theorem valueRange_narrowing_transparent (sd : SignDomain)
  (inKeyRange : QCPRange) s :
  sortedStore s ->
  (forall lo hi, lower inKeyRange = Num lo -> upper inKeyRange = Num hi ->
                 lo <= hi) ->
  valueRange sd inKeyRange s = valueRangeScan sd inKeyRange (live s).
Proof.
  intros Hs Hord.
  exact (@valueRange_as_scan sd inKeyRange s Hs Hord).
Qed.

(** X18: on a sorted store, for a key range whose lower bound is not above
    its upper bound, [valueRange] reports a range as found exactly when some
    point of the key window has a lower value bound that is not NaN and lies
    in the sign domain, and some point of the key window has such an upper
    value bound; NaN bounds and bounds outside the sign domain never make a
    range found. *)
Theorem valueRange_found_iff (sd : SignDomain) (inKeyRange : QCPRange) s :
  sortedStore s ->
  (forall lo hi, lower inKeyRange = Num lo -> upper inKeyRange = Num hi ->
                 lo <= hi) ->
  (fst (valueRange sd inKeyRange s) = true
   <-> (exists p, In p (live s) /\ inKeyWindow inKeyRange p = true
                  /\ boundCounts sd (lower (pointValueRange p)) = true)
       /\ (exists p, In p (live s) /\ inKeyWindow inKeyRange p = true
                     /\ boundCounts sd (upper (pointValueRange p)) = true)).
Proof.
  intros Hs Hord.
  rewrite (@valueRange_as_scan sd inKeyRange s Hs Hord).
  rewrite valueRangeScan_found, andb_true_iff, !existsb_exists.
  unfold lowerCounts, upperCounts.
  split; intros [(p & Hp & Hc) (q & Hq & Hd)].
  - apply andb_prop in Hc. apply andb_prop in Hd.
    split; [exists p|exists q]; tauto.
  - split; [exists p|exists q]; (split; [tauto|]);
      apply andb_true_intro; tauto.
Qed.

(** X19: under the same conditions, when [valueRange] finds a range, its
    lower bound is the smallest lower value bound and its upper bound the
    largest upper value bound among the points of the key window, NaN bounds
    and bounds outside the sign domain left aside: both are numbers, both are
    bounds of such points, and every such bound lies between them. *)
Theorem valueRange_spans_values (sd : SignDomain) (inKeyRange : QCPRange) s :
  sortedStore s ->
  (forall lo hi, lower inKeyRange = Num lo -> upper inKeyRange = Num hi ->
                 lo <= hi) ->
  fst (valueRange sd inKeyRange s) = true ->
  exists lo hi,
    snd (valueRange sd inKeyRange s) = {| lower := Num lo; upper := Num hi |}
    /\ (forall p z, In p (live s) -> inKeyWindow inKeyRange p = true ->
         lower (pointValueRange p) = Num z ->
         inSignDomain sd (Num z) = true -> lo <= z)
    /\ (forall p z, In p (live s) -> inKeyWindow inKeyRange p = true ->
         upper (pointValueRange p) = Num z ->
         inSignDomain sd (Num z) = true -> z <= hi)
    /\ (exists p, In p (live s) /\ inKeyWindow inKeyRange p = true
                  /\ boundCounts sd (lower (pointValueRange p)) = true
                  /\ lower (pointValueRange p) = Num lo)
    /\ (exists p, In p (live s) /\ inKeyWindow inKeyRange p = true
                  /\ boundCounts sd (upper (pointValueRange p)) = true
                  /\ upper (pointValueRange p) = Num hi).
Proof.
  intros Hs Hord Hfound.
  rewrite (@valueRange_as_scan sd inKeyRange s Hs Hord) in *.
  destruct (valueRangeScan_spans sd inKeyRange (live s) Hfound)
    as (lo & hi & Hr & Hlo & Hhi & (p & Hp & Hpc & Hpl) & (q & Hq & Hqc & Hql)).
  exists lo, hi. split; [exact Hr|]. split; [exact Hlo|]. split; [exact Hhi|].
  unfold lowerCounts in Hpc. unfold upperCounts in Hqc.
  apply andb_prop in Hpc. apply andb_prop in Hqc.
  split; [exists p|exists q]; tauto.
Qed.
End RangeFacts.
(** ** The data interface of a plottable *)
Section InterfaceFacts.
Context {DataType : Type} {DT : QCPDataType DataType}.
Context {PT : @QCPPlotDataType DataType DT}.
Context {alloc : QVectorAlloc}.

Lemma KeySorted_nth_le (l : list DataType) (i j : nat) :
  KeySorted l -> (i < j)%nat -> (j < length l)%nat ->
  qle (sortKey (nth i l defaultConstructed))
      (sortKey (nth j l defaultConstructed)) = true.
Proof.
  intros S. revert i j.
  induction S as [|a l S IH Ha]; intros i j Hij Hj; simpl in Hj; [lia|].
  destruct i as [|i], j as [|j]; simpl; try lia.
  - rewrite Forall_forall in Ha. apply Ha, nth_In. lia.
  - apply IH; lia.
Qed.

Lemma dataSortKey_in_bounds s pre l (i : Z) :
  Layout s pre l -> 0 <= i < Z.of_nat (length l) ->
  Plottable1D.dataSortKey i s
  = sortKey (nth (Z.to_nat i) l defaultConstructed).
Proof.
  intros H Hi. unfold Plottable1D.dataSortKey.
  rewrite (Layout_size H), (Layout_begin H), (Layout_deref _ H).
  destruct (Z.leb_spec 0 i); [|lia].
  destruct (Z.ltb_spec i (Z.of_nat (length l))); [|lia].
  reflexivity.
Qed.

Lemma interface_find_empty (k : qreal) (e : bool) s :
  wf s -> live s = [] ->
  Plottable1D.findBegin k e s = 0 /\ Plottable1D.findEnd k e s = 0.
Proof.
  intros Hwf Hl. pose proof (wf_Layout Hwf) as H. rewrite Hl in H.
  unfold Plottable1D.findBegin, Plottable1D.findEnd, findBegin, findEnd.
  rewrite (Layout_isEmpty H), (Layout_begin H), (Layout_end H).
  simpl. lia.
Qed.

(** X20: on a sorted container the index versions of [findBegin] and
    [findEnd] of a plottable lie within [0, dataCount()] and bracket exactly
    the indices whose [dataSortKey] is neither below nor above the key: when
    neither the key nor [dataSortKey] at an index is NaN, the index is in
    the bracket exactly when its [dataSortKey] [==] the key, and for a NaN
    key the bracket holds every index.  The expanded versions move each end
    out by one index where the data allows and stay within
    [0, dataCount()].  On an empty container all of them are 0. *)
Theorem interface_find_bracket (k : qreal) s :
  sortedStore s ->
  let b := Plottable1D.findBegin k false s in
  let e := Plottable1D.findEnd k false s in
  0 <= b <= e /\ e <= Plottable1D.dataCount s
  /\ (forall i, 0 <= i < Plottable1D.dataCount s ->
        (b <= i < e
         <-> qlt (Plottable1D.dataSortKey i s) k = false
             /\ qlt k (Plottable1D.dataSortKey i s) = false)
        /\ (qIsNaN k = false ->
            qIsNaN (Plottable1D.dataSortKey i s) = false ->
            (b <= i < e <-> qeq (Plottable1D.dataSortKey i s) k = true)))
  /\ (qIsNaN k = true -> b = 0 /\ e = Plottable1D.dataCount s)
  /\ Plottable1D.findBegin k true s = Z.max 0 (b - 1)
  /\ Plottable1D.findEnd k true s
     = Z.min (Plottable1D.dataCount s) (e + 1).
Proof.
  intros Hs. destruct (sortedStore_Layout Hs) as (pre & H & S).
  destruct Hs as [Hwf _]. cbv zeta. unfold Plottable1D.dataCount.
  destruct (live s) as [|x l'] eqn:El.
  - destruct (interface_find_empty k false Hwf El) as [-> ->].
    destruct (interface_find_empty k true Hwf El) as [-> ->].
    rewrite (Layout_size H). simpl.
    repeat split; try lia.
  - rewrite <- El in *.
    assert (Hne : live s <> []) by (rewrite El; discriminate).
    unfold Plottable1D.findBegin, Plottable1D.findEnd.
    rewrite !(findBegin_Layout k _ H S Hne), !(findEnd_Layout k _ H S Hne).
    rewrite (Layout_begin H), (Layout_size H).
    pose proof (keysBelow_le_keysNotAbove k (live s)) as Hle.
    simpl andb. cbv iota.
    split; [lia|]. split; [lia|]. split; [|split].
    + intros i Hi. rewrite (dataSortKey_in_bounds H) by exact Hi.
      assert (Hj : (Z.to_nat i < length (live s))%nat) by lia.
      pose proof (nth_keysBelow k S Hj) as Hb.
      pose proof (nth_keysNotAbove k S Hj) as Ha.
      set (key := sortKey (nth (Z.to_nat i) (live s) defaultConstructed))
        in *.
      assert (Hbr :
        Z.of_nat (length pre + length (keysBelow k (live s)))
          - Z.of_nat (length pre) <= i
        < Z.of_nat (length pre + length (keysNotAbove k (live s)))
          - Z.of_nat (length pre)
        <-> qlt key k = false /\ qlt k key = false).
      { rewrite <- Ha. destruct (qlt key k) eqn:Ek.
        - assert ((Z.to_nat i < length (keysBelow k (live s)))%nat)
            by now apply Hb.
          split; [lia|intros [Hf _]; discriminate].
        - assert (~ (Z.to_nat i < length (keysBelow k (live s)))%nat).
          { intros Hlt. apply Hb in Hlt. discriminate. }
          split; [intros Hr; split; [reflexivity|lia]|intros [_ Hr]; lia]. }
      split; [exact Hbr|].
      intros Hk Hkey. rewrite Hbr. clearbody key. clear - Hk Hkey.
      destruct key, k; try discriminate. cbn. lia.
    + intros Hk. destruct k; [|discriminate].
      unfold keysBelow, keysNotAbove.
      rewrite filter_none, filter_all.
      * simpl. lia.
      * rewrite Forall_forall. intros y _. reflexivity.
      * rewrite Forall_forall. intros y _. unfold qlt.
        now destruct (sortKey y).
    + split.
      * destruct (Nat.eqb_spec (length (keysBelow k (live s))) 0);
          simpl negb; cbv iota; lia.
      * destruct (Nat.eqb_spec (length (keysNotAbove k (live s)))
                               (length (live s)));
          simpl negb; cbv iota; lia.
Qed.

(** X21: on a sorted container [dataSortKey] is non-decreasing in the index
    over the whole data range: the key at an index is [<=] the key at every
    later index, and the key at the same or a later index is never below it
    (a key is [<=] itself unless it is NaN). *)
Theorem interface_sort_keys_ascend s (i j : Z) :
  sortedStore s ->
  0 <= i -> i <= j -> j < Plottable1D.dataCount s ->
  qlt (Plottable1D.dataSortKey j s) (Plottable1D.dataSortKey i s) = false
  /\ (i < j \/ qIsNaN (Plottable1D.dataSortKey i s) = false ->
      qle (Plottable1D.dataSortKey i s) (Plottable1D.dataSortKey j s)
      = true).
Proof.
  intros Hs Hi Hij Hj. destruct (sortedStore_Layout Hs) as (pre & H & S).
  unfold Plottable1D.dataCount in Hj. rewrite (Layout_size H) in Hj.
  rewrite !(dataSortKey_in_bounds H) by lia.
  destruct (Z.eq_dec i j) as [->|Hne].
  - split; [qlia|]. intros [Hlt|Hn]; [lia|qlia].
  - assert (Hle : qle (sortKey (nth (Z.to_nat i) (live s)
                                    defaultConstructed))
                      (sortKey (nth (Z.to_nat j) (live s)
                                    defaultConstructed)) = true)
      by (apply KeySorted_nth_le; [exact S|lia|lia]).
    split; [qlia|]. intros _. exact Hle.
Qed.

Lemma interface_point_in_bounds s pre l (index : Z) :
  Layout s pre l -> 0 <= index < Z.of_nat (length l) ->
  exists p, In p l
    /\ Plottable1D.dataMainKey index s = mainKey p
    /\ Plottable1D.dataMainValue index s = mainValue p
    /\ Plottable1D.dataValueRange index s = pointValueRange p.
Proof.
  intros H Hi. exists (nth (Z.to_nat index) l defaultConstructed).
  split; [apply nth_In; lia|].
  unfold Plottable1D.dataMainKey, Plottable1D.dataMainValue,
    Plottable1D.dataValueRange.
  rewrite (Layout_size H), (Layout_begin H), (Layout_deref _ H).
  destruct (Z.leb_spec 0 index); [|lia].
  destruct (Z.ltb_spec index (Z.of_nat (length l))); [|lia].
  repeat split.
Qed.

(** X24: when [keyRange] finds a range on a sorted container whose counting
    points have a main key that is not NaN, the range covers the data as the
    plottable hands it out by index: at every index in bounds whose
    [dataMainValue] is not NaN and whose [dataMainKey] lies in the sign
    domain, [dataMainKey] is a number between the bounds of the range. *)
Theorem keyRange_covers_data (sd : SignDomain) s :
  sortedStore s ->
  (forall p, In p (live s) -> countsForKeyRange sd p = true ->
             qIsNaN (mainKey p) = false) ->
  fst (keyRange sd s) = true ->
  exists lo hi,
    snd (keyRange sd s) = {| lower := Num lo; upper := Num hi |}
    /\ forall index, 0 <= index < Plottable1D.dataCount s ->
         qIsNaN (Plottable1D.dataMainValue index s) = false ->
         inSignDomain sd (Plottable1D.dataMainKey index s) = true ->
         exists k, Plottable1D.dataMainKey index s = Num k /\ lo <= k <= hi.
Proof.
  intros Hs Hk Hfound. destruct (sortedStore_Layout Hs) as (pre & H & S).
  rewrite keyRange_unfold in *.
  destruct (isEmpty s); [discriminate|]. cbn [fst snd] in *.
  destruct (keySearch_have sd (live s)) as [Hl _].
  rewrite Hl in Hfound. apply andb_prop in Hfound.
  destruct (keySearch_bounds sd S Hk (proj1 Hfound))
    as (lo & hi & Hr & Hall & _).
  exists lo, hi. split; [exact Hr|].
  intros index Hi Hv Hd. unfold Plottable1D.dataCount in Hi.
  rewrite (Layout_size H) in Hi.
  destruct (interface_point_in_bounds H Hi) as (p & Hin & Ek & Ev & _).
  rewrite Ek in *. rewrite Ev in Hv.
  apply (Hall p Hin). unfold countsForKeyRange. now rewrite Hv, Hd.
Qed.

(** X25: when [valueRange] finds a range on a sorted container, for a key
    range whose lower bound is not above its upper bound, the range bounds
    the data as the plottable hands it out by index, each side by its own
    bound: at every index in bounds whose [dataMainKey] is neither below
    nor above the key range, a lower bound of [dataValueRange] that is a
    number in the sign domain is not below the lower bound of the range,
    and an upper bound of [dataValueRange] that is a number in the sign
    domain is not above the upper bound of the range.  The range need not
    hold both bounds of a point: with the sign domain positive and the
    value ranges (-3, 4) and (6, 7) it is (6, 7). *)
Theorem valueRange_bounds_data (sd : SignDomain) (inKeyRange : QCPRange) s :
  sortedStore s ->
  (forall lo hi, lower inKeyRange = Num lo -> upper inKeyRange = Num hi ->
                 lo <= hi) ->
  fst (valueRange sd inKeyRange s) = true ->
  exists lo hi,
    snd (valueRange sd inKeyRange s) = {| lower := Num lo; upper := Num hi |}
    /\ forall index z, 0 <= index < Plottable1D.dataCount s ->
         qlt (Plottable1D.dataMainKey index s) (lower inKeyRange) = false ->
         qlt (upper inKeyRange) (Plottable1D.dataMainKey index s) = false ->
         inSignDomain sd (Num z) = true ->
         (lower (Plottable1D.dataValueRange index s) = Num z -> lo <= z)
         /\ (upper (Plottable1D.dataValueRange index s) = Num z -> z <= hi).
Proof.
  intros Hs Hord Hfound. destruct (sortedStore_Layout Hs) as (pre & H & _).
  rewrite (@valueRange_as_scan _ _ _ sd inKeyRange s Hs Hord) in *.
  destruct (valueRangeScan_spans sd inKeyRange (live s) Hfound)
    as (lo & hi & Hr & Hlo & Hhi & _).
  exists lo, hi. split; [exact Hr|].
  intros index z Hi Hbelow Habove Hd. unfold Plottable1D.dataCount in Hi.
  rewrite (Layout_size H) in Hi.
  destruct (interface_point_in_bounds H Hi) as (p & Hin & Ek & _ & Er).
  rewrite Ek in *. rewrite Er.
  assert (Hw : inKeyWindow inKeyRange p = true).
  { unfold inKeyWindow. rewrite Hbelow, Habove. cbn [orb].
    now rewrite andb_false_r. }
  split; intros Ez;
    [exact (Hlo p z Hin Hw Ez Hd) | exact (Hhi p z Hin Hw Ez Hd)].
Qed.
End InterfaceFacts.

(** ** drawPolyline *)
Section PolylineFacts.
Variable QPointF : Type.
Variable xIsNaN yIsNaN yIsInf : QPointF -> bool.

Local Abbreviation pointIsNaN := (Plottable1D.pointIsNaN xIsNaN yIsNaN).
Local Abbreviation isGap := (Plottable1D.isGap xIsNaN yIsNaN yIsInf).
Local Abbreviation fastLines := (Plottable1D.fastLines xIsNaN yIsNaN).
Local Abbreviation skipLeadingNaN := (Plottable1D.skipLeadingNaN xIsNaN yIsNaN).
Local Abbreviation polylineSegments :=
  (Plottable1D.polylineSegments xIsNaN yIsNaN yIsInf).
Local Abbreviation drawPolyline :=
  (Plottable1D.drawPolyline xIsNaN yIsNaN yIsInf).

(** The lines between neighbouring points neither of which is NaN. *)
Definition solidLines (pairs : list (QPointF * QPointF))
  : list (Plottable1D.PainterCall QPointF) :=
  map (fun ab => Plottable1D.DrawLine (fst ab) (snd ab))
      (filter (fun ab => negb (pointIsNaN (fst ab))
                         && negb (pointIsNaN (snd ab))) pairs).

Lemma fastLines_spec (previous : QPointF) (rest : list QPointF) :
  fastLines previous (pointIsNaN previous) rest
  = solidLines (combine (previous :: rest) rest).
Proof.
  revert previous. induction rest as [|p rest IH]; intros previous;
    [reflexivity|].
  cbn [Plottable1D.fastLines combine]. unfold solidLines.
  cbn [filter fst snd map].
  change (filter _ (combine (p :: rest) rest))
    with (filter (fun ab => negb (pointIsNaN (fst ab))
                            && negb (pointIsNaN (snd ab)))
                 (combine (p :: rest) rest)).
  specialize (IH p). unfold solidLines in IH.
  unfold Plottable1D.pointIsNaN in *.
  rewrite <- negb_orb.
  destruct (yIsNaN p || xIsNaN p); cbn [negb andb].
  - rewrite andb_false_r. exact IH.
  - rewrite andb_true_r.
    destruct (yIsNaN previous || xIsNaN previous); cbn [negb map fst snd];
      rewrite IH; reflexivity.
Qed.

Lemma skipLeadingNaN_lines (lineData : list QPointF) :
  solidLines (Plottable1D.neighbours lineData)
  = solidLines (Plottable1D.neighbours (skipLeadingNaN lineData)).
Proof.
  induction lineData as [|p rest IH]; [reflexivity|].
  cbn [Plottable1D.skipLeadingNaN].
  destruct (yIsNaN p || xIsNaN p) eqn:E; [|reflexivity].
  rewrite <- IH. unfold Plottable1D.neighbours. cbn [tl].
  destruct rest as [|q rest]; [reflexivity|].
  cbn [combine tl]. unfold solidLines. cbn [filter fst snd].
  unfold Plottable1D.pointIsNaN at 1. rewrite E. reflexivity.
Qed.

(** X22: with fast line drawing, [drawPolyline] hands the painter exactly
    one line for every pair of neighbouring points neither of which is NaN,
    in the order of the data, and nothing else. *)
Theorem drawPolyline_fast_lines (lineData : list QPointF) :
  drawPolyline true lineData
  = solidLines (Plottable1D.neighbours lineData).
Proof.
  rewrite skipLeadingNaN_lines. unfold Plottable1D.drawPolyline.
  assert (Hhead : forall p rest, skipLeadingNaN lineData = p :: rest ->
                                 pointIsNaN p = false).
  { induction lineData as [|q l IH]; intros p rest; [discriminate|].
    cbn [Plottable1D.skipLeadingNaN].
    destruct (yIsNaN q || xIsNaN q) eqn:E; [apply IH|].
    intros [= <- _]. exact E. }
  destruct (skipLeadingNaN lineData) as [|p rest]; [reflexivity|].
  rewrite <- (Hhead p rest eq_refl) at 1.
  apply fastLines_spec.
Qed.

(** The segments as the loop leaves them, told by the points instead of
    the positions. *)
Fixpoint segmentsFrom (segment rest : list QPointF)
  : list (Plottable1D.PainterCall QPointF) :=
  match rest with
  | [] => [Plottable1D.DrawPolyline segment]
  | p :: rest' =>
      if isGap p
      then Plottable1D.DrawPolyline segment :: segmentsFrom [] rest'
      else segmentsFrom (segment ++ [p]) rest'
  end.

Lemma polylineSegments_spec (pre segment rest : list QPointF) :
  polylineSegments (pre ++ segment ++ rest)
    (length pre) (length pre + length segment) rest
  = segmentsFrom segment rest.
Proof.
  revert pre segment. induction rest as [|p rest IH]; intros pre segment.
  - cbn [Plottable1D.polylineSegments segmentsFrom].
    rewrite app_nil_r, length_app, slice_suffix. reflexivity.
  - cbn [Plottable1D.polylineSegments segmentsFrom].
    unfold Plottable1D.isGap.
    destruct (yIsNaN p || xIsNaN p || yIsInf p).
    + rewrite slice_within. f_equal.
      specialize (IH (pre ++ segment ++ [p]) []).
      rewrite !length_app in IH. cbn [length app] in IH.
      rewrite Nat.add_0_r, Nat.add_assoc in IH.
      rewrite <- IH. f_equal.
      rewrite <- !app_assoc. reflexivity.
    + specialize (IH pre (segment ++ [p])).
      rewrite length_app in IH. cbn [length] in IH.
      rewrite Nat.add_assoc in IH. rewrite <- IH. f_equal.
      rewrite <- !app_assoc. reflexivity.
Qed.

Lemma segmentsFrom_spec (segment rest : list QPointF) :
  let calls := segmentsFrom segment rest in
  length calls = Datatypes.S (length (filter isGap rest))
  /\ concat (map (@Plottable1D.pointsOf QPointF) calls)
     = segment ++ filter (fun p => negb (isGap p)) rest
  /\ (Forall (fun p => isGap p = false) segment ->
      Forall (fun c => exists points,
                c = Plottable1D.DrawPolyline points
                /\ Forall (fun p => isGap p = false) points) calls).
Proof.
  revert segment. induction rest as [|p rest IH]; intros segment; cbv zeta.
  - cbn [segmentsFrom filter length map concat Plottable1D.pointsOf].
    rewrite !app_nil_r. repeat split.
    intros Hseg. constructor; [|constructor]. now exists segment.
  - cbn [segmentsFrom filter]. destruct (isGap p) eqn:E; cbn [negb].
    + destruct (IH []) as (Hlen & Hcat & Hall). cbv zeta in *.
      cbn [length map concat Plottable1D.pointsOf].
      rewrite Hlen, Hcat. repeat split.
      intros Hseg. constructor; [now exists segment|].
      apply Hall. constructor.
    + destruct (IH (segment ++ [p])) as (Hlen & Hcat & Hall).
      cbv zeta in *. rewrite Hlen, Hcat, <- app_assoc. repeat split.
      intros Hseg. apply Hall, Forall_app. split; [exact Hseg|].
      constructor; [exact E|constructor].
Qed.

(** X23: without fast line drawing, [drawPolyline] hands the painter only
    polylines, one more than there are points that are NaN or have an
    infinite y; no such point is in any of them, and together, in order,
    they hold exactly the other points of the data. *)
Theorem drawPolyline_segments (lineData : list QPointF) :
  let calls := drawPolyline false lineData in
  length calls = Datatypes.S (length (filter isGap lineData))
  /\ concat (map (@Plottable1D.pointsOf QPointF) calls)
     = filter (fun p => negb (isGap p)) lineData
  /\ Forall (fun c => exists points,
               c = Plottable1D.DrawPolyline points
               /\ Forall (fun p => isGap p = false) points) calls.
Proof.
  cbv zeta. unfold Plottable1D.drawPolyline.
  pose proof (polylineSegments_spec [] [] lineData) as Hspec.
  cbn [app length Nat.add] in Hspec. rewrite Hspec.
  destruct (segmentsFrom_spec [] lineData) as (Hlen & Hcat & Hall).
  cbv zeta in *. repeat split; [exact Hlen|exact Hcat|].
  apply Hall. constructor.
Qed.
End PolylineFacts.
(** * A concrete point type and the scenarios of the specification *)

(** Modelled from the spec: the points of the example scenarios, a key and a
    value, sorted by the key; this is QCPGraphData, whose declaration is not
    part of the sources at hand.  Key and value are doubles. *)
Record QCPGraphData := { key : qreal; value : qreal }.

Definition graphDataType : QCPDataType QCPGraphData :=
  {| sortKey := key;
     fromSortKey := fun k => {| key := k; value := Num 0 |};
     defaultConstructed := {| key := Num 0; value := Num 0 |};
     sortKey_fromSortKey := fun k => eq_refl |}.

(** An allocation policy for the scenarios: QVector allocates what is asked
    for and releases everything on [clear]. *)
Definition exactAlloc : QVectorAlloc :=
  {| growCapacity := fun _ n => n; clearCapacity := fun _ => 0 |}.

#[local] Existing Instance graphDataType.
#[local] Existing Instance exactAlloc.
#[local] Existing Instance insertionSorter.

(** The point with the numbers [k] and [v] as key and value. *)
Definition pt (k v : Z) : QCPGraphData := {| key := Num k; value := Num v |}.

(** A point whose key is NaN. *)
Definition ptNaN (v : Z) : QCPGraphData := {| key := NaN; value := Num v |}.

Definition vec (l : list QCPGraphData) : QVector QCPGraphData :=
  {| items := l; capacity := Z.of_nat (length l) |}.

(** The scenario of the specification: from an empty store,
    [add([(5,50),(6,60),(7,70)], true)], [add((3,30))], [removeBefore(5)],
    [removeAfter(6)]. *)
Definition scenario1 : @QCPDataContainer QCPGraphData :=
  add_vector (vec [pt 5 50; pt 6 60; pt 7 70]) true newContainer.
Definition scenario2 := add (pt 3 30) scenario1.
Definition scenario3 := removeBefore (Num 5) scenario2.
Definition scenario4 := removeAfter (Num 6) scenario3.

(** A store with equal keys. *)
Definition storeWithTies : @QCPDataContainer QCPGraphData :=
  add (pt 6 61) (add (pt 4 40) scenario2).

(** A store whose single point has a NaN key. *)
Definition storeOfNaN : @QCPDataContainer QCPGraphData :=
  add (ptNaN 0) newContainer.

(** A store with the single point (-5, 0). *)
Definition storeOfOne : @QCPDataContainer QCPGraphData :=
  add (pt (-5) 0) newContainer.

Lemma scenario_states :
  live scenario1 = [pt 5 50; pt 6 60; pt 7 70]
  /\ live scenario2 = [pt 3 30; pt 5 50; pt 6 60; pt 7 70]
  /\ mPreallocSize scenario2 = 4
  /\ live storeWithTies
     = [pt 3 30; pt 4 40; pt 5 50; pt 6 61; pt 6 60; pt 7 70]
  /\ live storeOfNaN = [ptNaN 0].
Proof. repeat split; reflexivity. Qed.

Ltac sorted_store :=
  split; [unfold wf; vm_compute; split; discriminate
         | vm_compute; repeat constructor].

Ltac no_NaN_keys := vm_compute; repeat constructor.

Lemma scenario1_sorted : sortedStore scenario1.
Proof. sorted_store. Qed.

(** C1, witness: the prepend path of [add] on the scenario store. *)
Lemma sort_invariant_preserved_witness :
  sortedStore scenario1 /\ NoNaNKeys (live scenario1)
  /\ callerContract (OpAddPoint (pt 3 30))
  /\ sortedStore (run (OpAddPoint (pt 3 30)) scenario1)
  /\ NoNaNKeys (live (run (OpAddPoint (pt 3 30)) scenario1)).
Proof.
  assert (Hs : sortedStore scenario1) by sorted_store.
  assert (N : NoNaNKeys (live scenario1)) by no_NaN_keys.
  split; [exact Hs|]. split; [exact N|]. split; [reflexivity|].
  exact (sort_invariant_preserved (OpAddPoint (pt 3 30)) Hs N eq_refl).
Defined.

(** C1, counterexample: a vector that is not sorted, passed to [set] as
    [alreadySorted], becomes the live range as it is. *)
Lemma set_alreadySorted_unsorted_breaks_order :
  ~ (forall (op : @MutOp QCPGraphData) s,
       sortedStore s -> KeySorted (live (run op s))).
Proof.
  intros Hclaim.
  specialize (Hclaim (OpSetVector (vec [pt 2 20; pt 1 10]) true) newContainer).
  assert (Hnew : sortedStore (@newContainer QCPGraphData)).
  { split; [unfold wf; vm_compute; split; discriminate | constructor]. }
  specialize (Hclaim Hnew).
  change (KeySorted [pt 2 20; pt 1 10]) in Hclaim.
  apply KeySorted_cons in Hclaim. destruct Hclaim as [_ F].
  inversion F as [|? ? Hle _]; subst. discriminate.
Qed.

(** Why C1 asks that no key handed in is NaN: on the sorted store
    [(5,50),(6,60),(7,70)], [add] of a point with a NaN key appends it, and
    [add] of the point (0,0) after that appends again. *)
Lemma add_NaN_key_then_add :
  sortedStore scenario1
  /\ live (add (pt 0 0) (add (ptNaN 0) scenario1))
     = [pt 5 50; pt 6 60; pt 7 70; ptNaN 0; pt 0 0]
  /\ ~ KeySorted (live (add (pt 0 0) (add (ptNaN 0) scenario1))).
Proof.
  split; [sorted_store|]. split; [reflexivity|].
  intros S. change (KeySorted [pt 5 50; pt 6 60; pt 7 70; ptNaN 0; pt 0 0])
    in S.
  apply KeySorted_cons in S. destruct S as [_ F].
  rewrite Forall_forall in F.
  specialize (F (ptNaN 0) (or_intror (or_intror (or_introl eq_refl)))).
  discriminate.
Qed.

(** Why C1 asks that a container passed in is another container: a store
    with the single point (-5,0), added to itself, holds a default
    constructed point, whose key is 0, before the point (-5,0). *)
Lemma add_container_self_breaks_order :
  sortedStore storeOfOne
  /\ option_map live (add_container_self storeOfOne)
     = Some [pt 0 0; pt (-5) 0]
  /\ ~ KeySorted [pt 0 0; pt (-5) 0].
Proof.
  split; [sorted_store|]. split; [reflexivity|].
  intros S. apply KeySorted_cons in S. destruct S as [_ F].
  inversion F as [|? ? Hle _]; subst. discriminate.
Qed.

(** C2: in the scenario of the specification [removeAfter(6)] leaves the
    point with key 6 in the store: the live sequence is [(5,50),(6,60)] and
    [size()] is 2. *)
Lemma scenario_removeAfter_keeps_key :
  live scenario3 = [pt 5 50; pt 6 60; pt 7 70]
  /\ live (removeAfter (Num 6) scenario3) = [pt 5 50; pt 6 60]
  /\ size (removeAfter (Num 6) scenario3) = 2.
Proof. repeat split; reflexivity. Qed.

(** C3: in the scenario of the specification [removeBefore(5)] leaves the
    point with key 5 in the store: the live sequence is
    [(5,50),(6,60),(7,70)], with the one removed point added to the
    preallocation size. *)
Lemma scenario_removeBefore_keeps_key :
  live scenario2 = [pt 3 30; pt 5 50; pt 6 60; pt 7 70]
  /\ live (removeBefore (Num 5) scenario2) = [pt 5 50; pt 6 60; pt 7 70]
  /\ size (removeBefore (Num 5) scenario2) = 3
  /\ mPreallocSize (removeBefore (Num 5) scenario2)
     = mPreallocSize scenario2 + 1
  /\ items (mData (removeBefore (Num 5) scenario2))
     = items (mData scenario2).
Proof. repeat split; reflexivity. Qed.

(** C4, witness: a vector out of order. *)
Lemma set_unsorted_roundtrip_witness :
  NoNaNKeys (items (vec [pt 2 20; pt 1 10]))
  /\ live (set (vec [pt 2 20; pt 1 10]) false newContainer)
     = [pt 1 10; pt 2 20]
  /\ KeySorted (live (set (vec [pt 2 20; pt 1 10]) false newContainer)).
Proof.
  assert (N : NoNaNKeys (items (vec [pt 2 20; pt 1 10]))) by no_NaN_keys.
  split; [exact N|].
  destruct (set_unsorted_roundtrip (vec [pt 2 20; pt 1 10]) newContainer)
    as (Hlive & _ & _ & _ & _ & Hsorted).
  split; [exact Hlive|]. exact (proj1 (Hsorted N)).
Defined.

(** C4, counterexample: a vector of two points one of which has a NaN key
    has no arrangement in non-decreasing order of sort key, so that [set]
    does not leave one, whatever [std::sort] does. *)
Lemma set_NaN_key_not_sorted :
  ~ (exists sorter : @StdSort QCPGraphData graphDataType,
       forall (xs : QVector QCPGraphData) s,
         KeySorted (live (@set _ _ sorter xs false s))).
Proof.
  intros [sorter Hclaim].
  specialize (Hclaim (vec [ptNaN 0; pt 1 10]) newContainer).
  pose proof (@set_Layout _ _ sorter (vec [ptNaN 0; pt 1 10])
                false newContainer) as H.
  cbv iota in H. rewrite (Layout_live H) in Hclaim.
  pose proof (@sort_range_perm _ _ sorter [ptNaN 0; pt 1 10]) as HP.
  destruct (KeySorted_cases Hclaim) as [N|[x Hx]].
  - apply (NoNaNKeys_perm (Permutation_sym HP)) in N.
    inversion N as [|? ? Hnan _]; subst. discriminate.
  - apply Permutation_length in HP. simpl in HP.
    change (items (vec [ptNaN 0; pt 1 10])) with [ptNaN 0; pt 1 10] in Hx.
    rewrite Hx in HP. discriminate.
Qed.

(** C5, witness: the prepend path. *)
Lemma add_point_as_sort_witness :
  sortedStore scenario1 /\ NoNaNKeys (live scenario1)
  /\ qIsNaN (sortKey (pt 3 30)) = false
  /\ live (add (pt 3 30) scenario1) = add_result (pt 3 30) (live scenario1)
  /\ KeySorted (live (add (pt 3 30) scenario1))
  /\ map sortKey (live (add (pt 3 30) scenario1))
     = map sortKey (sort_range (live scenario1 ++ [pt 3 30])).
Proof.
  assert (Hs : sortedStore scenario1) by sorted_store.
  assert (N : NoNaNKeys (live scenario1)) by no_NaN_keys.
  split; [exact Hs|]. split; [exact N|]. split; [reflexivity|].
  destruct (add_point_as_sort (pt 3 30) Hs) as (Hlive & _ & Hord).
  destruct (Hord N eq_refl) as (Hsorted & _ & Hkeys).
  split; [exact Hlive|]. split; [exact Hsorted | exact Hkeys].
Defined.

(** C5, counterexample: [add] of a point with a NaN key to the sorted store
    [(5,50),(6,60),(7,70)] appends it, and the live sequence is not in
    non-decreasing order of sort key. *)
Lemma add_NaN_key_breaks_order :
  ~ (forall (p : QCPGraphData) s,
       sortedStore s -> KeySorted (live (add p s))).
Proof.
  intros Hclaim.
  specialize (Hclaim (ptNaN 0) scenario1 scenario1_sorted).
  change (KeySorted [pt 5 50; pt 6 60; pt 7 70; ptNaN 0]) in Hclaim.
  apply KeySorted_cons in Hclaim. destruct Hclaim as [_ F].
  rewrite Forall_forall in F.
  specialize (F (ptNaN 0) (or_intror (or_intror (or_introl eq_refl)))).
  discriminate.
Qed.

(** C6, witness: the run of the two points with key 6. *)
Lemma findBegin_findEnd_bracket_witness :
  sortedStore storeWithTies
  /\ findBegin (Num 6) false storeWithTies = (begin_ storeWithTies + 3)%nat
  /\ findEnd (Num 6) false storeWithTies = (begin_ storeWithTies + 5)%nat.
Proof.
  assert (Hs : sortedStore storeWithTies) by sorted_store.
  split; [exact Hs|].
  destruct (findBegin_findEnd_bracket (Num 6) Hs) as [_ Hfull].
  destruct (Hfull eq_refl) as (_ & _ & _ & _ & Hlower & Hupper & _).
  split; [exact Hlower | exact Hupper].
Defined.

(** C6, counterexample: for the key NaN the bracket on the store
    [(5,50),(6,60),(7,70)] is the whole live range, though no sort key of
    the store equals NaN. *)
Lemma findBegin_NaN_key_brackets_all :
  ~ (forall (k : qreal) (s : @QCPDataContainer QCPGraphData),
       sortedStore s -> isEmpty s = false ->
       forall it, (begin_ s <= it < end_ s)%nat ->
         ((findBegin k false s <= it < findEnd k false s)%nat
          <-> sortKey (deref s it) = k)).
Proof.
  intros Hclaim.
  specialize (Hclaim NaN scenario1 scenario1_sorted eq_refl 0%nat).
  assert (Hit : (begin_ scenario1 <= 0 < end_ scenario1)%nat)
    by (vm_compute; split; constructor; repeat constructor).
  destruct (Hclaim Hit) as [Hkey _].
  assert (Hin : (findBegin NaN false scenario1 <= 0
                 < findEnd NaN false scenario1)%nat)
    by (vm_compute; split; constructor; repeat constructor).
  specialize (Hkey Hin). vm_compute in Hkey. discriminate.
Qed.

(** C7, witness: squeezing the store that holds four preallocated slots. *)
Lemma squeeze_transparent_witness :
  wf scenario2
  /\ live (squeeze true true scenario2) = live scenario2
  /\ size (squeeze true true scenario2) = size scenario2
  /\ mAutoSqueeze (squeeze true true scenario2) = mAutoSqueeze scenario2
  /\ wf (squeeze true true scenario2).
Proof.
  assert (Hw : wf scenario2) by (vm_compute; split; discriminate).
  split; [exact Hw|].
  apply (squeeze_transparent true true). exact Hw.
Defined.

(** C8, witness: the first growth of a fresh store. *)
Lemma preallocateGrow_schedule_witness :
  mPreallocSize (@newContainer QCPGraphData) < 1
  /\ mPreallocSize (preallocateGrow 1 (@newContainer QCPGraphData))
     = 1 + growthIncrement 0
  /\ mPreallocIteration (preallocateGrow 1 (@newContainer QCPGraphData)) = 1.
Proof.
  split; [reflexivity|].
  destruct (preallocateGrow_schedule 1 (@newContainer QCPGraphData))
    as (_ & Hgrow & _).
  exact (Hgrow eq_refl).
Defined.

(** C8, counterexample: the first growth of a fresh store asked for one slot
    preallocates 1 + 4 slots, which is below 1 + 16. *)
Lemma preallocateGrow_first_increment_is_4 :
  mPreallocSize (@newContainer QCPGraphData) < 1
  /\ mPreallocSize (preallocateGrow 1 (@newContainer QCPGraphData)) = 1 + 4
  /\ ~ (forall (s : @QCPDataContainer QCPGraphData) m,
          mPreallocSize s < m ->
          mPreallocSize (preallocateGrow m s)
          = m + spec_schedule (mPreallocIteration s)).
Proof.
  split; [reflexivity|]. split; [reflexivity|].
  intros Hclaim. specialize (Hclaim newContainer 1 eq_refl).
  vm_compute in Hclaim. discriminate.
Qed.

(** C9, witness: an index in bounds. *)
Lemma at_clamped_witness :
  wf scenario2
  /\ at_ scenario2 2 = (begin_ scenario2 + 2)%nat
  /\ nth_error (items (mData scenario2)) (at_ scenario2 2)
     = nth_error (live scenario2) 2.
Proof.
  assert (Hw : wf scenario2) by (vm_compute; split; discriminate).
  split; [exact Hw|].
  destruct (at_clamped 2 Hw) as (_ & _ & _ & Hin).
  apply Hin. split; [lia|reflexivity].
Defined.

(** C9, counterexample: a negative index gives [constBegin()], which on a
    store that is not empty is not [constEnd()]. *)
Lemma at_negative_index_is_begin :
  ~ (forall (s : @QCPDataContainer QCPGraphData) index,
       wf s -> index < 0 \/ size s <= index -> at_ s index = end_ s).
Proof.
  intros Hclaim.
  assert (Hw : wf scenario1) by apply scenario1_sorted.
  specialize (Hclaim scenario1 (-1) Hw (or_introl eq_refl)).
  vm_compute in Hclaim. discriminate.
Qed.

(** C10, witness: removing key 6 from the store with two points of key 6. *)
Lemma remove_key_exact_witness :
  sortedStore storeWithTies
  /\ (exists x, In x (live storeWithTies) /\ qeq (sortKey x) (Num 6) = true)
  /\ live (remove (Num 6) storeWithTies)
     = [pt 3 30; pt 4 40; pt 5 50; pt 6 60; pt 7 70].
Proof.
  assert (Hs : sortedStore storeWithTies) by sorted_store.
  assert (Hex : exists x, In x (live storeWithTies)
                          /\ qeq (sortKey x) (Num 6) = true).
  { exists (pt 6 61). split; [|reflexivity]. vm_compute. tauto. }
  split; [exact Hs|]. split; [exact Hex|].
  destruct (remove_key_exact (Num 6) Hs) as (_ & _ & Hmatch).
  destruct (Hmatch Hex) as (l1 & x & l2 & _ & _ & _ & Hlive & _).
  reflexivity.
Defined.

(** C10, counterexample: the store whose single point has a NaN key holds a
    point whose sort key is the key asked for, NaN, and [remove(NaN)]
    removes nothing: [NaN == NaN] is false. *)
Lemma remove_NaN_key_removes_nothing :
  ~ (forall (k : qreal) (s : @QCPDataContainer QCPGraphData),
       sortedStore s -> (exists x, In x (live s) /\ sortKey x = k) ->
       size (remove k s) = size s - 1).
Proof.
  intros Hclaim.
  assert (Hs : sortedStore storeOfNaN) by sorted_store.
  specialize (Hclaim NaN storeOfNaN Hs).
  assert (Hex : exists x, In x (live storeOfNaN) /\ sortKey x = NaN).
  { exists (ptNaN 0). split; [now left|reflexivity]. }
  specialize (Hclaim Hex). vm_compute in Hclaim. discriminate.
Qed.

(** * Examples for the further properties *)

(** Modelled from the spec: QCPGraphData as plot data.  The sort key is the
    main key, the value is the main value, and the value range of a point is
    the single value. *)
Definition graphPlotDataType : @QCPPlotDataType QCPGraphData graphDataType :=
  {| sortKeyIsMainKey := true;
     mainKey := key;
     mainValue := value;
     pointValueRange := fun p => {| lower := value p; upper := value p |};
     sortKeyIsMainKey_spec := fun _ p => eq_refl |}.

#[local] Existing Instance graphPlotDataType.

(** A store that auto squeeze looks at: three points in a vector with 2000
    allocated elements. *)
Definition largeStore : @QCPDataContainer QCPGraphData :=
  {| mAutoSqueeze := true;
     mData := {| items := [pt 1 10; pt 2 20; pt 3 30]; capacity := 2000 |};
     mPreallocSize := 0; mPreallocIteration := 0 |}.

(** A store whose live points are out of order. *)
Definition unsortedStore : @QCPDataContainer QCPGraphData :=
  set (vec [pt 2 20; pt 1 10]) true newContainer.

(** The key window from 5 to 6. *)
Definition window56 : QCPRange := {| lower := Num 5; upper := Num 6 |}.

Lemma window56_ordered (lo hi : Z) :
  lower window56 = Num lo -> upper window56 = Num hi -> lo <= hi.
Proof. intros [= <-] [= <-]. lia. Qed.

(** X1, witness: [removeBefore(5)] on the scenario store. *)
Lemma removeBefore_keeps_not_below_witness :
  sortedStore scenario2
  /\ live (removeBefore (Num 5) scenario2) = [pt 5 50; pt 6 60; pt 7 70]
  /\ size (removeBefore (Num 5) scenario2) = 3.
Proof.
  assert (Hs : sortedStore scenario2) by sorted_store.
  split; [exact Hs|].
  destruct (removeBefore_keeps_not_below (Num 5) Hs) as (Hlive & Hsize & _).
  split; [exact Hlive | exact Hsize].
Defined.

(** X2, witness: [removeAfter(6)] on the scenario store. *)
Lemma removeAfter_keeps_not_above_witness :
  sortedStore scenario2
  /\ live (removeAfter (Num 6) scenario2) = [pt 3 30; pt 5 50; pt 6 60]
  /\ size (removeAfter (Num 6) scenario2) = 3.
Proof.
  assert (Hs : sortedStore scenario2) by sorted_store.
  split; [exact Hs|].
  destruct (removeAfter_keeps_not_above (Num 6) Hs)
    as (Hlive & _ & Hsize & _).
  split; [exact Hlive | exact Hsize].
Defined.



(** X5, witness: a vector out of order added to the scenario store. *)
Lemma add_vector_accounting_witness :
  wf scenario1
  /\ size (add_vector (vec [pt 9 90; pt 1 10]) false scenario1) = 5.
Proof.
  assert (Hw : wf scenario1) by (vm_compute; split; discriminate).
  split; [exact Hw|].
  destruct (add_vector_accounting (vec [pt 9 90; pt 1 10]) false Hw)
    as (_ & Hsize & _).
  exact Hsize.
Defined.

(** X6, witness: one scenario store added to and set from another. *)
Lemma add_set_container_accounting_witness :
  wf scenario1 /\ wf scenario2
  /\ size (add_container scenario2 scenario1) = 7
  /\ live (set_container scenario2 scenario1)
     = [pt 3 30; pt 5 50; pt 6 60; pt 7 70].
Proof.
  assert (Hw1 : wf scenario1) by (vm_compute; split; discriminate).
  assert (Hw2 : wf scenario2) by (vm_compute; split; discriminate).
  split; [exact Hw1|]. split; [exact Hw2|].
  destruct (add_set_container_accounting Hw1 Hw2) as (_ & Hsize & Hset & _).
  split; [exact Hsize | exact Hset].
Defined.

(** X7, witness: a point with a new key added to the scenario store and
    removed again. *)
Lemma add_remove_roundtrip_witness :
  sortedStore scenario1 /\ NoNaNKeys (live scenario1)
  /\ qIsNaN (sortKey (pt 4 40)) = false
  /\ (forall x, In x (live scenario1) ->
                qeq (sortKey x) (sortKey (pt 4 40)) = false)
  /\ live (remove (Num 4) (add (pt 4 40) scenario1)) = live scenario1.
Proof.
  assert (Hs : sortedStore scenario1) by sorted_store.
  assert (N : NoNaNKeys (live scenario1)) by no_NaN_keys.
  assert (Hnew : forall x, In x (live scenario1) ->
                           qeq (sortKey x) (sortKey (pt 4 40)) = false).
  { intros x Hin. vm_compute in Hin.
    destruct Hin as [<-|[<-|[<-|[]]]]; reflexivity. }
  split; [exact Hs|]. split; [exact N|]. split; [reflexivity|].
  split; [exact Hnew|].
  destruct (add_remove_roundtrip (pt 4 40) Hs N eq_refl) as (_ & _ & Hlive).
  exact (Hlive Hnew).
Defined.

(** X8, witness: a second point with key 6 added to the scenario store. *)
Lemma add_then_find_witness :
  sortedStore scenario1
  /\ size (add (pt 6 66) scenario1) = 4.
Proof.
  assert (Hs : sortedStore scenario1) by sorted_store.
  split; [exact Hs|].
  destruct (add_then_find (pt 6 66) Hs) as [Hsize _]. exact Hsize.
Defined.

(** X9, witness: the scenario store has fewer than 1000 allocated
    elements. *)
Lemma removals_keep_allocation_witness :
  capacity (mData scenario2) <= 1000
  /\ mData (removeBefore (Num 5) scenario2) = mData scenario2
  /\ capacity (mData (removeAfter (Num 5) scenario2))
     = capacity (mData scenario2).
Proof.
  assert (Hc : capacity (mData scenario2) <= 1000)
    by (vm_compute; discriminate).
  split; [exact Hc|].
  destruct (@removals_keep_allocation _ _ _ (Num 5) (Num 7) scenario2
              (or_intror Hc))
    as (Hbefore & Hafter & _).
  split; [exact Hbefore | exact Hafter].
Defined.

(** X10, witness: [removeBefore(3)] on the store with 2000 allocated
    elements. *)
Lemma removeBefore_bounds_preallocation_witness :
  sortedStore largeStore /\ mAutoSqueeze largeStore = true
  /\ 1000 < capacity (mData largeStore)
  /\ capacity (mData largeStore) <= 650000
  /\ 2 * mPreallocSize (removeBefore (Num 3) largeStore)
     <= 3 * size (removeBefore (Num 3) largeStore).
Proof.
  assert (Hs : sortedStore largeStore) by sorted_store.
  assert (Hc : capacity (mData largeStore) <= 650000)
    by (vm_compute; discriminate).
  split; [exact Hs|]. split; [reflexivity|]. split; [reflexivity|].
  split; [exact Hc|].
  destruct (removeBefore_bounds_preallocation (Num 3) Hs eq_refl eq_refl)
    as [_ Hsmall].
  exact (Hsmall Hc).
Defined.

(** X11, witness: the scenario store with its four preallocated slots. *)
Lemma squeeze_releases_all_witness :
  wf scenario2
  /\ items (mData (squeeze true true scenario2))
     = [pt 3 30; pt 5 50; pt 6 60; pt 7 70]
  /\ mPreallocSize (squeeze true true scenario2) = 0
  /\ capacity (mData (squeeze true true scenario2)) = 4.
Proof.
  assert (Hw : wf scenario2) by (vm_compute; split; discriminate).
  split; [exact Hw|].
  destruct (squeeze_releases_all Hw) as (Hitems & Hpre & _ & Hcap).
  split; [exact Hitems|]. split; [exact Hpre | exact Hcap].
Defined.

(** X12, witness: three slots asked for on the scenario store. *)
Lemma preallocateGrow_postcondition_witness :
  wf scenario1
  /\ live (preallocateGrow 3 scenario1) = live scenario1
  /\ 3 <= mPreallocSize (preallocateGrow 3 scenario1).
Proof.
  assert (Hw : wf scenario1) by (vm_compute; split; discriminate).
  split; [exact Hw|].
  destruct (preallocateGrow_postcondition 3 Hw) as (Hlive & _ & Hmin & _).
  split; [exact Hlive | exact Hmin].
Defined.

(** X13, witness: the store whose points are out of order. *)
Lemma sort_restores_order_witness :
  wf unsortedStore /\ NoNaNKeys (live unsortedStore)
  /\ live unsortedStore = [pt 2 20; pt 1 10]
  /\ sortedStore (sort unsortedStore).
Proof.
  assert (Hw : wf unsortedStore) by (vm_compute; split; discriminate).
  assert (N : NoNaNKeys (live unsortedStore)) by no_NaN_keys.
  split; [exact Hw|]. split; [exact N|]. split; [reflexivity|].
  destruct (sort_restores_order Hw) as (_ & _ & _ & Hsorted).
  exact (proj1 (Hsorted N)).
Defined.

(** X14, witness: auto squeeze disabled on the scenario store. *)
Lemma setAutoSqueeze_transparent_witness :
  wf scenario2
  /\ mAutoSqueeze (setAutoSqueeze false scenario2) = false
  /\ live (setAutoSqueeze false scenario2) = live scenario2.
Proof.
  assert (Hw : wf scenario2) by (vm_compute; split; discriminate).
  split; [exact Hw|].
  destruct (setAutoSqueeze_transparent false Hw) as (Hflag & Hlive & _).
  split; [exact Hflag | exact Hlive].
Defined.

(** X15, witness: the scenario store has a point that counts. *)
Lemma keyRange_found_iff_witness :
  wf scenario2 /\ fst (keyRange sdPositive scenario2) = true.
Proof.
  assert (Hw : wf scenario2) by (vm_compute; split; discriminate).
  split; [exact Hw|].
  apply (proj2 (keyRange_found_iff sdPositive Hw)).
  exists (pt 3 30). split; [left; reflexivity | reflexivity].
Defined.

(** X16, witness: the key range of the scenario store. *)
Lemma keyRange_spans_keys_witness :
  sortedStore scenario2
  /\ fst (keyRange sdBoth scenario2) = true
  /\ exists lo hi,
       snd (keyRange sdBoth scenario2) = {| lower := Num lo; upper := Num hi |}
       /\ lo <= 3 /\ 7 <= hi.
Proof.
  assert (Hs : sortedStore scenario2) by sorted_store.
  split; [exact Hs|]. split; [reflexivity|].
  assert (Hkeys : forall p, In p (live scenario2) ->
                            countsForKeyRange sdBoth p = true ->
                            qIsNaN (mainKey p) = false).
  { intros p Hin _. vm_compute in Hin.
    destruct Hin as [<-|[<-|[<-|[<-|[]]]]]; reflexivity. }
  destruct (keyRange_spans_keys sdBoth Hs Hkeys eq_refl)
    as (lo & hi & Hrange & Hall & _).
  exists lo, hi. split; [exact Hrange|].
  destruct (Hall (pt 3 30) (or_introl eq_refl) eq_refl) as (k3 & E3 & H3).
  destruct (Hall (pt 7 70)
              (or_intror (or_intror (or_intror (or_introl eq_refl))))
              eq_refl) as (k7 & E7 & H7).
  injection E3 as <-. injection E7 as <-. simpl in H3, H7. lia.
Defined.

(** X17, witness: the value range of the scenario store in the key window
    from 5 to 6. *)
Lemma valueRange_narrowing_transparent_witness :
  sortedStore scenario2
  /\ (forall lo hi, lower window56 = Num lo -> upper window56 = Num hi ->
                    lo <= hi)
  /\ valueRange sdBoth window56 scenario2
     = valueRangeScan sdBoth window56 (live scenario2).
Proof.
  assert (Hs : sortedStore scenario2) by sorted_store.
  split; [exact Hs|]. split; [exact window56_ordered|].
  exact (valueRange_narrowing_transparent sdBoth window56 Hs
           window56_ordered).
Defined.

(** X18, witness: the key window from 5 to 6 holds points with a value. *)
Lemma valueRange_found_iff_witness :
  sortedStore scenario2
  /\ fst (valueRange sdBoth window56 scenario2) = true.
Proof.
  assert (Hs : sortedStore scenario2) by sorted_store.
  split; [exact Hs|].
  apply (proj2 (valueRange_found_iff sdBoth window56 Hs window56_ordered)).
  split; exists (pt 5 50);
    (split; [right; left; reflexivity | split; reflexivity]).
Defined.

(** X19, witness: the value range of the key window from 5 to 6 spans the
    values 50 and 60. *)
Lemma valueRange_spans_values_witness :
  sortedStore scenario2
  /\ fst (valueRange sdBoth window56 scenario2) = true
  /\ exists lo hi,
       snd (valueRange sdBoth window56 scenario2)
       = {| lower := Num lo; upper := Num hi |}
       /\ lo <= 50 /\ 60 <= hi.
Proof.
  assert (Hs : sortedStore scenario2) by sorted_store.
  assert (Hfound : fst (valueRange sdBoth window56 scenario2) = true)
    by reflexivity.
  split; [exact Hs|]. split; [exact Hfound|].
  destruct (valueRange_spans_values sdBoth window56 Hs window56_ordered
              Hfound)
    as (lo & hi & Hrange & Hlower & Hupper & _).
  exists lo, hi. split; [exact Hrange|]. split.
  - apply (Hlower (pt 5 50) 50); [right; left; reflexivity | | | ];
      reflexivity.
  - apply (Hupper (pt 6 60) 60);
      [right; right; left; reflexivity | | | ]; reflexivity.
Defined.

(** X20, witness: the run of the two points with key 6, at the indices 3
    and 4. *)
Lemma interface_find_bracket_witness :
  sortedStore storeWithTies
  /\ Plottable1D.findBegin (Num 6) false storeWithTies <= 3
     < Plottable1D.findEnd (Num 6) false storeWithTies
  /\ Plottable1D.findEnd (Num 6) false storeWithTies
     <= Plottable1D.dataCount storeWithTies.
Proof.
  assert (Hs : sortedStore storeWithTies) by sorted_store.
  split; [exact Hs|].
  destruct (interface_find_bracket (Num 6) Hs) as (_ & Hend & Hrun & _).
  split; [|exact Hend].
  destruct (Hrun 3) as [_ Heq]; [split; [lia | reflexivity]|].
  apply (Heq eq_refl eq_refl). reflexivity.
Defined.

(** X21, witness: the sort keys at the indices 1 and 3 of the scenario
    store. *)
Lemma interface_sort_keys_ascend_witness :
  sortedStore scenario2 /\ 0 <= 1 /\ 1 <= 3
  /\ 3 < Plottable1D.dataCount scenario2
  /\ qle (Plottable1D.dataSortKey 1 scenario2)
         (Plottable1D.dataSortKey 3 scenario2) = true.
Proof.
  assert (Hs : sortedStore scenario2) by sorted_store.
  split; [exact Hs|]. split; [lia|]. split; [lia|]. split; [reflexivity|].
  destruct (@interface_sort_keys_ascend _ _ scenario2 1 3 Hs)
    as [_ Hle]; [lia | lia | reflexivity |].
  apply Hle. left. lia.
Defined.

(** X24, witness: the key range of the scenario store covers the key at
    index 2. *)
Lemma keyRange_covers_data_witness :
  sortedStore scenario2
  /\ fst (keyRange sdBoth scenario2) = true
  /\ exists lo hi,
       snd (keyRange sdBoth scenario2) = {| lower := Num lo; upper := Num hi |}
       /\ lo <= 6 <= hi.
Proof.
  assert (Hs : sortedStore scenario2) by sorted_store.
  assert (Hkeys : forall p, In p (live scenario2) ->
                            countsForKeyRange sdBoth p = true ->
                            qIsNaN (mainKey p) = false).
  { intros p Hin _. vm_compute in Hin.
    destruct Hin as [<-|[<-|[<-|[<-|[]]]]]; reflexivity. }
  assert (Hfound : fst (keyRange sdBoth scenario2) = true) by reflexivity.
  split; [exact Hs|]. split; [exact Hfound|].
  destruct (keyRange_covers_data sdBoth Hs Hkeys Hfound)
    as (lo & hi & Hrange & Hall).
  exists lo, hi. split; [exact Hrange|].
  destruct (Hall 2) as (k & Ek & Hk);
    [split; [lia | reflexivity] | reflexivity | reflexivity |].
  injection Ek as <-. exact Hk.
Defined.

(** X25, witness: in the key window from 5 to 6 the lower bound of the value
    range is at most, and the upper bound at least, the value at index 1. *)
Lemma valueRange_bounds_data_witness :
  sortedStore scenario2
  /\ fst (valueRange sdBoth window56 scenario2) = true
  /\ exists lo hi,
       snd (valueRange sdBoth window56 scenario2)
       = {| lower := Num lo; upper := Num hi |}
       /\ lo <= 50 <= hi.
Proof.
  assert (Hs : sortedStore scenario2) by sorted_store.
  assert (Hfound : fst (valueRange sdBoth window56 scenario2) = true)
    by reflexivity.
  split; [exact Hs|]. split; [exact Hfound|].
  destruct (valueRange_bounds_data sdBoth window56 Hs window56_ordered
              Hfound)
    as (lo & hi & Hrange & Hall).
  exists lo, hi. split; [exact Hrange|].
  destruct (Hall 1 50) as [Hlower Hupper];
    [split; [lia | reflexivity] | reflexivity | reflexivity | reflexivity |].
  split; [apply Hlower | apply Hupper]; reflexivity.
Defined.
